(** * TRON 2D (Tron2DApp in App.jsx): simulation step, AI and lifecycle

    A shallow embedding of the light-cycle game of the portfolio desktop:
    the occupancy grid (a [Uint8Array]), the two players, the flood-fill
    heuristic of the computer player, the single game step, the frame loop
    and the input handlers, followed by the properties of the game's
    specification that hold of them.

    JavaScript numbers that hold grid coordinates and indices are modelled
    by [Z]; scores and clock values, which are genuinely fractional, by
    binary64 primitive floats, the arithmetic of JavaScript numbers.  Typed
    arrays are lists read and written by index.  The component's state is
    one record, threaded through the handlers; with the React state it
    holds the values of [running], [winner] and [speed] that the frame
    loop closed over when its effect last ran. *)

From Stdlib Require Import ZArith Bool List Lia Floats.
From Stdlib Require String.
From stdpp Require Import base list.
Import ListNotations.
Import String.StringSyntax.

#[local] Open Scope Z_scope.
#[local] Delimit Scope string_scope with string.
#[local] Set Warnings "-inexact-float".

(** ** Typed arrays *)

Module TA.

(** [a[k]]: [None] is JavaScript's [undefined] of an out-of-range read. *)
Definition get (a : list Z) (k : Z) : option Z :=
  if k <? 0 then None else a !! Z.to_nat k.

(** [new Uint8Array(n)] / [new Int16Array(n)]: zero filled ([n] is never
    negative here; JavaScript would throw). *)
Definition make (n : Z) : list Z := replicate (Z.to_nat n) 0.

(** [a[k] = v] on a [Uint8Array]: the value is stored modulo 256 and an
    out-of-range write is dropped. *)
Definition set_u8 (a : list Z) (k v : Z) : list Z :=
  if k <? 0 then a else <[Z.to_nat k := v mod 256]> a.

Definition toInt16 (v : Z) : Z := (v + 32768) mod 65536 - 32768.

(** The same on an [Int16Array]. *)
Definition set_i16 (a : list Z) (k v : Z) : list Z :=
  if k <? 0 then a else <[Z.to_nat k := toInt16 v]> a.

(** [a[k] !== 0]; [undefined !== 0] holds. *)
Definition nonzero (a : list Z) (k : Z) : bool :=
  match get a k with
  | Some v => negb (v =? 0)
  | None => true
  end.

(** Truthiness of [a[k]], as in [if (seen[k])]; [undefined] is falsy. *)
Definition truthy (a : list Z) (k : Z) : bool :=
  match get a k with
  | Some v => negb (v =? 0)
  | None => false
  end.

End TA.

(** ** Numbers *)

(** An integer-valued JavaScript number seen as a binary64 float. *)
Definition Z2F (z : Z) : float :=
  if z <? 0 then (- PrimFloat.of_uint63 (Uint63.of_Z (- z)))%float
  else PrimFloat.of_uint63 (Uint63.of_Z z).

(** Truthiness of a number: neither zero nor NaN. *)
Definition truthyF (f : float) : bool :=
  negb (PrimFloat.eqb f 0) && PrimFloat.eqb f f.

(** ** Data *)

Definition vec : Type := Z * Z.

(** [{x, y, dir:[dx,dy]}] *)
Record player := mkPlayer { x : Z; y : Z; dir : vec }.

(** [winner]: ["You win!"], ["Computer wins"] or ["Draw"]; [null] is [None]. *)
Inductive banner := YouWin | ComputerWins | Draw.

Inductive arena_t := ArenaS | ArenaM | ArenaL.

Definition cols (a : arena_t) : Z :=
  match a with ArenaS => 28 | ArenaL => 48 | ArenaM => 36 end.

Definition rows (a : arena_t) : Z :=
  match a with ArenaS => 20 | ArenaL => 32 | ArenaM => 26 end.

(** ** Grid helpers: [idx], [inb], [isRev] *)

Definition idx (C : Z) (cx cy : Z) : Z := cy * C + cx.

Definition inb (C R : Z) (cx cy : Z) : bool :=
  (0 <=? cx) && (cx <? C) && (0 <=? cy) && (cy <? R).

Definition isRev (a b : vec) : bool :=
  (fst a =? - fst b) && (snd a =? - snd b).

(** ** floodScore *)

Module Flood.

(** The local variables of [floodScore]. *)
Record st := mk { qx : list Z; qy : list Z; seen : list Z;
                  qs : Z; qe : Z; count : Z }.

Section WithGrid.
Variables (sx sy : Z) (world : list Z) (C R : Z).

(** The closure [push]. *)
Definition push (cx cy : Z) (s : st) : st :=
  if (cx <? 0) || (C <=? cx) || (cy <? 0) || (R <=? cy) then s else
  let k := cy * C + cx in
  if TA.truthy (seen s) k then s else
  if TA.nonzero world k && negb ((cx =? sx) && (cy =? sy)) then s else
  {| qx := TA.set_i16 (qx s) (qe s) cx;
     qy := TA.set_i16 (qy s) (qe s) cy;
     seen := TA.set_u8 (seen s) k 1;
     qs := qs s; qe := qe s + 1; count := count s |}.

Definition LIMIT : Z := Z.min (C * R) 600.

Definition init : st :=
  let N := C * R in
  push sx sy {| qx := TA.make N; qy := TA.make N; seen := TA.make N;
                qs := 0; qe := 0; count := 0 |}.

(** The guard of the [while], for a limit [lim]. *)
Definition guard (lim : Z) (s : st) : bool :=
  (qs s <? qe s) && (count s <? lim).

(** [qx[qs]]; an out-of-range read gives [undefined], with which the
    four calls of [push] return at once, as they do with -1 here. *)
Definition rd (a : list Z) (k : Z) : Z :=
  match TA.get a k with Some v => v | None => -1 end.

(** One iteration of the [while] body. *)
Definition body (s : st) : st :=
  let cx := rd (qx s) (qs s) in
  let cy := rd (qy s) (qs s) in
  let s := {| qx := qx s; qy := qy s; seen := seen s;
              qs := qs s + 1; qe := qe s; count := count s + 1 |} in
  push cx (cy - 1) (push cx (cy + 1) (push (cx - 1) cy (push (cx + 1) cy s))).

(** The [while] loop, cut after [fuel] iterations. *)
Fixpoint iter (lim : Z) (fuel : nat) (s : st) : st :=
  match fuel with
  | O => s
  | S fuel' => if guard lim s then iter lim fuel' (body s) else s
  end.

(** The loop of [floodScore]: every iteration increments [count], so
    [LIMIT] iterations are enough for the guard to fail. *)
Definition run : st := iter LIMIT (Z.to_nat LIMIT) init.

(** The centre bias: [1/(1+d*0.2)] with [d] the Manhattan distance of
    the start cell from [(C/2, R/2)]. *)
Definition bias : float :=
  let cx := (Z2F C / 2)%float in
  let cy := (Z2F R / 2)%float in
  let d := (PrimFloat.abs (Z2F sx - cx) + PrimFloat.abs (Z2F sy - cy))%float in
  (1 / (1 + d * 0.2))%float.

Definition floodScore : float := (Z2F (count run) * bias)%float.

End WithGrid.

End Flood.

(** ** aiChoose *)

Section AI.
Variables (C R : Z) (world : list Z) (p2 : player).

(** The cell one step from [p2] along [d] is inside the grid and empty. *)
Definition open (d : vec) : bool :=
  let nx := x p2 + fst d in
  let ny := y p2 + snd d in
  inb C R nx ny && negb (TA.nonzero world (idx C nx ny)).

(** [straight, right, left] *)
Definition opts (cur : vec) : list vec :=
  [cur; (snd cur, - fst cur); (- snd cur, fst cur)].

(** [area * straight] of the loop body. *)
Definition score (cur d : vec) : float :=
  let nx := x p2 + fst d in
  let ny := y p2 + snd d in
  let area := Flood.floodScore nx ny world C R in
  let straight :=
    if (fst d =? fst cur) && (snd d =? snd cur) then 1.05%float else 1.0%float in
  (area * straight)%float.

(** One round of the [for (const d of opts)] loop on [(best, bestScore)]. *)
Definition consider (cur : vec) (acc : vec * float) (d : vec) : vec * float :=
  let nx := x p2 + fst d in
  let ny := y p2 + snd d in
  if negb (inb C R nx ny) then acc else
  if TA.nonzero world (idx C nx ny) then acc else
  let s := score cur d in
  if (snd acc <? s)%float then (d, s) else acc.

Definition dirs : list vec := [(1, 0); (-1, 0); (0, 1); (0, -1)].

(** The emergency loop with its [break]. *)
Fixpoint emergency (cur best : vec) (ds : list vec) : vec :=
  match ds with
  | [] => best
  | d :: ds' =>
      if isRev cur d then emergency cur best ds' else
      if open d then d else emergency cur best ds'
  end.

(** The heading [aiChoose] stores in [p2.dir]. *)
Definition aiHeading : vec :=
  let cur := dir p2 in
  let '(best, bestScore) :=
    fold_left (consider cur) (opts cur) (cur, neg_infinity) in
  if PrimFloat.eqb bestScore neg_infinity
  then emergency cur best dirs
  else best.

Definition aiChoose : player :=
  {| x := x p2; y := y p2; dir := aiHeading |}.

End AI.

(** ** The component state *)

(** The React state ([running], [winner], [arena], [speed]), the refs
    ([worldRef], [p1Ref], [p2Ref], [lastT], [accum], [activeRef]) and the
    three state values the installed [loop] closes over.  The effect that
    installs [loop] has the dependencies [[cols, rows]], so [loop] reads
    [running], [winner] and [speed] of the render in which the effect last
    ran; they are kept in [loop_running], [loop_winner], [loop_speed]. *)
Record tron := mkTron {
  running : bool;
  winner : option banner;
  arena : arena_t;
  speed : Z;
  world : list Z;
  p1 : player;
  p2 : player;
  lastT : float;
  accum : float;
  active : bool;
  loop_running : bool;
  loop_winner : option banner;
  loop_speed : Z
}.

Definition set_running (b : bool) (s : tron) : tron :=
  mkTron b (winner s) (arena s) (speed s) (world s) (p1 s) (p2 s)
         (lastT s) (accum s) (active s) (loop_running s) (loop_winner s) (loop_speed s).

Definition set_winner (w : option banner) (s : tron) : tron :=
  mkTron (running s) w (arena s) (speed s) (world s) (p1 s) (p2 s)
         (lastT s) (accum s) (active s) (loop_running s) (loop_winner s) (loop_speed s).

Definition set_speed (n : Z) (s : tron) : tron :=
  mkTron (running s) (winner s) (arena s) n (world s) (p1 s) (p2 s)
         (lastT s) (accum s) (active s) (loop_running s) (loop_winner s) (loop_speed s).

Definition set_world (w : list Z) (s : tron) : tron :=
  mkTron (running s) (winner s) (arena s) (speed s) w (p1 s) (p2 s)
         (lastT s) (accum s) (active s) (loop_running s) (loop_winner s) (loop_speed s).

Definition set_p1 (p : player) (s : tron) : tron :=
  mkTron (running s) (winner s) (arena s) (speed s) (world s) p (p2 s)
         (lastT s) (accum s) (active s) (loop_running s) (loop_winner s) (loop_speed s).

Definition set_p2 (p : player) (s : tron) : tron :=
  mkTron (running s) (winner s) (arena s) (speed s) (world s) (p1 s) p
         (lastT s) (accum s) (active s) (loop_running s) (loop_winner s) (loop_speed s).

Definition set_lastT (t : float) (s : tron) : tron :=
  mkTron (running s) (winner s) (arena s) (speed s) (world s) (p1 s) (p2 s)
         t (accum s) (active s) (loop_running s) (loop_winner s) (loop_speed s).

Definition set_accum (a : float) (s : tron) : tron :=
  mkTron (running s) (winner s) (arena s) (speed s) (world s) (p1 s) (p2 s)
         (lastT s) a (active s) (loop_running s) (loop_winner s) (loop_speed s).

Definition set_active (b : bool) (s : tron) : tron :=
  mkTron (running s) (winner s) (arena s) (speed s) (world s) (p1 s) (p2 s)
         (lastT s) (accum s) b (loop_running s) (loop_winner s) (loop_speed s).

(** ** stepOnce *)

(** [pl.x = n.x; pl.y = n.y] *)
Definition moved (pl : player) (nx ny : Z) : player :=
  {| x := nx; y := ny; dir := dir pl |}.

Definition stepOnce (s : tron) : tron :=
  let C := cols (arena s) in
  let R := rows (arena s) in
  (* aiChoose() *)
  let s := set_p2 (aiChoose C R (world s) (p2 s)) s in
  let n1x := x (p1 s) + fst (dir (p1 s)) in
  let n1y := y (p1 s) + snd (dir (p1 s)) in
  let n2x := x (p2 s) + fst (dir (p2 s)) in
  let n2y := y (p2 s) + snd (dir (p2 s)) in
  let c1 := negb (inb C R n1x n1y) || TA.nonzero (world s) (idx C n1x n1y) in
  let c2 := negb (inb C R n2x n2y) || TA.nonzero (world s) (idx C n2x n2y) in
  let head_on := negb c1 && negb c2 && (n1x =? n2x) && (n1y =? n2y) in
  let c1 := if head_on then true else c1 in
  let c2 := if head_on then true else c2 in
  if c1 || c2 then
    set_winner
      (Some (if c1 && c2 then Draw else if c2 then YouWin else ComputerWins))
      (set_running false s)
  else
    (* commit *)
    let s := set_p1 (moved (p1 s) n1x n1y) s in
    let s := set_world (TA.set_u8 (world s) (idx C (x (p1 s)) (y (p1 s))) 1) s in
    let s := set_p2 (moved (p2 s) n2x n2y) s in
    set_world (TA.set_u8 (world s) (idx C (x (p2 s)) (y (p2 s))) 2) s.

(** ** Building the arena: the effect on [[cols, rows]] and [reset] *)

(** [(rows/2)|0] *)
Definition mid (R : Z) : Z := Z.quot R 2.

Definition start1 (a : arena_t) : player :=
  {| x := 2; y := mid (rows a); dir := (1, 0) |}.

Definition start2 (a : arena_t) : player :=
  {| x := cols a - 3; y := mid (rows a); dir := (-1, 0) |}.

(** The fresh grid with both start cells marked. *)
Definition start_world (a : arena_t) : list Z :=
  let C := cols a in
  let w := TA.make (C * rows a) in
  let w := TA.set_u8 w (idx C (x (start1 a)) (y (start1 a))) 1 in
  TA.set_u8 w (idx C (x (start2 a)) (y (start2 a))) 2.

Definition reset (s : tron) : tron :=
  mkTron false None (arena s) (speed s)
         (start_world (arena s)) (start1 (arena s)) (start2 (arena s))
         0%float 0%float (active s)
         (loop_running s) (loop_winner s) (loop_speed s).

(** The effect body for arena [a], run in a render whose state is that of
    [s]: new grid and players, clock cleared, and [loop] installed with the
    [running], [winner] and [speed] of that render. *)
Definition build (a : arena_t) (s : tron) : tron :=
  mkTron (running s) (winner s) a (speed s)
         (start_world a) (start1 a) (start2 a)
         0%float 0%float (active s)
         (running s) (winner s) (speed s).

(** The component after its first render and effect:
    [running = false], [winner = null], [arena = "M"], [speed = 8]. *)
Definition mount : tron :=
  build ArenaM
    (mkTron false None ArenaM 8 [] (mkPlayer 0 0 (0, 0)) (mkPlayer 0 0 (0, 0))
            0%float 0%float false false None 8).

(** ** Input *)

Inductive key := ArrowUp | ArrowDown | ArrowLeft | ArrowRight | Space | Enter | OtherKey.

(** [if (!isRev(p1.dir, d)) p1.dir = d] *)
Definition steer (d : vec) (s : tron) : tron :=
  if negb (isRev (dir (p1 s)) d)
  then set_p1 {| x := x (p1 s); y := y (p1 s); dir := d |} s
  else s.

Definition onKey (k : key) (s : tron) : tron :=
  if negb (active s) then s else
  match k with
  | ArrowUp => steer (0, -1) s
  | ArrowDown => steer (0, 1) s
  | ArrowLeft => steer (-1, 0) s
  | ArrowRight => steer (1, 0) s
  | Space => set_running (negb (running s)) s
  | Enter => reset s
  | OtherKey => s
  end.

(** The Start/Pause button: [setWinner(null); setRunning(r => !r)]. *)
Definition clickStartPause (s : tron) : tron :=
  set_running (negb (running s)) (set_winner None s).

(** The arena selector; the effect re-runs when [cols], [rows] change, and
    the three presets differ in both. *)
Definition arena_eqb (a b : arena_t) : bool :=
  match a, b with
  | ArenaS, ArenaS | ArenaM, ArenaM | ArenaL, ArenaL => true
  | _, _ => false
  end.

Definition setArena (a : arena_t) (s : tron) : tron :=
  if arena_eqb a (arena s) then s else build a s.

(** ** The frame loop *)

Definition lerp (a b t : float) : float := (a + (b - a) * t)%float.

(** [lerp(0.24, 0.06, (speed-1)/11)] *)
Definition stepTime (sp : Z) : float :=
  lerp 0.24 0.06 (Z2F (sp - 1) / 11)%float.

(** [while (accum.current >= stepTime) { accum.current -= stepTime; stepOnce(); }]
    [None]: the loop is still running when the fuel is spent. *)
Fixpoint drain (fuel : nat) (st : float) (s : tron) : option tron :=
  if (st <=? accum s)%float then
    match fuel with
    | O => None
    | S fuel' => drain fuel' st (stepOnce (set_accum (accum s - st)%float s))
    end
  else Some s.

(** One call of [loop(t)], drawing left out. *)
Definition loop (fuel : nat) (t : float) (s : tron) : option tron :=
  let now := (t * 0.001)%float in
  let dt := if truthyF (lastT s) then (now - lastT s)%float else 0%float in
  let s := set_lastT now s in
  let st := stepTime (loop_speed s) in
  if loop_running s && negb (bool_decide (is_Some (loop_winner s))) then
    drain fuel st (set_accum (accum s + dt)%float s)
  else Some s.

(** ** Events *)

Inductive event :=
| KeyDown (k : key)
| ClickStartPause
| ClickReset
| SelectArena (a : arena_t)
| SlideSpeed (n : Z)
| PointerEnter
| PointerLeave
| PointerDown
| Frame (fuel : nat) (t : float).

(** The state after an event; [None] when the event cannot occur (a slider
    value outside 1..12) or the frame needs more fuel. *)
Definition handle (e : event) (s : tron) : option tron :=
  match e with
  | KeyDown k => Some (onKey k s)
  | ClickStartPause => Some (clickStartPause s)
  | ClickReset => Some (reset s)
  | SelectArena a => Some (setArena a s)
  | SlideSpeed n => if (1 <=? n) && (n <=? 12) then Some (set_speed n s) else None
  | PointerEnter | PointerDown => Some (set_active true s)
  | PointerLeave => Some (set_active false s)
  | Frame fuel t => loop fuel t s
  end.

(** States the component can be in. *)
Inductive reachable : tron -> Prop :=
| reach_mount : reachable mount
| reach_event e s s' : reachable s -> handle e s = Some s' -> reachable s'.

(** A run of events. *)
Fixpoint play (es : list event) (s : tron) : option tron :=
  match es with
  | [] => Some s
  | e :: es' => match handle e s with Some s' => play es' s' | None => None end
  end.

(** ** Vocabulary for the properties of a step *)

(** The human's candidate cell: position plus heading. *)
Definition next1 (s : tron) : vec :=
  (x (p1 s) + fst (dir (p1 s)), y (p1 s) + snd (dir (p1 s))).

(** The computer's candidate cell: position plus the heading [aiChoose]
    picks at the start of the step. *)
Definition next2 (s : tron) : vec :=
  let h := aiHeading (cols (arena s)) (rows (arena s)) (world s) (p2 s) in
  (x (p2 s) + fst h, y (p2 s) + snd h).

Definition in_grid (a : arena_t) (c : vec) : Prop :=
  0 <= fst c < cols a /\ 0 <= snd c < rows a.

(** The grid entry of a cell. *)
Definition cell (s : tron) (c : vec) : option Z :=
  TA.get (world s) (idx (cols (arena s)) (fst c) (snd c)).

(** Empty: 0; a trail of the human: 1; of the computer: 2. *)
Definition occupied (s : tron) (c : vec) : Prop :=
  cell s c = Some 1 \/ cell s c = Some 2.

Definition collides (s : tron) (c : vec) : Prop :=
  ~ in_grid (arena s) c \/ occupied s c.

(** Both moves are committed: heads on the candidate cells, which are
    marked with their owners. *)
Definition committed (s s' : tron) : Prop :=
  (x (p1 s'), y (p1 s')) = next1 s /\ (x (p2 s'), y (p2 s')) = next2 s /\
  cell s' (next1 s) = Some 1 /\ cell s' (next2 s) = Some 2.

(** The grid has [cols*rows] entries, each 0, 1 or 2. *)
Definition wf_world (s : tron) : bool :=
  (Z.of_nat (length (world s)) =? cols (arena s) * rows (arena s)) &&
  forallb (fun v => (v =? 0) || (v =? 1) || (v =? 2)) (world s).

(** One of the four unit vectors. *)
Definition cardinal (d : vec) : Prop :=
  d = (1, 0) \/ d = (-1, 0) \/ d = (0, 1) \/ d = (0, -1).

(** The state in which the moves of a step are decided: [s] with the
    computer's heading chosen. *)
Definition aimed (s : tron) : tron :=
  set_p2 (aiChoose (cols (arena s)) (rows (arena s)) (world s) (p2 s)) s.

(** [!inb(n.x,n.y) || world[idx(n.x,n.y)] !== 0] *)
Definition blocked (s : tron) (c : vec) : bool :=
  negb (inb (cols (arena s)) (rows (arena s)) (fst c) (snd c))
  || TA.nonzero (world s) (idx (cols (arena s)) (fst c) (snd c)).

Definition vec_eqb (a b : vec) : bool := (fst a =? fst b) && (snd a =? snd b).

(** Events that rebuild the grid: Reset, Enter, and a change of arena. *)
Definition rebuilds (e : event) : bool :=
  match e with
  | ClickReset | KeyDown Enter | SelectArena _ => true
  | _ => false
  end.

(** Events after which, from a state with an outcome, no step has run and
    the outcome stands: every event but a rebuild and the Start/Pause
    button, a frame only when its [loop] reads [running] as false or
    [winner] as set. *)
Definition holds_outcome (e : event) (s : tron) : bool :=
  match e with
  | ClickStartPause => false
  | Frame _ _ => negb (loop_running s) || bool_decide (is_Some (loop_winner s))
  | _ => negb (rebuilds e)
  end.

Definition pos (p : player) : vec := (x p, y p).

(** The heading an arrow key asks for. *)
Definition arrow (k : key) : option vec :=
  match k with
  | ArrowUp => Some (0, -1)
  | ArrowDown => Some (0, 1)
  | ArrowLeft => Some (-1, 0)
  | ArrowRight => Some (1, 0)
  | _ => None
  end.

(** [later s s']: [s'] comes after [s] in the same match, by steps and by
    events that do not rebuild the grid. *)
Inductive later (s : tron) : tron -> Prop :=
| later_now : later s s
| later_step s' : later s s' -> later s (stepOnce s')
| later_event e s' s'' :
    later s s' -> rebuilds e = false -> handle e s' = Some s'' -> later s s''.

(** A short game in the small arena: the human turns up and at once left,
    runs into the left border on the third step, and the computer wins. *)
Definition wreck_trace : list event :=
  [PointerEnter; ClickStartPause; SelectArena ArenaS;
   KeyDown ArrowUp; KeyDown ArrowLeft; Frame 0 16; Frame 3 416].

Definition wreck :=
  Eval vm_compute in
    match play wreck_trace mount with Some s => s | None => mount end.

(** [paint C v cells w]: [w] with the given cells set to [v]. *)
Definition paint (C v : Z) (cells : list vec) (w : list Z) : list Z :=
  fold_left (fun w c => TA.set_u8 w (idx C (fst c) (snd c)) v) cells w.

(** A position of the small arena in which both players are about to
    enter the cell (2,0): the human from below, the computer from the
    right, its other two ways being the border and its own trail. *)
Definition head_on : tron :=
  mkTron true None ArenaS 8
    (paint 28 2 [(4, 0); (4, 1); (3, 1); (3, 0)]
       (paint 28 1 [(1, 0); (1, 1); (2, 1)] (TA.make 560)))
    (mkPlayer 2 1 (0, -1)) (mkPlayer 3 0 (0, -1))
    0%float 0%float true true None 8.

(** The game in the small arena in which the human never steers: after
    eleven steps the two heads face each other on neighbouring cells. *)
Definition facing_trace : list event :=
  [ClickStartPause; SelectArena ArenaS; Frame 0 16; Frame 11 1416].

Definition facing :=
  Eval vm_compute in
    match play facing_trace mount with Some s => s | None => mount end.

(** The state after the twelfth step. *)
Definition facing_after := Eval vm_compute in stepOnce facing.

(** The outcome table of a step, read with "collides" as "outside the
    grid or occupied" in all four rows. *)
Definition outcome_table (s : tron) : Prop :=
  let s' := stepOnce s in
  (collides s (next1 s) /\ collides s (next2 s) -> winner s' = Some Draw) /\
  (~ collides s (next1 s) /\ collides s (next2 s) -> winner s' = Some YouWin) /\
  (collides s (next1 s) /\ ~ collides s (next2 s) -> winner s' = Some ComputerWins) /\
  (~ collides s (next1 s) /\ ~ collides s (next2 s) ->
   winner s' = None /\ committed s s').

(** Both heads are on the grid. *)
Definition heads_in_grid (s : tron) : Prop :=
  in_grid (arena s) (pos (p1 s)) /\ in_grid (arena s) (pos (p2 s)).

(** Every nonzero entry of [w] is still there in [w']. *)
Definition keeps (w w' : list Z) : Prop :=
  forall k v, TA.get w k = Some v -> v <> 0 -> TA.get w' k = Some v.

Definition headings_ok (s : tron) : Prop :=
  cardinal (dir (p1 s)) /\ cardinal (dir (p2 s)).

(** The coordinates of the two heads add up to an odd number, and both
    headings are unit vectors. *)
Definition apart (s : tron) : Prop :=
  (exists k, x (p1 s) + y (p1 s) + x (p2 s) + y (p2 s) = 2 * k + 1) /\ headings_ok s.

(** The step from [s] is committed: no collision. *)
Definition commits (s : tron) : bool :=
  negb (blocked s (next1 s) || blocked s (next2 s) || vec_eqb (next1 s) (next2 s)).

(** The cell under the human's head holds a trail. *)
Definition marked (s : tron) : Prop :=
  exists v, cell s (pos (p1 s)) = Some v /\ v <> 0.

(** Key presses, one after the other. *)
Definition press (ks : list key) (s : tron) : tron :=
  fold_left (fun s k => onKey k s) ks s.

(** A step changes the running flag and the outcome and nothing else. *)
Definition only_flags_change (s : tron) : Prop :=
  stepOnce s = set_winner (winner (stepOnce s)) (set_running false s).

(** The Start/Pause button flips the running flag and changes nothing else. *)
Definition toggle_only_flips (s : tron) : Prop :=
  clickStartPause s = set_running (negb (running s)) s.

(** Once an outcome is set, nothing but a rebuild changes the grid, the
    positions or the outcome. *)
Definition terminal_until_reset : Prop :=
  forall s e s',
    reachable s -> winner s <> None -> rebuilds e = false -> handle e s = Some s' ->
    world s' = world s /\ pos (p1 s') = pos (p1 s) /\ pos (p2 s') = pos (p2 s) /\
    winner s' = winner s.

(** The emergency scan in words: the first of the four directions that is
    not the reverse of the current heading and leads to a free cell of the
    grid; the current heading if there is none. *)
Definition emergency_pick (C R : Z) (w : list Z) (p : player) : vec :=
  match find (fun d => negb (isRev (dir p) d) && open C R w p d) dirs with
  | Some d => d
  | None => dir p
  end.

(** ** Vocabulary for the flood fill *)

(** A cell of the grid that is empty. *)
Definition free (C R : Z) (w : list Z) (c : vec) : Prop :=
  (0 <= fst c < C /\ 0 <= snd c < R) /\ TA.get w (idx C (fst c) (snd c)) = Some 0.

(** 4-neighbours. *)
Definition adjacent (a b : vec) : Prop :=
  b = (fst a + 1, snd a) \/ b = (fst a - 1, snd a) \/
  b = (fst a, snd a + 1) \/ b = (fst a, snd a - 1).

(** The free cells connected to [start] through free cells. *)
Inductive reach (C R : Z) (w : list Z) (start : vec) : vec -> Prop :=
| reach_start : free C R w start -> reach C R w start start
| reach_next a b :
    reach C R w start a -> adjacent a b -> free C R w b -> reach C R w start b.

(** [n] cells can be reached from [start]. *)
Definition area (C R : Z) (w : list Z) (start : vec) (n : Z) : Prop :=
  exists cells : list vec,
    NoDup cells /\ (forall c, c ∈ cells <-> reach C R w start c) /\
    n = Z.of_nat (length cells).

Definition freeb (C R : Z) (w : list Z) (c : vec) : bool :=
  inb C R (fst c) (snd c) && negb (TA.nonzero w (idx C (fst c) (snd c))).

(** The cells written to [qx], [qy] so far, in order. *)
Definition queue (s : Flood.st) : list vec :=
  (fun i : nat => (Flood.rd (Flood.qx s) (Z.of_nat i), Flood.rd (Flood.qy s) (Z.of_nat i)))
    <$> seq 0 (Z.to_nat (Flood.qe s)).

(** The last branch of [push]. *)
Definition enq (C : Z) (c : vec) (s : Flood.st) : Flood.st :=
  {| Flood.qx := TA.set_i16 (Flood.qx s) (Flood.qe s) (fst c);
     Flood.qy := TA.set_i16 (Flood.qy s) (Flood.qe s) (snd c);
     Flood.seen := TA.set_u8 (Flood.seen s) (idx C (fst c) (snd c)) 1;
     Flood.qs := Flood.qs s; Flood.qe := Flood.qe s + 1; Flood.count := Flood.count s |}.

(** [push] takes the cell: free and not seen. *)
Definition accepts (C R : Z) (w : list Z) (s : Flood.st) (c : vec) : bool :=
  freeb C R w c && negb (TA.truthy (Flood.seen s) (idx C (fst c) (snd c))).

(** The state before the first [push]. *)
Definition blank (C R : Z) : Flood.st :=
  {| Flood.qx := TA.make (C * R); Flood.qy := TA.make (C * R);
     Flood.seen := TA.make (C * R);
     Flood.qs := 0; Flood.qe := 0; Flood.count := 0 |}.

(** [qs++; count++] *)
Definition taken (s : Flood.st) : Flood.st :=
  {| Flood.qx := Flood.qx s; Flood.qy := Flood.qy s; Flood.seen := Flood.seen s;
     Flood.qs := Flood.qs s + 1; Flood.qe := Flood.qe s; Flood.count := Flood.count s + 1 |}.

(** The arrays and the queue agree: the queue has distinct free cells,
    and [seen] marks exactly them. *)
Record core (C R : Z) (w : list Z) (s : Flood.st) : Prop := {
  c_lenx : Z.of_nat (length (Flood.qx s)) = C * R;
  c_leny : Z.of_nat (length (Flood.qy s)) = C * R;
  c_lens : Z.of_nat (length (Flood.seen s)) = C * R;
  c_qe : 0 <= Flood.qe s;
  c_free : forall c, c ∈ queue s -> freeb C R w c = true;
  c_nodup : NoDup (queue s);
  c_seen : forall c, inb C R (fst c) (snd c) = true ->
             (TA.truthy (Flood.seen s) (idx C (fst c) (snd c)) = true <-> c ∈ queue s)
}.

(** The queue holds cells reached from the start, the start among them,
    and with every cell already taken out its free neighbours. *)
Record inv (C R : Z) (w : list Z) (start : vec) (s : Flood.st) : Prop := {
  i_core : core C R w s;
  i_qs : 0 <= Flood.qs s <= Flood.qe s;
  i_count : Flood.count s = Flood.qs s;
  i_reach : forall c, c ∈ queue s -> reach C R w start c;
  i_closed : forall i c b,
    (i < Z.to_nat (Flood.qs s))%nat -> queue s !! i = Some c ->
    adjacent c b -> freeb C R w b = true -> b ∈ queue s;
  i_start : start ∈ queue s
}.

Arguments c_lenx {C R w s} _.
Arguments c_leny {C R w s} _.
Arguments c_lens {C R w s} _.
Arguments c_qe {C R w s} _.
Arguments c_free {C R w s} _ c _.
Arguments c_nodup {C R w s} _.
Arguments c_seen {C R w s} _ c _.
Arguments i_core {C R w start s} _.
Arguments i_qs {C R w start s} _.
Arguments i_count {C R w start s} _.
Arguments i_reach {C R w start s} _ c _.
Arguments i_closed {C R w start s} _ i c b _ _ _ _.
Arguments i_start {C R w start s} _.

(** ** Vocabulary for the scores *)

(** The Manhattan distance of a cell from the centre [(cols/2, rows/2)]. *)
Definition mdist (a : arena_t) (c : vec) : Z :=
  Z.abs (fst c - cols a / 2) + Z.abs (snd c - rows a / 2).

(** [1/(1+d*0.2)] for a distance [d] that is a whole number. *)
Definition bias_of (m : Z) : float := (1 / (1 + Z2F m * 0.2))%float.

(** [0, 1, ..., n-1] *)
Definition range (n : Z) : list Z := map Z.of_nat (seq 0 (Z.to_nat n)).

(** On the cell [(cx, cy)] the bias [floodScore] computes is [bias_of] of
    the cell's distance from the centre. *)
Definition bias_row (a : arena_t) (cx cy : Z) : bool :=
  PrimFloat.Leibniz.eqb (Flood.bias cx cy (cols a) (rows a)) (bias_of (mdist a (cx, cy))).

Definition bias_col (a : arena_t) (cx : Z) : bool :=
  forallb (bias_row a cx) (range (rows a)).

(** A number above [-Infinity] that is not NaN. *)
Definition proper (f : float) : bool := (neg_infinity <? f)%float && (f =? f)%float.

(** The scores of [n+1] cells at the distance [m], with and without the
    bonus, are proper. *)
Definition score_row (m n : Z) : bool :=
  proper (Z2F (n + 1) * bias_of m * 1.05)%float &&
  proper (Z2F (n + 1) * bias_of m * 1.0)%float.

Definition score_col (m : Z) : bool := forallb (score_row m) (range 600).

(** The state [(best, bestScore)] of the candidate loop after the
    candidates [seen]: none of them was open, *)
Definition none_yet (C R : Z) (w : list Z) (p : player)
    (seen : list vec) (acc : vec * float) : Prop :=
  snd acc = neg_infinity /\ forall d, In d seen -> open C R w p d = false.

(** or [best] is an open one of them, [bestScore] is its score, and no
    open one of them has a higher score. *)
Definition leads (C R : Z) (w : list Z) (p : player)
    (seen : list vec) (acc : vec * float) : Prop :=
  In (fst acc) seen /\ open C R w p (fst acc) = true /\
  snd acc = score C R w p (dir p) (fst acc) /\
  forall d, In d seen -> open C R w p d = true ->
    (snd acc <? score C R w p (dir p) d)%float = false.

(** The cell one step from [p] along [d]. *)
Definition target (p : player) (d : vec) : vec := (x p + fst d, y p + snd d).

(** ** Vocabulary for the length of a match and for the frame clock *)

(** The number of trail cells of a grid. *)
Definition trail (w : list Z) : Z :=
  Z.of_nat (length (List.filter (fun v => negb (v =? 0)) w)).

(** The committed steps among the steps that [drain] makes. *)
Fixpoint drain_moves (fuel : nat) (st : float) (s : tron) : nat :=
  if (st <=? accum s)%float then
    match fuel with
    | O => O
    | S fuel' =>
        let s1 := set_accum (accum s - st)%float s in
        ((if commits s1 then 1 else 0) + drain_moves fuel' st (stepOnce s1))%nat
    end
  else O.

(** The committed steps that one call of [loop] makes. *)
Definition loop_moves (fuel : nat) (t : float) (s : tron) : nat :=
  let now := (t * 0.001)%float in
  let dt := if truthyF (lastT s) then (now - lastT s)%float else 0%float in
  let s := set_lastT now s in
  let st := stepTime (loop_speed s) in
  if loop_running s && negb (bool_decide (is_Some (loop_winner s))) then
    drain_moves fuel st (set_accum (accum s + dt)%float s)
  else O.

(** The committed steps of an event: only a frame makes steps. *)
Definition moves_of (e : event) (s : tron) : nat :=
  match e with Frame fuel t => loop_moves fuel t s | _ => O end.

(** The committed steps of a run of events. *)
Fixpoint moves (es : list event) (s : tron) : nat :=
  match es with
  | [] => O
  | e :: es' =>
      match handle e s with
      | Some s' => (moves_of e s + moves es' s')%nat
      | None => O
      end
  end.

(** The start of a match in the small arena with the frame loop running:
    the human on (2,10) heading right, the cell (1,10) behind it free. *)
Definition kickoff_trace : list event :=
  [PointerEnter; ClickStartPause; SelectArena ArenaS].

Definition kickoff :=
  Eval vm_compute in
    match play kickoff_trace mount with Some s => s | None => mount end.

(** [kickoff] after the keys Up and Left and the step that follows. *)
Definition kickoff_turned :=
  Eval vm_compute in stepOnce (press [ArrowUp; ArrowLeft] kickoff).

(** A change of the arena selector. *)
Definition selects (e : event) : bool :=
  match e with SelectArena _ => true | _ => false end.

(** The board as the effect and [reset] lay it out, with no outcome. *)
Definition untouched (s : tron) : Prop :=
  world s = start_world (arena s) /\ pos (p1 s) = pos (start1 (arena s)) /\
  p2 s = start2 (arena s) /\ winner s = None.

(** All three candidates of the computer are closed. *)
Definition boxed_in (C R : Z) (w : list Z) (p : player) : Prop :=
  forall d, In d (opts (dir p)) -> open C R w p d = false.

(** For the slider positions [a < b]: the step at [b] is shorter, and the
    step at [a] lies between 0.06 s and 0.24 s. *)
Definition pace_row (a b : Z) : bool :=
  ((0.06 <=? stepTime (a + 1)) && (stepTime (a + 1) <=? 0.24))%float &&
  (negb (a <? b) || (stepTime (b + 1) <? stepTime (a + 1))%float).

Definition pace_col (a : Z) : bool := forallb (pace_row a) (range 12).

(** * The desktop (MatrixOS in App.jsx): windows and their stacking *)

Module OS.

(** An entry of the [windows] state: [{ id, minimized, z }]. *)
Record win := mkWin { id : String.string; minimized : bool; z : Z }.

(** The state [zTop] and [windows] of [MatrixOS]; the menu, mixer and
    power flags do not touch them and are left out. *)
Record desk := mkDesk { zTop : Z; windows : list win }.

(** [n + 1] on a JavaScript number that holds a whole number: exact below
    2^53, where the sum is rounded back to [n].  The counter starts at 10
    and only ever grows through this, so it never exceeds 2^53. *)
Definition inc (n : Z) : Z := if n <? 2 ^ 53 then n + 1 else n.

(** [w.id === id] *)
Definition has_id (i : String.string) (w : win) : bool := String.eqb (id w) i.

Definition openApp (i : String.string) (d : desk) : desk :=
  let top := inc (zTop d) in
  {| zTop := top;
     windows :=
       match find (has_id i) (windows d) with
       | Some _ =>
           map (fun w => if has_id i w then mkWin (id w) false top else w) (windows d)
       | None => windows d ++ [mkWin i false top]
       end |}.

Definition closeApp (i : String.string) (d : desk) : desk :=
  {| zTop := zTop d;
     windows := List.filter (fun x => negb (has_id i x)) (windows d) |}.

Definition minimizeApp (i : String.string) (d : desk) : desk :=
  {| zTop := zTop d;
     windows := map (fun x => if has_id i x then mkWin (id x) true (z x) else x) (windows d) |}.

Definition focusApp (i : String.string) (d : desk) : desk :=
  let top := inc (zTop d) in
  {| zTop := top;
     windows :=
       map (fun x => if has_id i x then mkWin (id x) (minimized x) top else x) (windows d) |}.

(** The click on a task-bar button: [minimized: !x.minimized]. *)
Definition toggleTask (i : String.string) (d : desk) : desk :=
  {| zTop := zTop d;
     windows :=
       map (fun x => if has_id i x then mkWin (id x) (negb (minimized x)) (z x) else x)
         (windows d) |}.

(** [useState(10)], [useState([])] *)
Definition boot : desk := {| zTop := 10; windows := [] |}.

Inductive event :=
| Open (i : String.string)
| Close (i : String.string)
| Minimize (i : String.string)
| Focus (i : String.string)
| Task (i : String.string).

Definition handle (e : event) (d : desk) : desk :=
  match e with
  | Open i => openApp i d
  | Close i => closeApp i d
  | Minimize i => minimizeApp i d
  | Focus i => focusApp i d
  | Task i => toggleTask i d
  end.

(** The desks that a run of events leads to. *)
Inductive reachable : desk -> Prop :=
| reach_boot : reachable boot
| reach_event e d : reachable d -> reachable (handle e d).

(** The app has a window. *)
Definition isOpen (i : String.string) (d : desk) : bool := existsb (has_id i) (windows d).

(** [w] is a window of [i] that lies above every window of another app. *)
Definition in_front (i : String.string) (w : win) (d : desk) : Prop :=
  w ∈ windows d /\ id w = i /\ z w = zTop d /\
  forall w', w' ∈ windows d -> id w' <> i -> z w' < z w.

(** The stacking invariant: the counter is a whole number from 10 to
    2^53, every window lies at or below it, and below 2^53 no two windows
    share a z-index. *)
Definition stacked (d : desk) : Prop :=
  10 <= zTop d <= 2 ^ 53 /\
  Forall (fun w => 10 < z w <= zTop d) (windows d) /\
  (zTop d < 2 ^ 53 -> NoDup (map z (windows d))).

End OS.

(** * Mines (MinesApp in App.jsx) *)

Module Mines.

Inductive level_t := Beginner | Intermediate | Expert.

(** [{ w, h, m }] *)
Record dims := mkDims { w : Z; h : Z; m : Z }.

Definition presets (l : level_t) : dims :=
  match l with
  | Beginner => mkDims 9 9 10
  | Intermediate => mkDims 16 16 40
  | Expert => mkDims 30 16 99
  end.

(** A cell of the board: revealed, flagged, mined, and the number of
    mined neighbours. *)
Record cell := mkCell { r : bool; f : bool; mine : bool; adj : Z }.

(** [{ r: false, f: false, mine: false, adj: 0 }] *)
Definition blank : cell := mkCell false false false 0.

(** The state of the component; the clock ([startAt], [elapsed]) is left
    out, nothing else reads it. *)
Record game := mkGame {
  level : level_t;
  dim : dims;
  board : list cell;
  placed : bool;
  flags : Z;
  lost : bool;
  won : bool
}.

Definition set_level (l : level_t) (g : game) : game :=
  mkGame l (dim g) (board g) (placed g) (flags g) (lost g) (won g).

Definition set_dims (d : dims) (g : game) : game :=
  mkGame (level g) d (board g) (placed g) (flags g) (lost g) (won g).

Definition set_board (b : list cell) (g : game) : game :=
  mkGame (level g) (dim g) b (placed g) (flags g) (lost g) (won g).

Definition set_placed (p : bool) (g : game) : game :=
  mkGame (level g) (dim g) (board g) p (flags g) (lost g) (won g).

Definition set_flags (n : Z) (g : game) : game :=
  mkGame (level g) (dim g) (board g) (placed g) n (lost g) (won g).

Definition set_lost (l : bool) (g : game) : game :=
  mkGame (level g) (dim g) (board g) (placed g) (flags g) l (won g).

Definition set_won (v : bool) (g : game) : game :=
  mkGame (level g) (dim g) (board g) (placed g) (flags g) (lost g) v.

(** [b[i]]: [None] is the [undefined] of an index outside the array;
    reading a field of it throws. *)
Definition at_ (b : list cell) (i : Z) : option cell :=
  if i <? 0 then None else b !! Z.to_nat i.

(** [c.r = true] and [{ ...c, r: true }] *)
Definition reveal (c : cell) : cell := mkCell true (f c) (mine c) (adj c).

(** ** [idx], [inb], [nbors] *)

Section Grid.
Variables (W H : Z).

Definition idx (cx cy : Z) : Z := cy * W + cx.

Definition inb (cx cy : Z) : bool :=
  (0 <=? cx) && (cx <? W) && (0 <=? cy) && (cy <? H).

(** The two nested loops over [dy] and [dx] from -1 to 1. *)
Definition nbors (i : Z) : list Z :=
  let cx := Z.rem i W in
  let cy := i / W in
  flat_map (fun dy =>
    flat_map (fun dx =>
      if negb (dx =? 0) || negb (dy =? 0) then
        let nx := cx + dx in
        let ny := cy + dy in
        if inb nx ny then [idx nx ny] else []
      else [])
      [-1; 0; 1])
    [-1; 0; 1].

(** ** [placeMines] *)

(** [nbors(i).reduce((a, j) => a + (next[j].mine ? 1 : 0), 0)] *)
Definition adjAt (next : list cell) (i : Z) : option Z :=
  fold_left
    (fun a j =>
       match a, at_ next j with
       | Some n, Some c => Some (n + (if mine c then 1 else 0))
       | _, _ => None
       end)
    (nbors i) (Some 0).

(** The second loop of [placeMines], cell by cell; it reads [mine] only,
    which it does not write. *)
Fixpoint setAdj (next : list cell) (k : nat) (cs : list cell) : option (list cell) :=
  match cs with
  | [] => Some []
  | c :: cs' =>
      match adjAt next (Z.of_nat k), setAdj next (S k) cs' with
      | Some n, Some out => Some (mkCell (r c) (f c) (mine c) n :: out)
      | _, _ => None
      end
  end.

End Grid.

(** The [while (mines.size < m)] loop.  [rs] are the numbers
    [Math.floor(Math.random() * w * h)] in the order they are drawn;
    [None]: the loop wants another one. *)
Fixpoint draw (M safe : Z) (rs : list Z) (mines : list Z) : option (list Z) :=
  if Z.of_nat (length mines) <? M then
    match rs with
    | [] => None
    | r0 :: rs' =>
        draw M safe rs'
          (if negb (r0 =? safe) && negb (existsb (Z.eqb r0) mines)
           then mines ++ [r0] else mines)
    end
  else Some mines.

(** [board.map((c, i) => ({ ...c, mine: mines.has(i) }))] *)
Definition lay (mines : list Z) (b : list cell) : list cell :=
  imap (fun i c => mkCell (r c) (f c) (existsb (Z.eqb (Z.of_nat i)) mines) (adj c)) b.

Definition placeMines (rs : list Z) (safeIndex : Z) (g : game) : option game :=
  match draw (m (dim g)) safeIndex rs [] with
  | None => None
  | Some mines =>
      let next := lay mines (board g) in
      match setAdj (w (dim g)) (h (dim g)) next 0 next with
      | None => None
      | Some next => Some (set_placed true (set_board next g))
      end
  end.

(** ** [flood] *)

(** [for (const j of nbors(i)) if (!next[j].r && !next[j].f) stack.push(j)];
    the head of the list is the top of the stack. *)
Fixpoint pushAll (next : list cell) (js : list Z) (stack : list Z) : option (list Z) :=
  match js with
  | [] => Some stack
  | j :: js' =>
      match at_ next j with
      | None => None
      | Some c =>
          pushAll next js' (if negb (r c) && negb (f c) then j :: stack else stack)
      end
  end.

(** The [while (stack.length)] loop, cut after [fuel] pops. *)
Fixpoint floodLoop (W H : Z) (fuel : nat) (next : list cell) (stack : list Z)
    : option (list cell) :=
  match stack with
  | [] => Some next
  | i :: stack' =>
      match fuel with
      | O => None
      | S fuel' =>
          match at_ next i with
          | None => None
          | Some c =>
              if r c || f c then floodLoop W H fuel' next stack' else
              let next' := <[Z.to_nat i := reveal c]> next in
              if (adj c =? 0) && negb (mine c) then
                match pushAll next' (nbors W H i) stack' with
                | None => None
                | Some stack'' => floodLoop W H fuel' next' stack''
                end
              else floodLoop W H fuel' next' stack'
          end
      end
  end.

(** The board [flood(start)] hands to [setBoard] and [checkWin].  A pop
    either reveals a cell, and pushes at most eight, or drops an index, so
    nine pops for each cell and one more are enough.  [None]: a cell index
    outside the board (a [TypeError]). *)
Definition flood (W H : Z) (b : list cell) (start : Z) : option (list cell) :=
  floodLoop W H (9 * length b + 1)%nat b [start].

(** ** The handlers *)

(** [b.every((c) => (c.mine ? true : c.r))] and its [setWon(true)]. *)
Definition safeRevealed (b : list cell) : bool :=
  forallb (fun c => if mine c then true else r c) b.

Definition checkWin (b : list cell) (g : game) : game :=
  if safeRevealed b then set_won true g else g.

Definition revealAllMines (g : game) : game :=
  set_board (map (fun c => if mine c then reveal c else c) (board g)) g.

(** A left click on the button of cell [i], with what it sets off: the
    [flood] of the zero-timeout and, after a mine, [revealAllMines].  The
    functional update of [setBoard] sees the board that [placeMines] has
    just put in place; [flood] is the closure of the render in which the
    click was handled and reads the board of that render, [board g]. *)
Definition leftClick (rs : list Z) (i : Z) (g : game) : option game :=
  if lost g || won g then Some g else
  match (if placed g then Some g else placeMines rs i g) with
  | None => None
  | Some g1 =>
      match at_ (board g1) i with
      | None => None
      | Some c =>
          if f c || r c then Some g1 else
          if mine c then
            Some (revealAllMines
                    (set_lost true (set_board (<[Z.to_nat i := reveal c]> (board g1)) g1)))
          else if adj c =? 0 then
            match flood (w (dim g)) (h (dim g)) (board g) i with
            | None => None
            | Some next => Some (checkWin next (set_board next g1))
            end
          else
            let next := <[Z.to_nat i := reveal c]> (board g1) in
            Some (checkWin next (set_board next g1))
      end
  end.

Definition rightClick (i : Z) (g : game) : option game :=
  if lost g || won g then Some g else
  match at_ (board g) i with
  | None => None
  | Some c =>
      if r c then Some g else
      let c' := mkCell (r c) (negb (f c)) (mine c) (adj c) in
      Some (set_flags (flags g + (if f c' then 1 else -1))
              (set_board (<[Z.to_nat i := c']> (board g)) g))
  end.

(** The body of the effect on [[w, h, m]]: a board of [w*h] blank cells,
    and [placed], [flags], [lost] and [won] cleared. *)
Definition rebuild (g : game) : game :=
  mkGame (level g) (dim g)
         (replicate (Z.to_nat (w (dim g) * h (dim g))) blank) false 0 false false.

(** The effect runs again after a render in which [w], [h] or [m] is
    another number than in the render before. *)
Definition deps_changed (a b : dims) : bool :=
  negb ((w a =? w b) && (h a =? h b) && (m a =? m b)).

(** [reset(presetKey)]: [setLevel(presetKey); setDims(presets[presetKey])],
    with the effect of the render that follows. *)
Definition reset (presetKey : level_t) (g : game) : game :=
  let g' := set_dims (presets presetKey) (set_level presetKey g) in
  if deps_changed (dim g) (dim g') then rebuild g' else g'.

(** The state the effect builds for a level. *)
Definition fresh (l : level_t) : game :=
  let d := presets l in
  mkGame l d (replicate (Z.to_nat (w d * h d)) blank) false 0 false false.

Definition level_eqb (a b : level_t) : bool :=
  match a, b with
  | Beginner, Beginner | Intermediate, Intermediate | Expert, Expert => true
  | _, _ => false
  end.

Inductive event :=
| LeftClick (rs : list Z) (i : Z)
| RightClick (i : Z)
| SelectLevel (l : level_t)
| NewGame.

Definition handle (e : event) (g : game) : option game :=
  match e with
  | LeftClick rs i => leftClick rs i g
  | RightClick i => rightClick i g
  | SelectLevel l => Some (reset l g)
  | NewGame => Some (reset (level g) g)
  end.

(** After the first render and its effect. *)
Definition mount : game := fresh Beginner.

Inductive reachable : game -> Prop :=
| reach_mount : reachable mount
| reach_event e g g' : reachable g -> handle e g = Some g' -> reachable g'.

(** A run of events. *)
Fixpoint play (es : list event) (g : game) : option game :=
  match es with
  | [] => Some g
  | e :: es' => match handle e g with Some g' => play es' g' | None => None end
  end.

(** The event chooses another level than [l]. *)
Definition leaves (l : level_t) (e : event) : bool :=
  match e with SelectLevel l' => negb (level_eqb l' l) | _ => false end.

(** ** Vocabulary *)

(** Column and row of a cell index. *)
Definition col (W i : Z) : Z := i mod W.
Definition row (W i : Z) : Z := i / W.

(** Two different cells of the board whose columns and rows differ by one
    at most. *)
Definition touching (W H i j : Z) : Prop :=
  0 <= j < W * H /\ j <> i /\
  Z.abs (col W j - col W i) <= 1 /\ Z.abs (row W j - row W i) <= 1.

(** The eight cells around [(cx, cy)], in the order of the two loops. *)
Definition around (cx cy : Z) : list (Z * Z) :=
  [(cx + -1, cy + -1); (cx + 0, cy + -1); (cx + 1, cy + -1);
   (cx + -1, cy + 0); (cx + 1, cy + 0);
   (cx + -1, cy + 1); (cx + 0, cy + 1); (cx + 1, cy + 1)].

(** The number of cells that satisfy [p]. *)
Definition count (p : cell -> bool) (b : list cell) : Z :=
  Z.of_nat (length (List.filter p b)).

(** The number of mined cells among the cells [js]. *)
Definition minedAmong (b : list cell) (js : list Z) : Z :=
  Z.of_nat (length (List.filter
    (fun j => match at_ b j with Some c => mine c | None => false end) js)).

(** Every cell carries the number of its mined neighbours. *)
Definition numbered (W H : Z) (b : list cell) : Prop :=
  forall i c, at_ b i = Some c -> adj c = minedAmong b (nbors W H i).

(** [c'] is [c], possibly revealed, and not so if flagged. *)
Definition grown (c c' : cell) : Prop :=
  f c' = f c /\ mine c' = mine c /\ adj c' = adj c /\
  (r c = true -> r c' = true) /\ (f c = true -> r c' = r c).

(** The cell [j] of [b] is neither revealed nor flagged. *)
Definition hidden (b : list cell) (j : Z) : bool :=
  match at_ b j with Some c => negb (r c) && negb (f c) | None => false end.

(** The cell [i], not revealed in [b], is revealed in [b'] and shows no
    number: it is not mined and has no mined neighbour. *)
Definition opened (b b' : list cell) (i : Z) : Prop :=
  exists c c', at_ b i = Some c /\ at_ b' i = Some c' /\
    r c = false /\ r c' = true /\ adj c' = 0 /\ mine c' = false.

(** Every neighbour of a cell opened since [b0] is revealed, flagged, or
    waiting on the stack. *)
Definition spreading (W H : Z) (b0 b : list cell) (st : list Z) : Prop :=
  forall i j cj, opened b0 b i -> In j (nbors W H i) -> at_ b j = Some cj ->
    r cj = true \/ f cj = true \/ In j st.

(** No cell on the stack is mined, and no mined cell has been revealed
    since [b0]. *)
Definition sparing (b0 b : list cell) (st : list Z) : Prop :=
  (forall x c0, In x st -> at_ b0 x = Some c0 -> mine c0 = false) /\
  Forall2 (fun c0 c => mine c0 = true -> r c = r c0) b0 b.

(** The cell [i] of [b] is revealed. *)
Definition shown (b : list cell) (i : Z) : Prop :=
  exists c, at_ b i = Some c /\ r c = true.

(** A board on which nothing is revealed, flagged, mined or numbered. *)
Definition clear (b : list cell) : Prop :=
  Forall (fun c => r c = false /\ f c = false /\ mine c = false /\ adj c = 0) b.

(** The board before a game: nothing revealed, no mine, every number 0. *)
Definition unplaced (b : list cell) : Prop :=
  Forall (fun c => r c = false /\ mine c = false /\ adj c = 0) b.

(** The board has [w*h] cells for the dimensions of the level. *)
Definition sized (g : game) : Prop :=
  dim g = presets (level g) /\
  Z.of_nat (length (board g)) = w (dim g) * h (dim g).

(** Twelve draws for the first click on cell 0 of the beginner's board:
    one hits the cell clicked, one comes twice; and the state they lead to. *)
Definition sample_draws : list Z := [80; 0; 80; 79; 78; 77; 76; 75; 74; 73; 72; 71].

Definition laid :=
  Eval vm_compute in
    match placeMines sample_draws 0 mount with Some g => g | None => mount end.

(** The board after a first click on cell 0 with these draws had the
    flood run on the board with the mines. *)
Definition laid_flooded :=
  Eval vm_compute in
    match flood 9 9 (board laid) 0 with Some b => b | None => [] end.

(** The state after the first click on cell 0 with these draws. *)
Definition clicked :=
  Eval vm_compute in
    match leftClick sample_draws 0 mount with Some g => g | None => mount end.

(** A game lost: the click on the mine of cell 80 of [laid]. *)
Definition blown :=
  Eval vm_compute in
    match leftClick [] 80 laid with Some g => g | None => laid end.

(** What holds of the state whatever is clicked: the board has [w*h]
    cells, [flags] counts the flagged cells, before the mines are placed
    the board is clear and the game open, a game won has every cell
    without a mine revealed and is not lost, a game lost shows a mine. *)
Definition steady (g : game) : Prop :=
  sized g /\ flags g = count f (board g) /\
  (placed g = false -> unplaced (board g) /\ lost g = false /\ won g = false) /\
  (won g = true -> safeRevealed (board g) = true /\ lost g = false) /\
  (lost g = true -> exists c, c ∈ board g /\ mine c = true /\ r c = true).

End Mines.

(** * The terminal (TerminalApp in App.jsx): command lines and history *)

Module Term.

(** A JavaScript string is the list of its UTF-16 code units. *)
Definition str : Type := list Z.

(** The code units of a literal of ASCII characters. *)
Definition lit (s : String.string) : str :=
  map (fun a => Z.of_N (Ascii.N_of_ascii a)) (String.list_ascii_of_string s).

Arguments lit s%_string.

(** [a === b] *)
Fixpoint str_eqb (a b : str) : bool :=
  match a, b with
  | [], [] => true
  | x :: a', y :: b' => (x =? y) && str_eqb a' b'
  | _, _ => false
  end.

(** The code units [trim] strips: white space (TAB, VT, FF, SP, NBSP,
    ZWNBSP and the space separators of Unicode) and line terminators. *)
Definition spaces : list Z :=
  [9; 10; 11; 12; 13; 32; 160; 5760;
   8192; 8193; 8194; 8195; 8196; 8197; 8198; 8199; 8200; 8201; 8202;
   8232; 8233; 8239; 8287; 12288; 65279].

Definition isSpace (c : Z) : bool := existsb (Z.eqb c) spaces.

Fixpoint trimStart (s : str) : str :=
  match s with
  | c :: s' => if isSpace c then trimStart s' else s
  | [] => []
  end.

(** [s.trim()] *)
Definition trim (s : str) : str := rev (trimStart (rev (trimStart s))).

(** [s.split(" ")]: one piece more than there are spaces. *)
Fixpoint split (s : str) : list str :=
  match s with
  | [] => [[]]
  | c :: s' =>
      if c =? 32 then [] :: split s'
      else match split s' with
           | p :: ps => (c :: p) :: ps
           | [] => [[c]]
           end
  end.

(** [a.join(" ")] *)
Fixpoint join (ps : list str) : str :=
  match ps with
  | [] => []
  | [p] => p
  | p :: ps' => p ++ 32 :: join ps'
  end.

(** [c.startsWith(p)] *)
Fixpoint startsWith (c p : str) : bool :=
  match p, c with
  | [], _ => true
  | y :: p', x :: c' => (x =? y) && startsWith c' p'
  | _ :: _, [] => false
  end.

(** ** The table [commands] *)

Inductive cmd :=
| Help | Ls | Clear | Whoami | Date | Time | UnameA | Uname | Echo | Neofetch
| Cowsay | Hack | Secret | Matrix | TheAnswer | Open | MinesCmd | Sudo | RmRf
| Vim | Emacs | Wakeup | Tron2d.

(** The keys of the object literal, in the order they are written. *)
Definition commands : list (str * cmd) :=
  [(lit "help", Help); (lit "ls", Ls); (lit "clear", Clear); (lit "whoami", Whoami);
   (lit "date", Date); (lit "time", Time); (lit "uname -a", UnameA); (lit "uname", Uname);
   (lit "echo", Echo); (lit "neofetch", Neofetch); (lit "cowsay", Cowsay);
   (lit "hack", Hack); (lit "secret", Secret); (lit "matrix", Matrix);
   (lit "theanswer", TheAnswer); (lit "open", Open); (lit "mines", MinesCmd);
   (lit "sudo", Sudo); (lit "rm -rf /", RmRf); (lit "vim", Vim); (lit "emacs", Emacs);
   (lit "wakeup", Wakeup); (lit "tron2d", Tron2d)].

(** [commands] is a plain object, so [commands[k]] is also truthy for
    the twelve names it inherits from [Object.prototype].  Called with an
    array, nine of them return without doing anything the terminal shows;
    [__defineGetter__] and [__defineSetter__] throw a [TypeError] (their
    second argument is not a function), and so does the call of
    [__proto__], which is not a function.  The flag says which throw. *)
Definition inherited : list (str * bool) :=
  [(lit "constructor", false); (lit "__defineGetter__", true);
   (lit "__defineSetter__", true); (lit "hasOwnProperty", false);
   (lit "__lookupGetter__", false); (lit "__lookupSetter__", false);
   (lit "isPrototypeOf", false); (lit "propertyIsEnumerable", false);
   (lit "toString", false); (lit "valueOf", false); (lit "__proto__", true);
   (lit "toLocaleString", false)].

Inductive entry := Own (c : cmd) | Proto (throws : bool).

(** [commands[k]], [None] when it is [undefined]. *)
Definition get (k : str) : option entry :=
  match find (fun p => str_eqb (fst p) k) commands with
  | Some p => Some (Own (snd p))
  | None =>
      match find (fun p => str_eqb (fst p) k) inherited with
      | Some p => Some (Proto (snd p))
      | None => None
      end
  end.

(** ** [exec] *)

(** What a command line comes to. *)
Inductive action :=
| Blank                            (* [if (!cmdline) return] *)
| Run (c : cmd) (args : list str)  (* [commands[...](args)] *)
| Inherited (throws : bool)        (* a method of [Object.prototype] is called *)
| NotFound (w : str).              (* [print(`command not found: ${cmd}`)] *)

Definition call (e : entry) (args : list str) : action :=
  match e with
  | Own c => Run c args
  | Proto t => Inherited t
  end.

(** [exec] from its second line on. *)
Definition resolve (cmdline : str) : action :=
  match get cmdline with
  | Some e => call e []
  | None =>
      match split cmdline with
      | [] => NotFound []
      | cmd0 :: args =>
          (* [`${cmd} ${args[0] ?? ""}`] *)
          let multi := cmd0 ++ 32 :: match args with a :: _ => a | [] => [] end in
          match get multi with
          | Some e => call e (tail args)
          | None =>
              match get cmd0 with
              | Some e => call e args
              | None => NotFound cmd0
              end
          end
      end
  end.

(** The state [input], [history], [hIndex]; the lines printed are left
    out. *)
Record term := mkTerm { input : str; history : list str; hIndex : Z }.

Definition exec (raw : str) (t : term) : term * action :=
  match trim raw with
  | [] => (t, Blank)
  | cmdline => (mkTerm (input t) (cmdline :: history t) (-1), resolve cmdline)
  end.

(** [onSubmit]: [exec(input); setInput("")]; a [TypeError] thrown in
    [exec] leaves the handler before the input is cleared. *)
Definition onSubmit (t : term) : term * action :=
  let (t', a) := exec (input t) t in
  match a with
  | Inherited true => (t', a)
  | _ => (mkTerm [] (history t') (hIndex t'), a)
  end.

(** What the commands print that print one line and do nothing else;
    [None] for the others (they print several lines, read the clock or
    the window, clear the screen or start something). *)
Definition say (c : cmd) (args : list str) : option (list str) :=
  match c with
  | Whoami => Some [lit "guest"]
  | UnameA => Some [lit "AndreasOS 1.0.0 #1337 SMP neon-emerald x86_64"]
  | Uname => Some [lit "AndreasOS"]
  | Echo => Some [join args]
  | Matrix => Some [lit "Already in it."]
  | TheAnswer => Some [lit "42"]
  | Sudo => Some [lit "Nice try. You have no power here."]
  | RmRf => Some [lit "Nope."]
  | Vim => Some [lit "Esc :q!"]
  | Emacs => Some [lit "You mean vim?"]
  | _ => None
  end.

(** ** [onKeyDown] *)

(** [history[i]] *)
Definition nth (h : list str) (i : Z) : option str :=
  if i <? 0 then None else h !! Z.to_nat i.

Definition arrowUp (t : term) : term :=
  let ni := Z.min (Z.of_nat (length (history t)) - 1) (hIndex t + 1) in
  mkTerm (match nth (history t) ni with Some s => s | None => input t end)
         (history t) ni.

Definition arrowDown (t : term) : term :=
  let ni := Z.max (-1) (hIndex t - 1) in
  mkTerm (match nth (history t) ni with Some s => s | None => [] end)
         (history t) ni.

(** [Object.keys(commands).find((c) => c.startsWith(input))] *)
Definition completion (s : str) : option str :=
  find (fun c => startsWith c s) (map fst commands).

Definition tab (t : term) : term :=
  match completion (input t) with
  | Some m => mkTerm m (history t) (hIndex t)
  | None => t
  end.

Inductive event :=
| Type_ (s : str)   (* [onChange]: the input field holds [s] *)
| Submit
| Up
| Down
| Tab.

Definition handle (e : event) (t : term) : term :=
  match e with
  | Type_ s => mkTerm s (history t) (hIndex t)
  | Submit => fst (onSubmit t)
  | Up => arrowUp t
  | Down => arrowDown t
  | Tab => tab t
  end.

(** [useState("")], [useState([])], [useState(-1)] *)
Definition start : term := mkTerm [] [] (-1).

Inductive reachable : term -> Prop :=
| reach_start : reachable start
| reach_event e t : reachable t -> reachable (handle e t).

(** ** Vocabulary *)

(** The first word of a line. *)
Definition word (s : str) : str :=
  match split s with w :: _ => w | [] => [] end.

(** A string without the white space at its end. *)
Definition trimEnd (s : str) : str := rev (trimStart (rev s)).

(** The names for which [commands[k]] is truthy. *)
Definition names : list str := map fst commands ++ map fst inherited.

End Term.

(** * Proofs *)

(** ** Facts on typed arrays *)

Lemma get_in_range (a : list Z) k v : TA.get a k = Some v -> 0 <= k < Z.of_nat (length a).
Proof.
  unfold TA.get. destruct (Z.ltb_spec k 0); [discriminate|].
  intros H'. apply lookup_lt_Some in H'. lia.
Qed.

Lemma nonzero_false (a : list Z) k : TA.nonzero a k = false <-> TA.get a k = Some 0.
Proof.
  unfold TA.nonzero. destruct (TA.get a k) as [v|]; [|split; discriminate].
  destruct (Z.eqb_spec v 0); simpl; split; intros; subst; congruence.
Qed.

Lemma length_set_u8 (a : list Z) k v : length (TA.set_u8 a k v) = length a.
Proof. unfold TA.set_u8. destruct (k <? 0); [done|]. apply length_insert. Qed.

Lemma get_set_u8_eq (a : list Z) k v :
  0 <= k < Z.of_nat (length a) -> TA.get (TA.set_u8 a k v) k = Some (v mod 256).
Proof.
  intros H. unfold TA.get, TA.set_u8.
  destruct (Z.ltb_spec k 0); [lia|]. apply list_lookup_insert_eq. lia.
Qed.

Lemma get_set_u8_ne (a : list Z) k k' v :
  k <> k' -> TA.get (TA.set_u8 a k v) k' = TA.get a k'.
Proof.
  intros H. unfold TA.get, TA.set_u8.
  destruct (Z.ltb_spec k' 0); [done|].
  destruct (Z.ltb_spec k 0); [done|].
  apply list_lookup_insert_ne. lia.
Qed.

Lemma inb_true C R cx cy : inb C R cx cy = true <-> 0 <= cx < C /\ 0 <= cy < R.
Proof. unfold inb. rewrite !andb_true_iff, !Z.leb_le, !Z.ltb_lt. lia. Qed.

Lemma inb_false C R cx cy : inb C R cx cy = false <-> ~ (0 <= cx < C /\ 0 <= cy < R).
Proof. rewrite <- inb_true. destruct (inb C R cx cy); split; congruence. Qed.

Lemma idx_inj C R a b c d :
  inb C R a b = true -> inb C R c d = true -> idx C a b = idx C c d -> a = c /\ b = d.
Proof.
  rewrite !inb_true. unfold idx. intros H1 H2 H.
  assert (b = d) as -> by (destruct (Z.lt_total b d) as [Hlt|[->|Hlt]]; [exfalso; nia | done | exfalso; nia]).
  split; [lia | done].
Qed.

Lemma idx_range C R a b :
  inb C R a b = true -> 0 <= idx C a b < C * R.
Proof. rewrite inb_true. unfold idx. intros. nia. Qed.

(** ** The two shapes of a step *)

Lemma vec_eqb_eq a b : vec_eqb a b = true <-> a = b.
Proof.
  destruct a, b. unfold vec_eqb. simpl. rewrite andb_true_iff, !Z.eqb_eq.
  split; [intros [-> ->]; done | intros [= -> ->]; done].
Qed.

Lemma stepOnce_crash s :
  blocked s (next1 s) || blocked s (next2 s) || vec_eqb (next1 s) (next2 s) = true ->
  stepOnce s =
    set_winner (Some (if vec_eqb (next1 s) (next2 s) && negb (blocked s (next1 s)) && negb (blocked s (next2 s)) then Draw
                      else if blocked s (next1 s) && blocked s (next2 s) then Draw
                      else if blocked s (next2 s) then YouWin else ComputerWins))
               (set_running false (aimed s)).
Proof.
  unfold stepOnce, blocked, next1, next2, vec_eqb, aiChoose, aimed. simpl.
  set (b1 := negb _ || _). set (b2 := negb _ || _).
  set (e1 := _ =? _). set (e2 := _ =? _).
  destruct b1, b2, e1, e2; simpl; try reflexivity; discriminate.
Qed.

Lemma stepOnce_commit s :
  blocked s (next1 s) = false -> blocked s (next2 s) = false ->
  vec_eqb (next1 s) (next2 s) = false ->
  stepOnce s =
    let C := cols (arena s) in
    let s1 := aimed s in
    let s2 := set_p1 (moved (p1 s1) (fst (next1 s)) (snd (next1 s))) s1 in
    let s3 := set_world (TA.set_u8 (world s2) (idx C (fst (next1 s)) (snd (next1 s))) 1) s2 in
    let s4 := set_p2 (moved (p2 s3) (fst (next2 s)) (snd (next2 s))) s3 in
    set_world (TA.set_u8 (world s4) (idx C (fst (next2 s)) (snd (next2 s))) 2) s4.
Proof.
  unfold stepOnce, blocked, next1, next2, vec_eqb, aiChoose, aimed. simpl.
  set (b1 := negb _ || _). set (b2 := negb _ || _).
  set (e1 := _ =? _). set (e2 := _ =? _).
  intros -> -> He. simpl in *. destruct e1, e2; simpl in *; try discriminate; reflexivity.
Qed.

Lemma in_grid_inb a c : in_grid a c <-> inb (cols a) (rows a) (fst c) (snd c) = true.
Proof. unfold in_grid. by rewrite inb_true. Qed.

Lemma blocked_false s c :
  blocked s c = false <-> in_grid (arena s) c /\ cell s c = Some 0.
Proof.
  unfold blocked, cell. rewrite orb_false_iff, negb_false_iff, nonzero_false.
  by rewrite in_grid_inb.
Qed.

Lemma wf_world_cell s c :
  wf_world s = true -> in_grid (arena s) c ->
  exists v, cell s c = Some v /\ (v = 0 \/ v = 1 \/ v = 2).
Proof.
  unfold wf_world. rewrite andb_true_iff, Z.eqb_eq, forallb_forall.
  intros [Hlen Hall] Hin. apply in_grid_inb in Hin.
  pose proof (idx_range _ _ _ _ Hin) as Hr.
  unfold cell, TA.get. destruct (Z.ltb_spec (idx (cols (arena s)) (fst c) (snd c)) 0); [lia|].
  destruct (lookup_lt_is_Some_2 (world s) (Z.to_nat (idx (cols (arena s)) (fst c) (snd c)))) as [v Hv]; [lia|].
  exists v. split; [done|].
  assert (Hv' : In v (world s)) by (apply list_elem_of_In, list_elem_of_lookup; eauto).
  apply Hall in Hv'. rewrite !orb_true_iff, !Z.eqb_eq in Hv'. tauto.
Qed.

Lemma blocked_collides s c :
  wf_world s = true -> blocked s c = true <-> collides s c.
Proof.
  intros Hwf. unfold collides, occupied. split.
  - intros Hb. destruct (inb (cols (arena s)) (rows (arena s)) (fst c) (snd c)) eqn:Hin.
    + right. apply in_grid_inb in Hin.
      destruct (wf_world_cell s c Hwf Hin) as (v & Hv & [->|[->| ->]]); [|tauto..].
      assert (blocked s c = false) by (apply blocked_false; tauto). congruence.
    + left. rewrite in_grid_inb. congruence.
  - intros Hc. destruct (blocked s c) eqn:Hb; [done|].
    apply blocked_false in Hb as [Hin Hz]. destruct Hc as [Hc|[Hc|Hc]]; [tauto|congruence..].
Qed.

Lemma not_collides_blocked s c :
  wf_world s = true -> ~ collides s c <-> blocked s c = false.
Proof.
  intros Hwf. rewrite <- blocked_collides by done. destruct (blocked s c); split; congruence.
Qed.

Lemma commit_marks s :
  blocked s (next1 s) = false -> blocked s (next2 s) = false ->
  next1 s <> next2 s ->
  winner (stepOnce s) = winner s /\ running (stepOnce s) = running s /\
  committed s (stepOnce s).
Proof.
  intros H1 H2 Hne.
  assert (He : vec_eqb (next1 s) (next2 s) = false).
  { destruct (vec_eqb _ _) eqn:E; [|done]. apply vec_eqb_eq in E. done. }
  rewrite (stepOnce_commit s H1 H2 He). cbn zeta.
  apply blocked_false in H1 as [Hin1 Hz1]. apply blocked_false in H2 as [Hin2 Hz2].
  unfold committed, cell in *. simpl.
  repeat split; try (by destruct (next1 s)); try (by destruct (next2 s)).
  - rewrite get_set_u8_ne.
    + rewrite get_set_u8_eq; [done|]. eapply get_in_range; eauto.
    + intros E. apply in_grid_inb in Hin1, Hin2.
      destruct (idx_inj _ _ _ _ _ _ Hin2 Hin1 E). apply Hne.
      destruct (next1 s), (next2 s); simpl in *; congruence.
  - rewrite get_set_u8_eq; [done|]. rewrite length_set_u8. eapply get_in_range; eauto.
Qed.


Lemma stepOnce_commit_world s :
  blocked s (next1 s) = false -> blocked s (next2 s) = false ->
  vec_eqb (next1 s) (next2 s) = false ->
  world (stepOnce s) =
    TA.set_u8 (TA.set_u8 (world s) (idx (cols (arena s)) (fst (next1 s)) (snd (next1 s))) 1)
              (idx (cols (arena s)) (fst (next2 s)) (snd (next2 s))) 2.
Proof. intros H1 H2 He. by rewrite (stepOnce_commit s H1 H2 He). Qed.

Lemma stepOnce_arena s : arena (stepOnce s) = arena s.
Proof. unfold stepOnce. cbv zeta. by destruct (_ || _). Qed.

(** A step that sets an outcome is a step with a collision. *)
Lemma stepOnce_winner_cases s :
  winner s = None -> winner (stepOnce s) <> None ->
  blocked s (next1 s) || blocked s (next2 s) || vec_eqb (next1 s) (next2 s) = true.
Proof.
  intros Hw Hs.
  destruct (blocked s (next1 s)) eqn:H1; [done|].
  destruct (blocked s (next2 s)) eqn:H2; [done|].
  destruct (vec_eqb (next1 s) (next2 s)) eqn:He; [done|].
  exfalso. apply Hs. rewrite (stepOnce_commit s H1 H2 He). done.
Qed.

Lemma crash_stops s :
  winner s = None -> winner (stepOnce s) <> None ->
  stepOnce s = set_winner (winner (stepOnce s)) (set_running false (aimed s)).
Proof.
  intros Hw Hs. pose proof (stepOnce_winner_cases s Hw Hs) as Hc.
  rewrite (stepOnce_crash s Hc). done.
Qed.

(** ** The outcome of a step *)

(** The outcome of a step from any state without outcome and with a
    well-formed grid, also one that no game leads to: a candidate cell
    collides when it is outside the grid or occupied by a trail; both
    collide: Draw; only the computer: the human wins; only the human: the
    computer wins; neither collides and the two candidate cells differ: no
    outcome, both moves committed; neither collides and the two candidate
    cells are one cell: Draw. *)
Lemma stepOnce_outcome s :
  wf_world s = true -> winner s = None ->
  let s' := stepOnce s in
  (collides s (next1 s) /\ collides s (next2 s) -> winner s' = Some Draw) /\
  (~ collides s (next1 s) /\ collides s (next2 s) -> winner s' = Some YouWin) /\
  (collides s (next1 s) /\ ~ collides s (next2 s) -> winner s' = Some ComputerWins) /\
  (~ collides s (next1 s) /\ ~ collides s (next2 s) /\ next1 s <> next2 s ->
   winner s' = None /\ committed s s') /\
  (~ collides s (next1 s) /\ ~ collides s (next2 s) /\ next1 s = next2 s ->
   winner s' = Some Draw).
Proof.
  intros Hwf Hw s'. subst s'.
  rewrite !(not_collides_blocked s) by done. rewrite <- !(blocked_collides s) by done.
  split; [|split; [|split; [|split]]].
  - intros [H1 H2]. rewrite stepOnce_crash by (by rewrite H1). by rewrite H1, H2, andb_false_r.
  - intros [H1 H2]. rewrite stepOnce_crash by (by rewrite H1, H2). by rewrite H1, H2, andb_false_r.
  - intros [H1 H2]. rewrite stepOnce_crash by (by rewrite H1). by rewrite H1, H2, andb_false_r.
  - intros (H1 & H2 & Hne). destruct (commit_marks s H1 H2 Hne) as (-> & _ & Hc). done.
  - intros (H1 & H2 & He). apply vec_eqb_eq in He.
    rewrite stepOnce_crash by (by rewrite He, orb_true_r). by rewrite H1, H2, He.
Qed.

(** Outside play the table has a fifth row.  [head_on] is a position that
    no run of events leads to (the two heads stand an even number of cells
    apart): no outcome is set before the step, neither candidate cell is
    outside the grid or occupied, and the step ends in a Draw with nothing
    committed. *)
Remark head_on_outside_table : winner head_on = None /\ ~ outcome_table head_on.
Proof.
  split; [reflexivity|]. intros (_ & _ & _ & H).
  assert (Hwf : wf_world head_on = true) by (vm_compute; reflexivity).
  destruct H as [H _].
  - split; apply not_collides_blocked; try done; vm_compute; reflexivity.
  - vm_compute in H. discriminate.
Qed.

(** C2.  When both candidate cells are on the grid and empty before the
    step and are the same cell, the step ends in a Draw: the running flag
    is cleared and neither player moves. *)
Theorem head_on_draw s :
  in_grid (arena s) (next1 s) -> cell s (next1 s) = Some 0 ->
  in_grid (arena s) (next2 s) -> cell s (next2 s) = Some 0 ->
  next1 s = next2 s ->
  winner (stepOnce s) = Some Draw /\ running (stepOnce s) = false /\
  world (stepOnce s) = world s /\
  pos (p1 (stepOnce s)) = pos (p1 s) /\ pos (p2 (stepOnce s)) = pos (p2 s).
Proof.
  intros Hg1 Hz1 Hg2 Hz2 He.
  assert (H1 : blocked s (next1 s) = false) by (apply blocked_false; tauto).
  assert (H2 : blocked s (next2 s) = false) by (apply blocked_false; tauto).
  apply vec_eqb_eq in He.
  rewrite stepOnce_crash by (by rewrite He, orb_true_r). by rewrite H1, H2, He.
Qed.

Lemma head_on_draw_witness :
  winner (stepOnce head_on) = Some Draw /\ running (stepOnce head_on) = false /\
  world (stepOnce head_on) = world head_on /\
  pos (p1 (stepOnce head_on)) = pos (p1 head_on) /\
  pos (p2 (stepOnce head_on)) = pos (p2 head_on).
Proof.
  apply (head_on_draw head_on);
    try (apply in_grid_inb); vm_compute; reflexivity.
Defined.


(** ** The frame loop runs steps only *)

Section Preserved.
Variable P : tron -> Prop.
Hypothesis P_accum : forall s a, P s -> P (set_accum a s).
Hypothesis P_lastT : forall s t, P s -> P (set_lastT t s).
Hypothesis P_step : forall s, P s -> P (stepOnce s).

Lemma drain_preserves fuel st s s' : drain fuel st s = Some s' -> P s -> P s'.
Proof.
  revert s. induction fuel as [|fuel IH]; intros s; simpl.
  - destruct (st <=? accum s)%float; [discriminate|]. by intros [= <-].
  - destruct (st <=? accum s)%float; [|by intros [= <-]].
    intros H Hs. apply (IH _ H). apply P_step, P_accum, Hs.
Qed.

Lemma loop_preserves fuel t s s' : loop fuel t s = Some s' -> P s -> P s'.
Proof.
  unfold loop. destruct (_ && _).
  - intros H Hs. apply (drain_preserves _ _ _ _ H). apply P_accum, P_lastT, Hs.
  - intros [= <-] Hs. apply P_lastT, Hs.
Qed.
End Preserved.

Lemma play_reachable es : forall s s', reachable s -> play es s = Some s' -> reachable s'.
Proof.
  induction es as [|e es IH]; intros s s' Hs; simpl.
  - by intros [= <-].
  - destruct (handle e s) as [s1|] eqn:He; [|discriminate].
    apply IH. by apply (reach_event e s).
Qed.

(** The short game [wreck_trace] ends in [wreck]. *)
Lemma wreck_reachable : reachable wreck.
Proof.
  apply (play_reachable wreck_trace mount); [constructor|]. vm_compute. reflexivity.
Qed.

(** ** Positions stay on the grid (C8) *)

Lemma stepOnce_heads s : heads_in_grid s -> heads_in_grid (stepOnce s).
Proof.
  intros Hs.
  destruct (blocked s (next1 s) || blocked s (next2 s) || vec_eqb (next1 s) (next2 s)) eqn:Hc.
  - rewrite (stepOnce_crash s Hc). exact Hs.
  - apply orb_false_iff in Hc as [Hc He]. apply orb_false_iff in Hc as [H1 H2].
    rewrite (stepOnce_commit s H1 H2 He).
    apply blocked_false in H1 as [H1 _]. apply blocked_false in H2 as [H2 _].
    split; [exact H1 | exact H2].
Qed.

Lemma build_heads a s : heads_in_grid (build a s).
Proof. destruct a; vm_compute; intuition discriminate. Qed.

Lemma reset_heads s : heads_in_grid (reset s).
Proof. unfold heads_in_grid. simpl. destruct (arena s); vm_compute; intuition discriminate. Qed.

Lemma steer_heads d s : heads_in_grid s -> heads_in_grid (steer d s).
Proof. unfold steer. by destruct (negb _). Qed.

Lemma handle_heads e s s' : handle e s = Some s' -> heads_in_grid s -> heads_in_grid s'.
Proof.
  destruct e as [k| | |a|n| | | |fuel t]; simpl.
  - intros [= <-] Hs. unfold onKey. destruct (negb (active s)); [done|].
    destruct k; try done; try (by apply steer_heads). apply reset_heads.
  - by intros [= <-].
  - intros [= <-] _. apply reset_heads.
  - intros [= <-] Hs. unfold setArena. destruct (arena_eqb _ _); [done|]. apply build_heads.
  - destruct (_ && _); [|discriminate]. by intros [= <-].
  - by intros [= <-].
  - by intros [= <-].
  - by intros [= <-].
  - intros H Hs. revert H Hs. apply loop_preserves; try done. apply stepOnce_heads.
Qed.

(** C8.  In every state the component can reach, from the initial layout
    on and through every step, both players are on the grid. *)
Theorem reachable_in_bounds s :
  reachable s ->
  (0 <= x (p1 s) < cols (arena s) /\ 0 <= y (p1 s) < rows (arena s)) /\
  (0 <= x (p2 s) < cols (arena s) /\ 0 <= y (p2 s) < rows (arena s)).
Proof.
  induction 1 as [|e s s' _ IH He].
  - apply (build_heads ArenaM).
  - exact (handle_heads e s s' He IH).
Qed.

Lemma reachable_in_bounds_witness :
  (0 <= x (p1 wreck) < cols (arena wreck) /\ 0 <= y (p1 wreck) < rows (arena wreck)) /\
  (0 <= x (p2 wreck) < cols (arena wreck) /\ 0 <= y (p2 wreck) < rows (arena wreck)).
Proof. exact (reachable_in_bounds wreck wreck_reachable). Defined.

(** ** Occupied cells keep their owner (C9) *)

Lemma stepOnce_keeps s : keeps (world s) (world (stepOnce s)).
Proof.
  intros k v Hk Hv.
  destruct (blocked s (next1 s) || blocked s (next2 s) || vec_eqb (next1 s) (next2 s)) eqn:Hc.
  - by rewrite (stepOnce_crash s Hc).
  - apply orb_false_iff in Hc as [Hc He]. apply orb_false_iff in Hc as [H1 H2].
    rewrite (stepOnce_commit_world s H1 H2 He).
    apply blocked_false in H1 as [_ H1]. apply blocked_false in H2 as [_ H2].
    unfold cell in H1, H2.
    rewrite !get_set_u8_ne; [done|congruence..].
Qed.

Lemma handle_keeps w e s s' :
  rebuilds e = false -> handle e s = Some s' -> keeps w (world s) -> keeps w (world s').
Proof.
  destruct e as [k| | |a|n| | | |fuel t]; simpl; try discriminate.
  - intros Hr [= <-]. unfold onKey. destruct (negb (active s)); [done|].
    destruct k; try done; unfold steer; by destruct (negb _).
  - by intros _ [= <-].
  - intros _. destruct (_ && _); [|discriminate]. by intros [= <-].
  - by intros _ [= <-].
  - by intros _ [= <-].
  - by intros _ [= <-].
  - intros _. apply (loop_preserves (fun s => keeps w (world s))); try done.
    intros s0 H0 k v Hk Hv. apply stepOnce_keeps; [|done]. by apply H0.
Qed.

Lemma handle_arena e s s' :
  rebuilds e = false -> handle e s = Some s' -> arena s' = arena s.
Proof.
  destruct e as [k| | |a|n| | | |fuel t]; simpl; try discriminate.
  - intros Hr [= <-]. unfold onKey. destruct (negb (active s)); [done|].
    destruct k; try done; unfold steer; by destruct (negb _).
  - by intros _ [= <-].
  - intros _. destruct (_ && _); [|discriminate]. by intros [= <-].
  - by intros _ [= <-].
  - by intros _ [= <-].
  - by intros _ [= <-].
  - intros _ H. apply (loop_preserves (fun s1 => arena s1 = arena s)) in H; try done.
    intros s0 <-. apply stepOnce_arena.
Qed.

Lemma later_keeps s s' : later s s' -> keeps (world s) (world s') /\ arena s' = arena s.
Proof.
  induction 1 as [|s' _ [IHk IHa]|e s' s'' _ [IHk IHa] He Hh].
  - split; [by intros ? ?|done].
  - split; [|by rewrite stepOnce_arena].
    intros k v Hk Hv. apply stepOnce_keeps; [|done]. by apply IHk.
  - split; [|by rewrite (handle_arena e s' s'' He Hh)].
    by apply (handle_keeps (world s) e s' s'' He Hh).
Qed.

(** C9.  Within one match, that is through steps and through events other
    than Reset, Enter and a change of arena, a cell that holds a trail goes
    on holding the trail of the same player. *)
Theorem occupancy_monotone s s' c v :
  later s s' -> cell s c = Some v -> v <> 0 -> cell s' c = Some v.
Proof.
  intros Hl. destruct (later_keeps s s' Hl) as [Hk Ha].
  unfold cell. rewrite Ha. apply Hk.
Qed.

Lemma occupancy_monotone_witness :
  cell (stepOnce (onKey ArrowUp (stepOnce mount))) (2, 13) = Some 1.
Proof.
  apply (occupancy_monotone mount).
  - apply later_step. apply (later_event _ (KeyDown ArrowUp) (stepOnce mount)); [|done..].
    apply later_step, later_now.
  - vm_compute. reflexivity.
  - discriminate.
Defined.

(** ** The Start/Pause button (C5) *)

(** C5, amended.  The Start/Pause button flips the running flag and clears
    the outcome; the grid, both players with their headings, the clock and
    everything else stay as they are.  So with no outcome set the button
    only flips the running flag, as the space bar does in every state. *)
Theorem clickStartPause_effect s :
  clickStartPause s =
    mkTron (negb (running s)) None (arena s) (speed s) (world s) (p1 s) (p2 s)
           (lastT s) (accum s) (active s) (loop_running s) (loop_winner s) (loop_speed s) /\
  (winner s = None -> toggle_only_flips s) /\
  (active s = true -> onKey Space s = set_running (negb (running s)) s).
Proof.
  split; [reflexivity|]. split.
  - unfold toggle_only_flips, clickStartPause, set_running, set_winner. simpl. by intros ->.
  - unfold onKey. by intros ->.
Qed.

Lemma clickStartPause_effect_witness :
  toggle_only_flips mount /\
  onKey Space (set_active true wreck) = set_running true (set_active true wreck).
Proof.
  split.
  - apply (proj1 (proj2 (clickStartPause_effect mount))). reflexivity.
  - apply (proj2 (proj2 (clickStartPause_effect (set_active true wreck)))). reflexivity.
Defined.

(** C5 as stated fails in [wreck], where the computer has won: the button
    also clears the outcome. *)
Lemma button_clears_outcome :
  winner wreck = Some ComputerWins /\ winner (clickStartPause wreck) = None /\
  ~ toggle_only_flips wreck.
Proof.
  split; [reflexivity|]. split; [reflexivity|]. unfold toggle_only_flips. intros H.
  apply (f_equal winner) in H. discriminate.
Qed.

(** ** After an outcome (C3) *)

Lemma steer_board d s :
  world (steer d s) = world s /\ pos (p1 (steer d s)) = pos (p1 s) /\
  pos (p2 (steer d s)) = pos (p2 s) /\ winner (steer d s) = winner s.
Proof. unfold steer. by destruct (negb _). Qed.

(** C3, amended.  The step that sets an outcome clears the running flag.
    From a state with an outcome, arrow keys, the space bar, pointer and
    slider events, and every frame whose loop reads the outcome as set or
    the running flag as false, run no step: grid, positions and outcome
    stay.  The Start/Pause button clears the outcome and flips the running
    flag without a reset. *)
Theorem outcome_stands s e s' :
  winner s <> None -> holds_outcome e s = true -> handle e s = Some s' ->
  (world s' = world s /\ pos (p1 s') = pos (p1 s) /\ pos (p2 s') = pos (p2 s) /\
   winner s' = winner s) /\
  (winner (clickStartPause s) = None /\ running (clickStartPause s) = negb (running s)) /\
  (forall s0, winner s0 = None -> winner (stepOnce s0) <> None -> running (stepOnce s0) = false).
Proof.
  intros Hw He Hh. split; [|split; [done|]].
  - destruct e as [k| | |a|n| | | |fuel t]; simpl in *; try discriminate.
    + injection Hh as <-. unfold onKey. destruct (negb (active s)); [done|].
      destruct k; try done; try apply steer_board.
    + destruct (_ && _); [|discriminate]. by injection Hh as <-.
    + by injection Hh as <-.
    + by injection Hh as <-.
    + by injection Hh as <-.
    + unfold loop in Hh.
      replace (loop_running (set_lastT (t * 0.001)%float s)) with (loop_running s) in Hh by done.
      replace (loop_winner (set_lastT (t * 0.001)%float s)) with (loop_winner s) in Hh by done.
      destruct (loop_running s); simpl in *.
      * rewrite He in Hh. simpl in Hh. by injection Hh as <-.
      * by injection Hh as <-.
  - intros s0 H0 H1. by rewrite (crash_stops s0 H0 H1).
Qed.

Lemma outcome_stands_witness :
  let s := wreck in
  let s' := set_running true wreck in
  (world s' = world s /\ pos (p1 s') = pos (p1 s) /\ pos (p2 s') = pos (p2 s) /\
   winner s' = winner s) /\
  (winner (clickStartPause s) = None /\ running (clickStartPause s) = negb (running s)) /\
  (forall s0, winner s0 = None -> winner (stepOnce s0) <> None -> running (stepOnce s0) = false).
Proof.
  apply (outcome_stands wreck (KeyDown Space)); [discriminate | reflexivity | reflexivity].
Defined.

(** C3 as stated fails: [wreck] is reached with the computer as winner, and
    the Start/Pause button, which is no reset, clears that outcome. *)
Lemma start_button_reopens : ~ terminal_until_reset.
Proof.
  intros H.
  destruct (H wreck ClickStartPause (clickStartPause wreck) wreck_reachable)
    as (_ & _ & _ & Hw); try done.
Qed.

(** The loop installed while the game ran goes on stepping after the
    outcome: from [wreck] an arrow key and one more frame move both players
    under the banner of the computer's win. *)
Remark stale_loop_steps_on :
  exists s', play [KeyDown ArrowUp; Frame 1 560] wreck = Some s' /\
    winner s' = winner wreck /\ winner wreck = Some ComputerWins /\
    pos (p1 wreck) = (0, 10) /\ pos (p1 s') = (0, 9) /\ world s' <> world wreck.
Proof.
  eexists. split; [vm_compute; reflexivity|].
  repeat split; try reflexivity. intros H. apply (f_equal (fun w => w !! 252%nat)) in H.
  vm_compute in H. discriminate.
Qed.

(** ** The step that sets an outcome (C10) *)

(** The game [facing_trace] ends in [facing], *)
Lemma facing_reachable : reachable facing.
Proof.
  apply (play_reachable facing_trace mount); [constructor|]. vm_compute. reflexivity.
Qed.

(** and its next step is the human's crash into the computer's head. *)
Lemma facing_step : stepOnce facing = facing_after.
Proof. vm_compute. reflexivity. Qed.

(** C10, amended.  On the step that sets an outcome the grid, the human
    and the computer's position stay as they were: the step changes the
    running flag, the outcome and the computer's heading, which [aiChoose]
    has set before the collision test. *)
Theorem crash_keeps_board s :
  winner s = None -> winner (stepOnce s) <> None ->
  stepOnce s = set_winner (winner (stepOnce s)) (set_running false (aimed s)) /\
  world (stepOnce s) = world s /\ p1 (stepOnce s) = p1 s /\
  pos (p2 (stepOnce s)) = pos (p2 s) /\
  dir (p2 (stepOnce s)) = aiHeading (cols (arena s)) (rows (arena s)) (world s) (p2 s) /\
  running (stepOnce s) = false.
Proof.
  intros Hw Hs. rewrite (crash_stops s Hw Hs). done.
Qed.

Lemma crash_keeps_board_witness :
  let s := facing in
  stepOnce s = set_winner (winner (stepOnce s)) (set_running false (aimed s)) /\
  world (stepOnce s) = world s /\ p1 (stepOnce s) = p1 s /\
  pos (p2 (stepOnce s)) = pos (p2 s) /\
  dir (p2 (stepOnce s)) = aiHeading (cols (arena s)) (rows (arena s)) (world s) (p2 s) /\
  running (stepOnce s) = false.
Proof.
  apply (crash_keeps_board facing); [reflexivity|]. rewrite facing_step. discriminate.
Defined.

(** C10 as stated fails in [facing], a state reached in play: the human
    runs into the computer's head, the computer wins, and the same step
    has turned the computer from left to down. *)
Lemma crash_turns_computer :
  reachable facing /\ winner facing = None /\
  winner (stepOnce facing) = Some ComputerWins /\
  dir (p2 facing) = (-1, 0) /\ dir (p2 (stepOnce facing)) = (0, 1) /\
  ~ only_flags_change facing.
Proof.
  split; [apply facing_reachable|]. unfold only_flags_change. rewrite facing_step.
  repeat split. intros H. apply (f_equal (fun s => dir (p2 s))) in H. discriminate.
Qed.

(** ** Headings *)

Lemma consider_fst C R w p cur acc d :
  fst (consider C R w p cur acc d) = fst acc \/ fst (consider C R w p cur acc d) = d.
Proof.
  unfold consider. destruct (negb _); [by left|]. destruct (TA.nonzero _ _); [by left|].
  destruct (_ <? _)%float; [by right | by left].
Qed.

Lemma fold_consider_fst C R w p cur l : forall acc,
  let r := fold_left (consider C R w p cur) l acc in
  fst r = fst acc \/ In (fst r) l.
Proof.
  induction l as [|d l IH]; intros acc; simpl; [by left|].
  destruct (IH (consider C R w p cur acc d)) as [H|H].
  - destruct (consider_fst C R w p cur acc d) as [H'|H'].
    + left. by rewrite H.
    + right. left. by rewrite H.
  - right. by right.
Qed.

Lemma emergency_cases C R w p cur best ds :
  emergency C R w p cur best ds = best \/
  (In (emergency C R w p cur best ds) ds /\
   isRev cur (emergency C R w p cur best ds) = false /\
   open C R w p (emergency C R w p cur best ds) = true).
Proof.
  induction ds as [|d ds IH]; simpl; [by left|].
  destruct (isRev cur d) eqn:Hr.
  - destruct IH as [IH|(IH & ? & ?)]; [by left | right; auto].
  - destruct (open C R w p d) eqn:Ho; [right; auto|].
    destruct IH as [IH|(IH & ? & ?)]; [by left | right; auto].
Qed.

Lemma aiHeading_cases C R w p :
  In (aiHeading C R w p) (opts (dir p)) \/
  (In (aiHeading C R w p) dirs /\ isRev (dir p) (aiHeading C R w p) = false).
Proof.
  unfold aiHeading.
  pose proof (fold_consider_fst C R w p (dir p) (opts (dir p)) (dir p, neg_infinity)) as Hf.
  cbv zeta in Hf.
  destruct (fold_left _ _ _) as [best bs]. simpl in Hf.
  assert (Hb : In best (opts (dir p))).
  { destruct Hf as [->|Hf]; [by left | done]. }
  destruct (PrimFloat.eqb bs neg_infinity); [|by left].
  destruct (emergency_cases C R w p (dir p) best dirs) as [->|(Hi & Hr & _)]; [by left|].
  right. by split.
Qed.

Lemma cardinal_opts cur d : cardinal cur -> In d (opts cur) -> cardinal d /\ isRev d cur = false.
Proof.
  unfold cardinal, opts.
  intros [->|[->|[->| ->]]]; simpl; intros [<-|[<-|[<-|[]]]]; split; try reflexivity; tauto.
Qed.

Lemma cardinal_dirs d : In d dirs -> cardinal d.
Proof. unfold cardinal. simpl. intros [<-|[<-|[<-|[<-|[]]]]]; tauto. Qed.

Lemma isRev_sym a b : isRev a b = isRev b a.
Proof.
  unfold isRev. apply eq_true_iff_eq. rewrite !andb_true_iff, !Z.eqb_eq. lia.
Qed.

Lemma aiHeading_cardinal C R w p :
  cardinal (dir p) -> cardinal (aiHeading C R w p) /\ isRev (aiHeading C R w p) (dir p) = false.
Proof.
  intros Hc. destruct (aiHeading_cases C R w p) as [H|[H Hr]].
  - by apply cardinal_opts.
  - split; [by apply cardinal_dirs | by rewrite isRev_sym].
Qed.

Lemma cardinal_not_self_rev d : cardinal d -> isRev d d = false.
Proof. intros [->|[->|[->| ->]]]; reflexivity. Qed.

Lemma stepOnce_dirs s :
  dir (p1 (stepOnce s)) = dir (p1 s) /\
  dir (p2 (stepOnce s)) = aiHeading (cols (arena s)) (rows (arena s)) (world s) (p2 s).
Proof.
  destruct (blocked s (next1 s) || blocked s (next2 s) || vec_eqb (next1 s) (next2 s)) eqn:Hc.
  - by rewrite (stepOnce_crash s Hc).
  - apply orb_false_iff in Hc as [Hc He]. apply orb_false_iff in Hc as [H1 H2].
    by rewrite (stepOnce_commit s H1 H2 He).
Qed.

Lemma steer_dir d s :
  dir (p1 (steer d s)) = (if isRev (dir (p1 s)) d then dir (p1 s) else d) /\
  p2 (steer d s) = p2 s.
Proof. unfold steer. by destruct (isRev _ _). Qed.

Lemma onKey_headings k s : headings_ok s -> headings_ok (onKey k s).
Proof.
  unfold onKey, headings_ok. destruct (negb (active s)); [done|].
  intros [H1 H2].
  destruct k; try done;
    try (destruct (steer_dir (0, -1) s) as [-> ->] || destruct (steer_dir (0, 1) s) as [-> ->]
         || destruct (steer_dir (-1, 0) s) as [-> ->] || destruct (steer_dir (1, 0) s) as [-> ->]).
  all: try (split; [|done]; destruct (isRev _ _); [done|unfold cardinal; tauto]).
  simpl. unfold cardinal. tauto.
Qed.

Lemma keys_headings ks : forall s,
  headings_ok s -> headings_ok (fold_left (fun s k => onKey k s) ks s).
Proof. induction ks as [|k ks IH]; intros s Hs; simpl; [done|]. apply IH. by apply onKey_headings. Qed.

Lemma steer_dir' d s :
  dir (p1 (steer d s)) = (if negb (isRev (dir (p1 s)) d) then d else dir (p1 s)).
Proof. unfold steer. by destruct (negb _). Qed.

Lemma onKey_arrow k d s :
  arrow k = Some d ->
  dir (p1 (onKey k s)) =
    (if active s && negb (isRev (dir (p1 s)) d) then d else dir (p1 s)).
Proof.
  unfold onKey. destruct (active s); simpl; [|done].
  destruct k; intros [= <-]; apply steer_dir'.
Qed.


(** ** The two heads never aim at one cell in play *)

Section Invariant.
Variable P : tron -> Prop.
Hypothesis P_build : forall a s, P (build a s).
Hypothesis P_reset : forall s, P (reset s).
Hypothesis P_step : forall s, P s -> P (stepOnce s).
Hypothesis P_steer : forall d s, cardinal d -> P s -> P (steer d s).
Hypothesis P_running : forall b s, P s -> P (set_running b s).
Hypothesis P_winner : forall w s, P s -> P (set_winner w s).
Hypothesis P_speed : forall n s, P s -> P (set_speed n s).
Hypothesis P_active : forall b s, P s -> P (set_active b s).
Hypothesis P_accum : forall s a, P s -> P (set_accum a s).
Hypothesis P_lastT : forall s t, P s -> P (set_lastT t s).

Lemma handle_invariant e s s' : handle e s = Some s' -> P s -> P s'.
Proof.
  destruct e as [k| | |a|n| | | |fuel t]; simpl.
  - intros [= <-] Hs. unfold onKey. destruct (negb (active s)); [done|].
    destruct k; try done; try (apply P_steer; [unfold cardinal; tauto|done]);
      try (by apply P_running); try apply P_reset.
  - intros [= <-] Hs. by apply P_running, P_winner.
  - intros [= <-] _. apply P_reset.
  - intros [= <-] Hs. unfold setArena. destruct (arena_eqb _ _); [done|]. apply P_build.
  - destruct (_ && _); [|discriminate]. intros [= <-] Hs. by apply P_speed.
  - intros [= <-] Hs. by apply P_active.
  - intros [= <-] Hs. by apply P_active.
  - intros [= <-] Hs. by apply P_active.
  - by apply loop_preserves.
Qed.

Lemma reachable_invariant s : reachable s -> P s.
Proof.
  induction 1 as [|e s s' _ IH He]; [apply P_build|]. exact (handle_invariant e s s' He IH).
Qed.
End Invariant.

Lemma cardinal_sum d : cardinal d -> fst d + snd d = 1 \/ fst d + snd d = -1.
Proof. intros [->|[->|[->| ->]]]; simpl; lia. Qed.

Lemma stepOnce_apart s : apart s -> apart (stepOnce s).
Proof.
  intros [[k Hp] [H1 H2]].
  destruct (stepOnce_dirs s) as [D1 D2].
  destruct (aiHeading_cardinal (cols (arena s)) (rows (arena s)) (world s) (p2 s) H2) as [A _].
  split; [|split; [by rewrite D1 | by rewrite D2]].
  destruct (blocked s (next1 s) || blocked s (next2 s) || vec_eqb (next1 s) (next2 s)) eqn:Hc.
  - rewrite (stepOnce_crash s Hc). by exists k.
  - apply orb_false_iff in Hc as [Hc He]. apply orb_false_iff in Hc as [B1 B2].
    rewrite (stepOnce_commit s B1 B2 He). unfold next1, next2. simpl.
    destruct (cardinal_sum _ H1), (cardinal_sum _ A);
      [exists (k + 1) | exists k | exists k | exists (k - 1)]; lia.
Qed.

Lemma build_apart a s : apart (build a s).
Proof.
  unfold apart, headings_ok, cardinal.
  destruct a; (split; [|simpl; tauto]); [by exists 23 | by exists 30 | by exists 39].
Qed.

Lemma reset_apart s : apart (reset s).
Proof.
  unfold apart, headings_ok, cardinal. simpl.
  destruct (arena s); (split; [|simpl; tauto]); [by exists 23 | by exists 30 | by exists 39].
Qed.

Lemma reachable_apart s : reachable s -> apart s.
Proof.
  apply reachable_invariant; try done.
  - apply build_apart.
  - apply reset_apart.
  - apply stepOnce_apart.
  - intros d s0 Hd [Hp [H1 H2]]. unfold steer. destruct (negb _); [|done].
    split; [done|]. split; [done|done].
Qed.

(** In play the two candidate cells are never one cell: the heads start an
    odd number of cells apart and both move one cell in every step made. *)
Remark reachable_candidates_differ s : reachable s -> next1 s <> next2 s.
Proof.
  intros [[k Hp] [H1 H2]]%reachable_apart.
  destruct (aiHeading_cardinal (cols (arena s)) (rows (arena s)) (world s) (p2 s) H2) as [A _].
  unfold next1, next2. intros [= Ex Ey].
  pose proof (cardinal_sum _ H1). pose proof (cardinal_sum _ A). lia.
Qed.

(** ** No reversal *)

Lemma commits_true s :
  commits s = true ->
  blocked s (next1 s) = false /\ blocked s (next2 s) = false /\ next1 s <> next2 s.
Proof.
  unfold commits. rewrite negb_true_iff, !orb_false_iff. intros [[H1 H2] He].
  split; [done|]. split; [done|]. intros E. apply vec_eqb_eq in E. congruence.
Qed.

Lemma stepOnce_marked s : marked s -> marked (stepOnce s).
Proof.
  intros Hm. destruct (commits s) eqn:Hc.
  - apply commits_true in Hc as (H1 & H2 & Hne).
    destruct (commit_marks s H1 H2 Hne) as (_ & _ & (Hp & _ & Hc1 & _)).
    exists 1. unfold pos. rewrite Hp. by split.
  - unfold commits in Hc. apply negb_false_iff in Hc. by rewrite (stepOnce_crash s Hc).
Qed.

Lemma reachable_marked s : reachable s -> marked s.
Proof.
  apply reachable_invariant; try done.
  - intros a s0. exists 1. by destruct a.
  - intros s0. exists 1. unfold cell. simpl. by destruct (arena s0).
  - apply stepOnce_marked.
  - intros d s0 _ Hm. unfold steer. by destruct (negb _).
Qed.

Lemma onKey_board k s :
  k <> Enter ->
  world (onKey k s) = world s /\ arena (onKey k s) = arena s /\
  pos (p1 (onKey k s)) = pos (p1 s) /\ p2 (onKey k s) = p2 s.
Proof.
  intros Hk. unfold onKey. destruct (negb (active s)); [done|].
  destruct k; try done; unfold steer; by destruct (negb _).
Qed.

Lemma press_board ks : forall s,
  Forall (fun k => k <> Enter) ks ->
  world (press ks s) = world s /\ arena (press ks s) = arena s /\
  pos (p1 (press ks s)) = pos (p1 s) /\ p2 (press ks s) = p2 s.
Proof.
  induction ks as [|k ks IH]; intros s Hks; [done|].
  apply Forall_cons in Hks as [Hk Hks]. simpl.
  destruct (IH (onKey k s) Hks) as (-> & -> & -> & ->). by apply onKey_board.
Qed.

(** A human that has turned round since its last move runs into its own trail. *)
Lemma turned_round_blocked ks s :
  marked s -> commits s = true -> Forall (fun k => k <> Enter) ks ->
  let s1 := press ks (stepOnce s) in
  isRev (dir (p1 s1)) (dir (p1 s)) = true -> commits s1 = false.
Proof.
  intros (v & Hv & Hv0) Hc Hks s1 Hr.
  destruct (press_board ks (stepOnce s) Hks) as (Hw & Ha & Hp & _). fold s1 in Hw, Ha, Hp.
  apply commits_true in Hc as (H1 & H2 & Hne).
  destruct (commit_marks s H1 H2 Hne) as (_ & _ & (Hp1 & _)).
  unfold isRev in Hr. apply andb_true_iff in Hr as [Hx%Z.eqb_eq Hy%Z.eqb_eq].
  assert (E : next1 s1 = pos (p1 s)).
  { unfold next1, pos in *. injection Hp as -> ->. unfold next1 in Hp1. injection Hp1 as -> ->.
    f_equal; lia. }
  assert (Hb : blocked s1 (next1 s1) = true).
  { rewrite E. unfold blocked. rewrite Hw, Ha, stepOnce_arena. apply orb_true_iff. right.
    unfold cell in Hv. unfold TA.nonzero.
    rewrite (stepOnce_keeps s _ v Hv Hv0). by apply negb_true_iff, Z.eqb_neq. }
  unfold commits. by rewrite Hb.
Qed.

(** What does hold.  In every step each player moves with a heading that
    is not the reverse of the heading it has when the step begins.  Nor is
    it, in a committed step, the reverse of the heading the player moved
    with in the committed step before, whatever keys were pressed between
    the two: a human turned round by two key presses runs into its own
    trail.  An arrow key is accepted exactly when it is not the reverse of
    the heading at the time of the key press. *)
Lemma no_reverse (ks : list key) (s : tron) :
  reachable s -> Forall (fun k => k <> Enter) ks ->
  (isRev (dir (p1 (stepOnce s))) (dir (p1 s)) = false /\
   isRev (dir (p2 (stepOnce s))) (dir (p2 s)) = false) /\
  (let s1 := press ks (stepOnce s) in
   commits s = true -> commits s1 = true ->
   isRev (dir (p1 s1)) (dir (p1 s)) = false /\
   isRev (dir (p2 (stepOnce s1))) (dir (p2 (stepOnce s))) = false) /\
  (forall k d, arrow k = Some d ->
     dir (p1 (onKey k s)) = (if active s && negb (isRev (dir (p1 s)) d) then d else dir (p1 s)) /\
     isRev (dir (p1 (onKey k s))) (dir (p1 s)) = false).
Proof.
  intros Hs Hks. destruct (reachable_apart s Hs) as [_ [H1 H2]].
  pose proof (reachable_marked s Hs) as Hm.
  destruct (stepOnce_dirs s) as [E1 E2].
  destruct (aiHeading_cardinal (cols (arena s)) (rows (arena s)) (world s) (p2 s) H2) as [A1 A2].
  split; [|split].
  - rewrite E1, E2. split; [by apply cardinal_not_self_rev | done].
  - intros s1 Hc Hc1. split.
    + destruct (isRev (dir (p1 s1)) (dir (p1 s))) eqn:Hr; [|done].
      pose proof (turned_round_blocked ks s Hm Hc Hks Hr) as Hn. fold s1 in Hn. congruence.
    + destruct (press_board ks (stepOnce s) Hks) as (_ & _ & _ & Hp). fold s1 in Hp.
      destruct (stepOnce_dirs s1) as [_ ->]. rewrite Hp.
      apply aiHeading_cardinal. by rewrite E2.
  - intros k d Hk. split; [by apply onKey_arrow|].
    rewrite (onKey_arrow k d s Hk). destruct (active s); simpl; [|by apply cardinal_not_self_rev].
    destruct (isRev (dir (p1 s)) d) eqn:Hr; simpl; [by apply cardinal_not_self_rev|].
    by rewrite isRev_sym.
Qed.

(** Two key presses between two steps do turn the human's heading round:
    in [wreck] the human has moved left; after Down and Right it heads
    right, into the cell it came from, and the step is not committed. *)
Remark two_inputs_turn_round :
  let s := press [ArrowDown; ArrowRight] wreck in
  dir (p1 wreck) = (-1, 0) /\ dir (p1 s) = (1, 0) /\
  blocked s (next1 s) = true /\ commits s = false.
Proof. repeat split; reflexivity. Qed.

(** The state [kickoff] is one the component reaches, *)
Lemma kickoff_reachable : reachable kickoff.
Proof.
  apply (play_reachable kickoff_trace mount); [constructor|]. vm_compute. reflexivity.
Qed.

(** and after the keys Up and Left its first step ends in [kickoff_turned]. *)
Lemma kickoff_step : stepOnce (press [ArrowUp; ArrowLeft] kickoff) = kickoff_turned.
Proof. vm_compute. reflexivity. Qed.

Lemma winner_commits s : winner (stepOnce s) = None -> commits s = true.
Proof.
  intros Hw. unfold commits.
  destruct (blocked s (next1 s) || blocked s (next2 s) || vec_eqb (next1 s) (next2 s)) eqn:Hc;
    [|done].
  rewrite (stepOnce_crash s Hc) in Hw. discriminate.
Qed.

(** C4.  The first step of a match can move the human with the reverse
    of its heading.  In [kickoff] the human stands on (2,10) and heads
    right, and no step has been made: the cell (1,10) behind it is free.  The keys Up and Left, pressed before
    the first step, are both accepted, each against the heading at the time
    of the key press, and leave the human heading left.  The step that
    follows is committed: no outcome is set and the human moves to (1,10),
    with the exact negation of the heading it had before the two keys.
    The same happens through the frame loop. *)
Theorem first_step_turns_round :
  let s := press [ArrowUp; ArrowLeft] kickoff in
  reachable kickoff /\
  pos (p1 kickoff) = (2, 10) /\ dir (p1 kickoff) = (1, 0) /\
  dir (p1 (onKey ArrowUp kickoff)) = (0, -1) /\ dir (p1 s) = (-1, 0) /\
  commits s = true /\ winner (stepOnce s) = None /\
  pos (p1 (stepOnce s)) = (1, 10) /\ dir (p1 (stepOnce s)) = (-1, 0) /\
  isRev (dir (p1 (stepOnce s))) (dir (p1 kickoff)) = true /\
  exists s', play [KeyDown ArrowUp; KeyDown ArrowLeft; Frame 0 16; Frame 1 216] kickoff = Some s' /\
    pos (p1 s') = (1, 10) /\ dir (p1 s') = (-1, 0) /\ winner s' = None.
Proof.
  intros s. subst s.
  split; [apply kickoff_reachable|].
  do 4 (split; [reflexivity|]).
  split; [apply winner_commits; rewrite kickoff_step; reflexivity|].
  rewrite kickoff_step. do 4 (split; [reflexivity|]).
  eexists. split; [vm_compute; reflexivity|]. repeat split; reflexivity.
Qed.

(** ** The flood fill *)

Import Flood.

Lemma freeb_free C R w c : freeb C R w c = true <-> free C R w c.
Proof.
  unfold freeb, free. rewrite andb_true_iff, negb_true_iff, nonzero_false, inb_true. tauto.
Qed.



(** ** The loop counts its iterations *)

Lemma push_counters sx sy w C R cx cy s :
  qs (push sx sy w C R cx cy s) = qs s /\ count (push sx sy w C R cx cy s) = count s.
Proof.
  unfold push. destruct (_ || _); [done|]. destruct (TA.truthy _ _); [done|].
  by destruct (_ && _).
Qed.

Lemma body_counters sx sy w C R s :
  qs (body sx sy w C R s) = qs s + 1 /\ count (body sx sy w C R s) = count s + 1.
Proof.
  unfold body.
  repeat (match goal with
          | |- context [push ?a ?b ?c ?d ?e ?f ?g ?h] =>
              destruct (push_counters a b c d e f g h) as [-> ->]
          end).
  done.
Qed.

Lemma iter_counters sx sy w C R lim fuel : forall s,
  count s = qs s -> count s <= lim ->
  let s' := iter sx sy w C R lim fuel s in
  count s' = qs s' /\ count s' <= lim /\
  (lim - count s <= Z.of_nat fuel -> guard lim s' = false).
Proof.
  induction fuel as [|fuel IH]; intros s Hq Hl; simpl.
  - split; [done|]. split; [done|]. intros H. unfold guard.
    destruct (Z.ltb_spec (count s) lim); [lia|]. by rewrite andb_false_r.
  - destruct (guard lim s) eqn:Hg; [|done].
    destruct (body_counters sx sy w C R s) as [Eq Ec].
    unfold guard in Hg. apply andb_true_iff in Hg as [_ Hg%Z.ltb_lt].
    destruct (IH (body sx sy w C R s)) as (H1 & H2 & H3); [lia..|].
    split; [done|]. split; [done|]. intros H. apply H3. lia.
Qed.

Lemma init_counters sx sy w C R :
  qs (init sx sy w C R) = 0 /\ count (init sx sy w C R) = 0.
Proof.
  unfold init. fold (blank C R).
  by destruct (push_counters sx sy w C R sx sy (blank C R)) as [-> ->].
Qed.

Section FloodFacts.
Variables (sx sy : Z) (world : list Z) (C R : Z).
Hypothesis HC : 0 < C < 32768.
Hypothesis HR : 0 < R < 32768.
Hypothesis start_free : free C R world (sx, sy).

#[local] Abbreviation push := (Flood.push sx sy world C R).
#[local] Abbreviation isfree := (freeb C R world).
#[local] Abbreviation takes := (accepts C R world).
#[local] Abbreviation key := (fun c : vec => idx C (fst c) (snd c)).
#[local] Abbreviation start := (sx, sy).
#[local] Abbreviation core := (core C R world).
#[local] Abbreviation inv := (inv C R world (sx, sy)).
#[local] Abbreviation blank := (blank C R).

Lemma push_eq c s :
  push (fst c) (snd c) s = if takes s c then enq C c s else s.
Proof.
  unfold Flood.push, accepts, freeb, inb, enq, idx.
  destruct (Z.ltb_spec (fst c) 0), (Z.leb_spec C (fst c)), (Z.ltb_spec (snd c) 0),
    (Z.leb_spec R (snd c)), (Z.leb_spec 0 (fst c)), (Z.ltb_spec (fst c) C),
    (Z.leb_spec 0 (snd c)), (Z.ltb_spec (snd c) R); simpl; try lia; try reflexivity.
  destruct (TA.truthy _ _); simpl; [by rewrite andb_false_r|]. rewrite andb_true_r.
  destruct (TA.nonzero world _) eqn:Hn; simpl; [|reflexivity].
  destruct (Z.eqb_spec (fst c) sx), (Z.eqb_spec (snd c) sy); simpl; try reflexivity.
  exfalso. destruct start_free as [_ Hz]. apply nonzero_false in Hz.
  simpl in Hz. subst. unfold idx in Hz. congruence.
Qed.

Lemma rd_set_i16_eq (a : list Z) k v :
  0 <= k < Z.of_nat (length a) -> 0 <= v < 32768 -> rd (TA.set_i16 a k v) k = v.
Proof.
  intros Hk Hv. unfold rd, TA.get, TA.set_i16.
  destruct (Z.ltb_spec k 0); [lia|].
  rewrite list_lookup_insert_eq by lia. unfold TA.toInt16.
  rewrite Z.mod_small by lia. lia.
Qed.

Lemma rd_set_i16_ne (a : list Z) k k' v :
  k <> k' -> rd (TA.set_i16 a k v) k' = rd a k'.
Proof.
  intros Hk. unfold rd, TA.get, TA.set_i16.
  destruct (Z.ltb_spec k' 0); [done|].
  destruct (Z.ltb_spec k 0); [done|].
  rewrite list_lookup_insert_ne by lia. done.
Qed.

Lemma length_set_i16 (a : list Z) k v : length (TA.set_i16 a k v) = length a.
Proof. unfold TA.set_i16. destruct (k <? 0); [done|]. apply length_insert. Qed.

Lemma truthy_set_u8 (a : list Z) k k' :
  0 <= k < Z.of_nat (length a) ->
  TA.truthy (TA.set_u8 a k 1) k' = (k' =? k) || TA.truthy a k'.
Proof.
  intros Hk. unfold TA.truthy. destruct (Z.eqb_spec k' k) as [->|Hne]; simpl.
  - by rewrite get_set_u8_eq.
  - by rewrite get_set_u8_ne.
Qed.

Lemma length_queue s : length (queue s) = Z.to_nat (qe s).
Proof. unfold queue. by rewrite length_fmap, length_seq. Qed.

Lemma queue_enq c s :
  0 <= qe s -> qe s < Z.of_nat (length (qx s)) -> qe s < Z.of_nat (length (qy s)) ->
  inb C R (fst c) (snd c) = true ->
  queue (enq C c s) = queue s ++ [c].
Proof.
  intros H0 Hx Hy Hin. apply inb_true in Hin. unfold queue, enq. simpl.
  replace (Z.to_nat (qe s + 1)) with (S (Z.to_nat (qe s))) by lia.
  rewrite seq_S, fmap_app. simpl. f_equal.
  - apply list_fmap_ext. intros i j Hj. apply lookup_seq in Hj as [-> Hj]. simpl.
    rewrite !rd_set_i16_ne by lia. done.
  - rewrite Z2Nat.id by lia. rewrite !rd_set_i16_eq by lia. by destruct c.
Qed.

Lemma isfree_inb c : isfree c = true -> inb C R (fst c) (snd c) = true.
Proof. unfold freeb. by intros [? _]%andb_true_iff. Qed.

(** No more distinct cells than the grid has. *)
Lemma cells_bounded (l : list vec) :
  NoDup l -> (forall c, c ∈ l -> inb C R (fst c) (snd c) = true) ->
  Z.of_nat (length l) <= C * R.
Proof.
  intros Hnd Hin.
  assert (Hk : NoDup ((fun c => Z.to_nat (key c)) <$> l)).
  { apply NoDup_fmap_2_strong; [|done]. intros a b Ha Hb E.
    pose proof (idx_range _ _ _ _ (Hin _ Ha)). pose proof (idx_range _ _ _ _ (Hin _ Hb)).
    destruct (idx_inj C R _ _ _ _ (Hin _ Ha) (Hin _ Hb)) as [? ?]; [lia|].
    destruct a, b; simpl in *; congruence. }
  assert (Hs : (fun c => Z.to_nat (key c)) <$> l ⊆+ seq 0 (Z.to_nat (C * R))).
  { apply NoDup_submseteq; [done|]. intros k [c [-> Hc]]%list_elem_of_fmap.
    pose proof (idx_range _ _ _ _ (Hin _ Hc)). apply elem_of_seq. lia. }
  apply submseteq_length in Hs. rewrite length_fmap, length_seq in Hs. lia.
Qed.

Lemma takes_spec s c : core s -> takes s c = true <-> isfree c = true /\ c ∉ queue s.
Proof.
  intros Hs. unfold accepts. rewrite andb_true_iff, negb_true_iff. split.
  - intros [Hf Ht]. split; [done|]. intros Hq.
    apply (c_seen Hs c (isfree_inb c Hf)) in Hq. congruence.
  - intros [Hf Hq]. split; [done|]. apply not_true_is_false. intros Ht. apply Hq.
    by apply (c_seen Hs c (isfree_inb c Hf)).
Qed.

Lemma core_enq s c : core s -> takes s c = true -> core (enq C c s) /\ queue (enq C c s) = queue s ++ [c].
Proof.
  intros Hs Ht. apply (takes_spec s c Hs) in Ht as [Hf Hq].
  pose proof (isfree_inb c Hf) as Hin.
  assert (Hnd : NoDup (queue s ++ [c])).
  { apply NoDup_app. split; [apply (c_nodup Hs)|]. split; [|apply NoDup_singleton].
    intros a Ha ->%list_elem_of_singleton. done. }
  assert (Hcap : Z.of_nat (length (queue s ++ [c])) <= C * R).
  { apply cells_bounded; [done|]. intros a [Ha| ->%list_elem_of_singleton]%elem_of_app; [|done].
    apply isfree_inb. by apply (c_free Hs). }
  rewrite length_app, length_queue in Hcap. simpl in Hcap.
  pose proof (c_qe Hs) as Hqe. pose proof (c_lenx Hs). pose proof (c_leny Hs).
  pose proof (c_lens Hs).
  assert (Hq' : queue (enq C c s) = queue s ++ [c]) by (apply queue_enq; [lia..|done]).
  split; [|done]. split; simpl; rewrite ?length_set_i16, ?length_set_u8, ?Hq'; try done; try lia.
  - intros a [Ha| ->%list_elem_of_singleton]%elem_of_app; [by apply (c_free Hs)|done].
  - intros a Ha. pose proof (idx_range _ _ _ _ Hin).
    rewrite truthy_set_u8 by lia. rewrite orb_true_iff, elem_of_app, list_elem_of_singleton.
    rewrite (c_seen Hs a Ha), Z.eqb_eq. split.
    + intros [E|E]; [right|by left].
      destruct (idx_inj C R _ _ _ _ Ha Hin E). destruct a, c; simpl in *; congruence.
    + intros [E|E]; [by right|left]. by subst.
Qed.

Lemma core_push s c :
  core s ->
  core (push (fst c) (snd c) s) /\
  queue (push (fst c) (snd c) s) = (if takes s c then queue s ++ [c] else queue s) /\
  qs (push (fst c) (snd c) s) = qs s /\ count (push (fst c) (snd c) s) = count s.
Proof.
  intros Hs. rewrite push_eq. destruct (takes s c) eqn:Ht; [|done].
  destruct (core_enq s c Hs Ht). done.
Qed.

(** After [push], a free cell is in the queue, and the queue has only grown. *)
Lemma push_covers s c :
  core s -> isfree c = true -> c ∈ queue (push (fst c) (snd c) s).
Proof.
  intros Hs Hf. destruct (core_push s c Hs) as (_ & -> & _).
  destruct (takes s c) eqn:Ht.
  - apply elem_of_app. right. by apply list_elem_of_singleton.
  - destruct (decide (c ∈ queue s)) as [|Hn]; [done|].
    assert (takes s c = true) by (by apply takes_spec). congruence.
Qed.

Lemma push_prefix s c : core s -> queue s `prefix_of` queue (push (fst c) (snd c) s).
Proof.
  intros Hs. destruct (core_push s c Hs) as (_ & -> & _).
  destruct (takes s c); [by apply prefix_app_r | done].
Qed.


Lemma truthy_make n k : TA.truthy (TA.make n) k = false.
Proof.
  unfold TA.truthy, TA.get, TA.make. destruct (k <? 0); [done|].
  destruct (replicate _ _ !! _) as [v|] eqn:E; [|done].
  apply lookup_replicate in E as [-> _]. done.
Qed.

Lemma core_blank : core blank.
Proof.
  assert (0 < C * R) by nia.
  split; simpl; try (unfold TA.make; rewrite length_replicate; lia); try lia.
  - intros c Hc. by apply elem_of_nil in Hc.
  - constructor.
  - intros c _. rewrite truthy_make. split; [done|]. intros Hc. by apply elem_of_nil in Hc.
Qed.

Lemma start_isfree : isfree start = true.
Proof. by apply freeb_free. Qed.

Lemma inv_init : inv (Flood.init sx sy world C R).
Proof.
  unfold Flood.init. fold blank.
  destruct (core_push blank start core_blank) as (Hc & Hq & Hqs & Hcnt).
  simpl in Hc, Hq, Hqs, Hcnt.
  assert (Ht : takes blank start = true).
  { apply takes_spec; [apply core_blank|]. split; [apply start_isfree|]. apply not_elem_of_nil. }
  rewrite Ht in Hq. change (queue blank) with (@nil vec) in Hq. simpl in Hq.
  pose proof (push_eq start blank) as Hp. rewrite Ht in Hp. simpl in Hp.
  split; rewrite ?Hq, ?Hqs, ?Hcnt; try done.
  - rewrite Hp. simpl. lia.
  - intros c ->%list_elem_of_singleton. by constructor.
  - simpl. lia.
  - by apply list_elem_of_singleton.
Qed.

Lemma core_taken s : core s -> core (taken s).
Proof. intros [? ? ? ? ? ? ?]. by split. Qed.

Lemma queue_head s :
  0 <= qs s < qe s ->
  queue s !! Z.to_nat (qs s) = Some (rd (qx s) (qs s), rd (qy s) (qs s)).
Proof.
  intros H. unfold queue. rewrite list_lookup_fmap.
  rewrite (proj2 (lookup_seq 0 _ (Z.to_nat (qs s)) (Z.to_nat (qs s)))) by lia.
  simpl. by rewrite Z2Nat.id by lia.
Qed.

(** One [push] of a neighbour of a queued cell. *)
Lemma reach_push s c b :
  core s -> (forall a, a ∈ queue s -> reach C R world start a) ->
  c ∈ queue s -> adjacent c b ->
  forall a, a ∈ queue (push (fst b) (snd b) s) -> reach C R world start a.
Proof.
  intros Hs Hr Hc Hadj a. destruct (core_push s b Hs) as (_ & -> & _).
  destruct (takes s b) eqn:Ht; [|by apply Hr].
  intros [Ha| ->%list_elem_of_singleton]%elem_of_app; [by apply Hr|].
  apply (takes_spec s b Hs) in Ht as [Hf _].
  apply (reach_next _ _ _ _ c); [by apply Hr | done | by apply freeb_free].
Qed.

Lemma inv_body s : inv s -> qs s < qe s -> inv (Flood.body sx sy world C R s).
Proof.
  intros Hs Hg. unfold Flood.body. fold (taken s).
  set (c := (rd (qx s) (qs s), rd (qy s) (qs s))).
  pose proof (i_qs Hs) as Hqs.
  assert (Hc : queue s !! Z.to_nat (qs s) = Some c) by (apply queue_head; lia).
  assert (Hcin : c ∈ queue s) by (apply list_elem_of_lookup; eauto).
  change (rd (qx s) (qs s)) with (fst c). change (rd (qy s) (qs s)) with (snd c).
  set (b1 := (fst c + 1, snd c)). set (b2 := (fst c - 1, snd c)).
  set (b3 := (fst c, snd c + 1)). set (b4 := (fst c, snd c - 1)).
  change (push (fst c + 1) (snd c)) with (push (fst b1) (snd b1)).
  change (push (fst c - 1) (snd c)) with (push (fst b2) (snd b2)).
  change (push (fst c) (snd c + 1)) with (push (fst b3) (snd b3)).
  change (push (fst c) (snd c - 1)) with (push (fst b4) (snd b4)).
  set (s0 := taken s).
  set (s1 := push (fst b1) (snd b1) s0). set (s2 := push (fst b2) (snd b2) s1).
  set (s3 := push (fst b3) (snd b3) s2). set (s4 := push (fst b4) (snd b4) s3).
  assert (K0 : core s0) by apply core_taken, Hs.
  destruct (core_push s0 b1 K0) as (K1 & _ & Q1 & N1). fold s1 in K1, Q1, N1.
  destruct (core_push s1 b2 K1) as (K2 & _ & Q2 & N2). fold s2 in K2, Q2, N2.
  destruct (core_push s2 b3 K2) as (K3 & _ & Q3 & N3). fold s3 in K3, Q3, N3.
  destruct (core_push s3 b4 K3) as (K4 & _ & Q4 & N4). fold s4 in K4, Q4, N4.
  pose proof (push_prefix s0 b1 K0) as P1. fold s1 in P1.
  pose proof (push_prefix s1 b2 K1) as P2. fold s2 in P2.
  pose proof (push_prefix s2 b3 K2) as P3. fold s3 in P3.
  pose proof (push_prefix s3 b4 K3) as P4. fold s4 in P4.
  change (queue s0) with (queue s) in *.
  assert (P02 : queue s `prefix_of` queue s2) by (etrans; eauto).
  assert (P03 : queue s `prefix_of` queue s3) by (etrans; eauto).
  assert (P04 : queue s `prefix_of` queue s4) by (etrans; eauto).
  assert (P14 : queue s1 `prefix_of` queue s4) by (etrans; [|exact P4]; etrans; eauto).
  assert (P24 : queue s2 `prefix_of` queue s4) by (etrans; eauto).
  assert (R1 : forall a, a ∈ queue s1 -> reach C R world start a).
  { apply (reach_push s0 c b1 K0 (i_reach Hs) Hcin). by left. }
  assert (R2 : forall a, a ∈ queue s2 -> reach C R world start a).
  { apply (reach_push s1 c b2 K1 R1); [by apply (elem_of_prefix (queue s))|]. right; by left. }
  assert (R3 : forall a, a ∈ queue s3 -> reach C R world start a).
  { apply (reach_push s2 c b3 K2 R2); [by apply (elem_of_prefix (queue s))|].
    right; right; by left. }
  assert (R4 : forall a, a ∈ queue s4 -> reach C R world start a).
  { apply (reach_push s3 c b4 K3 R3); [by apply (elem_of_prefix (queue s))|].
    right; right; by right. }
  assert (Eqs : qs s4 = qs s + 1) by (rewrite Q4, Q3, Q2, Q1; done).
  assert (Ecnt : count s4 = count s + 1) by (rewrite N4, N3, N2, N1; done).
  assert (Hlen : Z.of_nat (length (queue s4)) = qe s4).
  { rewrite length_queue. pose proof (c_qe K4). lia. }
  assert (Hlen0 : Z.of_nat (length (queue s)) = qe s).
  { rewrite length_queue. lia. }
  split; try done.
  - rewrite Eqs. apply prefix_length in P04. lia.
  - rewrite Ecnt, Eqs. by rewrite (i_count Hs).
  - intros i a b Hi Ha Hadj Hf. rewrite Eqs in Hi.
    destruct (decide (i = Z.to_nat (qs s))) as [->|Hne].
    + assert (a = c) as ->.
      { pose proof (prefix_lookup_Some _ _ _ _ Hc P04) as Hc'.
        assert (E : Some a = Some c) by (rewrite <- Ha; exact Hc'). by injection E. }
      destruct Hadj as [->|[->|[->| ->]]].
      * apply (elem_of_prefix (queue s1)); [|done]. by apply push_covers.
      * apply (elem_of_prefix (queue s2)); [|done]. by apply push_covers.
      * apply (elem_of_prefix (queue s3)); [|done]. by apply push_covers.
      * by apply push_covers.
    + assert (Hi' : (i < Z.to_nat (qs s))%nat) by lia.
      assert (Ha' : queue s !! i = Some a).
      { destruct (lookup_lt_is_Some_2 (queue s) i) as [a' Ha']; [lia|].
        pose proof (prefix_lookup_Some _ _ _ _ Ha' P04) as Hb.
        assert (E : Some a = Some a') by (rewrite <- Ha; exact Hb). by injection E as ->. }
      apply (elem_of_prefix (queue s)); [|done].
      by apply (i_closed Hs i a b).
  - apply (elem_of_prefix (queue s)); [|done]. apply (i_start Hs).
Qed.

Lemma inv_iter lim fuel : forall s, inv s -> inv (iter sx sy world C R lim fuel s).
Proof.
  induction fuel as [|fuel IH]; intros s Hs; simpl; [done|].
  destruct (guard lim s) eqn:Hg; [|done].
  apply IH, inv_body; [done|]. unfold guard in Hg.
  by apply andb_true_iff in Hg as [Hg%Z.ltb_lt _].
Qed.

(** When the queue has run empty it lists what can be reached. *)
Lemma drained_complete s :
  inv s -> qs s = qe s -> forall c, reach C R world start c -> c ∈ queue s.
Proof.
  intros Hs He c Hc. induction Hc as [|a b _ IH Hadj Hf]; [apply (i_start Hs)|].
  apply list_elem_of_lookup in IH as [i Hi].
  apply (i_closed Hs i a b); [|done|done|by apply freeb_free].
  apply lookup_lt_Some in Hi. rewrite length_queue in Hi. lia.
Qed.

Lemma queue_bounded s : inv s -> qe s <= C * R.
Proof.
  intros Hs. pose proof (c_qe (i_core Hs)).
  pose proof (cells_bounded (queue s) (c_nodup (i_core Hs))) as Hb.
  rewrite length_queue in Hb. rewrite <- (Z2Nat.id (qe s)) by lia. apply Hb.
  intros c Hc. apply isfree_inb. by apply (c_free (i_core Hs)).
Qed.

(** The cells reachable from the start can be listed. *)
Lemma reach_listing :
  exists cells : list vec, NoDup cells /\ forall c, c ∈ cells <-> reach C R world start c.
Proof.
  set (s := iter sx sy world C R (C * R) (Z.to_nat (C * R)) (init sx sy world C R)).
  assert (Hs : inv s) by apply inv_iter, inv_init.
  assert (0 < C * R) by nia.
  destruct (iter_counters sx sy world C R (C * R) (Z.to_nat (C * R)) (init sx sy world C R))
    as (Hc & Hl & Hg).
  { by rewrite (i_count inv_init). }
  { rewrite (i_count inv_init). pose proof (queue_bounded _ inv_init).
    pose proof (i_qs inv_init). lia. }
  fold s in Hc, Hl, Hg.
  assert (He : qs s = qe s).
  { pose proof (i_qs Hs). pose proof (queue_bounded s Hs).
    assert (G : guard (C * R) s = false).
    { apply Hg. pose proof (i_qs inv_init). rewrite (i_count inv_init). lia. }
    unfold guard in G. apply andb_false_iff in G as [G%Z.ltb_ge|G%Z.ltb_ge]; lia. }
  exists (queue s). split; [apply (c_nodup (i_core Hs))|].
  intros c. split; [apply (i_reach Hs) | apply (drained_complete s Hs He)].
Qed.


(** The count of [floodScore]: the number of reachable cells, capped. *)
Lemma count_run :
  exists cells : list vec,
    NoDup cells /\ (forall c, c ∈ cells <-> reach C R world start c) /\
    count (run sx sy world C R) = Z.min (Z.min (C * R) 600) (Z.of_nat (length cells)).
Proof.
  destruct reach_listing as (cells & Hnd & Hcells). exists cells. split; [done|]. split; [done|].
  unfold run. fold (LIMIT C R). set (lim := LIMIT C R).
  set (s := iter sx sy world C R lim (Z.to_nat lim) (init sx sy world C R)).
  assert (Hs : inv s) by apply inv_iter, inv_init.
  assert (0 < lim) by (unfold lim, LIMIT; nia).
  destruct (init_counters sx sy world C R) as [I1 I2].
  destruct (iter_counters sx sy world C R lim (Z.to_nat lim) (init sx sy world C R))
    as (Hc & Hl & Hg); [lia..|].
  fold s in Hc, Hl, Hg.
  assert (G : guard lim s = false) by (apply Hg; lia).
  pose proof (i_qs Hs) as Hqs.
  assert (Hsub : queue s ⊆+ cells).
  { apply NoDup_submseteq; [apply (c_nodup (i_core Hs))|].
    intros c Hc'. apply Hcells. by apply (i_reach Hs). }
  apply submseteq_length in Hsub. rewrite length_queue in Hsub.
  unfold guard in G. apply andb_false_iff in G as [G%Z.ltb_ge|G%Z.ltb_ge].
  - assert (He : qs s = qe s) by lia.
    assert (Hsub' : cells ⊆+ queue s).
    { apply NoDup_submseteq; [done|]. intros c Hc'. apply (drained_complete s Hs He).
      by apply Hcells. }
    apply submseteq_length in Hsub'. rewrite length_queue in Hsub'. lia.
  - lia.
Qed.
End FloodFacts.

(** ** The computer's choice is a heading, and the flood fill is bounded (C7) *)

Lemma emergency_find C R w p best ds :
  emergency C R w p (dir p) best ds =
    match find (fun d => negb (isRev (dir p) d) && open C R w p d) ds with
    | Some d => d
    | None => best
    end.
Proof.
  induction ds as [|d ds IH]; simpl; [done|].
  destruct (isRev (dir p) d); simpl; [done|]. by destruct (open C R w p d).
Qed.

Lemma consider_closed C R w p cur acc d :
  open C R w p d = false -> consider C R w p cur acc d = acc.
Proof.
  unfold open, consider. intros [H|H]%andb_false_iff.
  - by rewrite H.
  - apply negb_false_iff in H. rewrite H. by destruct (negb _).
Qed.

Lemma aiHeading_all_closed C R w p :
  (forall d, In d (opts (dir p)) -> open C R w p d = false) ->
  aiHeading C R w p = emergency_pick C R w p.
Proof.
  intros H. unfold aiHeading, emergency_pick. unfold opts in *. cbn [fold_left].
  rewrite !consider_closed by (apply H; simpl; tauto).
  change (PrimFloat.eqb neg_infinity neg_infinity) with true. cbv iota.
  apply emergency_find.
Qed.

Lemma all_closed_keeps_heading C R w p :
  cardinal (dir p) ->
  (forall d, In d (opts (dir p)) -> open C R w p d = false) ->
  emergency_pick C R w p = dir p.
Proof.
  intros Hc H. unfold emergency_pick, dirs. unfold opts in H.
  destruct Hc as [E|[E|[E|E]]]; rewrite E in *; simpl in *;
    rewrite ?(H (1, 0)), ?(H (-1, 0)), ?(H (0, 1)), ?(H (0, -1)) by tauto; reflexivity.
Qed.

Lemma run_counters sx sy w C R :
  0 < C * R ->
  let s := run sx sy w C R in
  guard (LIMIT C R) s = false /\ qs s = count s /\ count s <= Z.min (C * R) 600.
Proof.
  intros HN. destruct (init_counters sx sy w C R) as [I1 I2].
  assert (0 < LIMIT C R) by (unfold LIMIT; lia).
  destruct (iter_counters sx sy w C R (LIMIT C R) (Z.to_nat (LIMIT C R)) (init sx sy w C R))
    as (Hc & Hl & Hg); [lia..|].
  split; [apply Hg; lia|]. split; [done|]. exact Hl.
Qed.

(** C7.  For every grid and every computer player with a heading among
    the four unit vectors, [aiChoose] returns one of the four unit vectors;
    when all three candidates are closed the result is that of the
    emergency scan, which then keeps the current heading; and every flood
    fill it runs ends by its own guard after taking at most
    min(cols*rows, 600) cells out of the queue. *)
Theorem aiHeading_bounded a w p :
  cardinal (dir p) ->
  let C := cols a in
  let R := rows a in
  cardinal (aiHeading C R w p) /\
  ((forall d, In d (opts (dir p)) -> open C R w p d = false) ->
   aiHeading C R w p = emergency_pick C R w p /\ emergency_pick C R w p = dir p) /\
  (forall sx sy,
     let s := Flood.run sx sy w C R in
     Flood.guard (Flood.LIMIT C R) s = false /\
     Flood.qs s = Flood.count s /\ Flood.count s <= Z.min (C * R) 600).
Proof.
  intros Hc C R. split; [by apply aiHeading_cardinal|]. split.
  - intros H. split; [by apply aiHeading_all_closed | by apply all_closed_keeps_heading].
  - intros sx sy. apply run_counters. subst C R. by destruct a.
Qed.

Lemma aiHeading_bounded_witness :
  let C := cols ArenaS in
  let R := rows ArenaS in
  let w := world head_on in
  let p := p2 head_on in
  cardinal (aiHeading C R w p) /\
  ((forall d, In d (opts (dir p)) -> open C R w p d = false) ->
   aiHeading C R w p = emergency_pick C R w p /\ emergency_pick C R w p = dir p) /\
  (forall sx sy,
     let s := Flood.run sx sy w C R in
     Flood.guard (Flood.LIMIT C R) s = false /\
     Flood.qs s = Flood.count s /\ Flood.count s <= Z.min (C * R) 600).
Proof.
  apply (aiHeading_bounded ArenaS (world head_on) (p2 head_on)).
  unfold cardinal. simpl. tauto.
Defined.

(** ** Order of binary64 numbers *)

Lemma SFcompare_opp a b c :
  SFcompare a b = Some c -> SFcompare b a = Some (CompOpp c).
Proof.
  destruct a as [sa|sa| |sa ma ea], b as [sb|sb| |sb mb eb]; simpl;
    try discriminate; intros [= <-]; try (by destruct sa); try (by destruct sb);
    try (by destruct sa, sb).
  destruct sa, sb; try done; rewrite (Z.compare_antisym ea eb);
    destruct (ea ?= eb) eqn:E; simpl; try done;
    rewrite (Pos.compare_cont_antisym ma mb Eq); simpl; by rewrite ?CompOpp_involutive.
Qed.

Lemma SFcompare_self a c : SFcompare a a = Some c -> c = Eq.
Proof.
  destruct a as [sa|sa| |sa ma ea]; simpl; try discriminate; intros [= <-];
    try (by destruct sa).
  destruct sa; rewrite Z.compare_refl; change (Pos.compare_cont Eq ma ma) with (ma ?= ma)%positive;
    by rewrite Pos.compare_refl.
Qed.

Lemma SFcompare_total a b ca cb :
  SFcompare a a = Some ca -> SFcompare b b = Some cb -> exists c, SFcompare a b = Some c.
Proof.
  destruct a as [sa|sa| |sa ma ea], b as [sb|sb| |sb mb eb]; simpl; try discriminate; eauto.
Qed.

Lemma SFcompare_lt_trans a b c :
  SFcompare a b = Some Lt -> SFcompare b c = Some Lt -> SFcompare a c = Some Lt.
Proof.
  destruct a as [sa|sa| |sa ma ea], b as [sb|sb| |sb mb eb], c as [sc|sc| |sc mc ec]; simpl;
    try discriminate; try (by destruct sa, sb, sc); try (by destruct sa, sb); try (by destruct sb, sc);
    try (by destruct sa, sc).
  change (Pos.compare_cont Eq ma mb) with (ma ?= mb)%positive.
  change (Pos.compare_cont Eq mb mc) with (mb ?= mc)%positive.
  change (Pos.compare_cont Eq ma mc) with (ma ?= mc)%positive.
  destruct sa, sb, sc; try discriminate; try done;
    destruct (Z.compare_spec ea eb), (Z.compare_spec eb ec), (Z.compare_spec ea ec);
    try discriminate; try lia; try done;
    destruct (Pos.compare_spec ma mb), (Pos.compare_spec mb mc), (Pos.compare_spec ma mc);
    simpl; try discriminate; try lia; try done.
Qed.

Lemma ltb_irrefl a : (a <? a)%float = false.
Proof.
  rewrite FloatAxioms.ltb_spec. unfold SFltb. destruct (SFcompare _ _) as [c|] eqn:E; [|done].
  by rewrite (SFcompare_self _ _ E).
Qed.

Lemma ltb_trans a b c :
  (a <? b)%float = true -> (b <? c)%float = true -> (a <? c)%float = true.
Proof.
  rewrite !FloatAxioms.ltb_spec. unfold SFltb.
  destruct (SFcompare (Prim2SF a) (Prim2SF b)) as [[]|] eqn:E1; try discriminate.
  destruct (SFcompare (Prim2SF b) (Prim2SF c)) as [[]|] eqn:E2; try discriminate.
  by rewrite (SFcompare_lt_trans _ _ _ E1 E2).
Qed.

Lemma ltb_not_eqb a b : (a <? b)%float = true -> (b =? a)%float = false.
Proof.
  rewrite FloatAxioms.ltb_spec, FloatAxioms.eqb_spec. unfold SFltb, SFeqb.
  destruct (SFcompare (Prim2SF a) (Prim2SF b)) as [[]|] eqn:E; try discriminate.
  by rewrite (SFcompare_opp _ _ _ E).
Qed.

Lemma not_ltb_leb a b :
  (a =? a)%float = true -> (b =? b)%float = true ->
  (a <? b)%float = false -> (b <=? a)%float = true.
Proof.
  rewrite !FloatAxioms.eqb_spec, FloatAxioms.ltb_spec, FloatAxioms.leb_spec. unfold SFeqb, SFltb, SFleb.
  destruct (SFcompare (Prim2SF a) (Prim2SF a)) as [ca|] eqn:Ea; [|discriminate].
  destruct (SFcompare (Prim2SF b) (Prim2SF b)) as [cb|] eqn:Eb; [|by destruct ca].
  destruct (SFcompare_total _ _ _ _ Ea Eb) as [c E]. rewrite E.
  rewrite (SFcompare_opp _ _ _ E). by destruct c.
Qed.

(** ** The scores of the candidates *)

Lemma bias_table_holds a : forallb (bias_col a) (range (cols a)) = true.
Proof. destruct a; vm_compute; reflexivity. Qed.

Lemma score_table_holds : forallb score_col (range 41) = true.
Proof. vm_compute. reflexivity. Qed.

Lemma in_range n z : 0 <= z < n -> In z (range n).
Proof.
  intros H. unfold range. apply in_map_iff. exists (Z.to_nat z). split; [lia|].
  apply in_seq. lia.
Qed.

Lemma forallb_range (f : Z -> bool) n z :
  forallb f (range n) = true -> 0 <= z < n -> f z = true.
Proof. intros H Hz. rewrite forallb_forall in H. apply H. by apply in_range. Qed.

Lemma bias_mdist a c :
  in_grid a c -> Flood.bias (fst c) (snd c) (cols a) (rows a) = bias_of (mdist a c).
Proof.
  intros [Hx Hy].
  pose proof (forallb_range (bias_col a) _ _ (bias_table_holds a) Hx) as H.
  unfold bias_col in H.
  pose proof (forallb_range (bias_row a (fst c)) _ _ H Hy) as H'.
  unfold bias_row in H'. apply FloatAxioms.Leibniz.eqb_spec in H'. by destruct c.
Qed.

Lemma mdist_range a c : in_grid a c -> 0 <= mdist a c < 41.
Proof.
  unfold in_grid, mdist.
  destruct a; simpl; change (28 / 2) with 14; change (20 / 2) with 10;
    change (36 / 2) with 18; change (26 / 2) with 13; change (48 / 2) with 24;
    change (32 / 2) with 16; lia.
Qed.

Lemma score_proper m n (st : bool) :
  0 <= m < 41 -> 1 <= n <= 600 ->
  proper (Z2F n * bias_of m * (if st then 1.05 else 1.0))%float = true.
Proof.
  intros Hm Hn. assert (Hn' : 0 <= n - 1 < 600) by lia.
  pose proof (forallb_range score_col _ _ score_table_holds Hm) as H.
  unfold score_col in H.
  pose proof (forallb_range (score_row m) _ _ H Hn') as H'.
  unfold score_row in H'. replace (n - 1 + 1) with n in H' by lia.
  apply andb_true_iff in H' as [H1 H2]. destruct st; assumption.
Qed.

Lemma open_free C R w p d : open C R w p d = true <-> free C R w (target p d).
Proof. change (open C R w p d) with (freeb C R w (target p d)). apply freeb_free. Qed.

Lemma arena_dims a : 0 < cols a < 32768 /\ 0 < rows a < 32768.
Proof. destruct a; simpl; lia. Qed.

Lemma free_in_grid a w c : free (cols a) (rows a) w c -> in_grid a c.
Proof. by intros [? _]. Qed.

(** The score of an open candidate. *)
Lemma score_formula a w p d :
  free (cols a) (rows a) w (target p d) ->
  exists n, area (cols a) (rows a) w (target p d) n /\ 1 <= n /\
    score (cols a) (rows a) w p (dir p) d =
      (Z2F (Z.min (Z.min (cols a * rows a) 600) n) * bias_of (mdist a (target p d))
       * (if vec_eqb d (dir p) then 1.05 else 1))%float.
Proof.
  intros Hf. destruct (arena_dims a) as [HC HR].
  destruct (count_run (x p + fst d) (y p + snd d) w (cols a) (rows a) HC HR Hf)
    as (cells & Hnd & Hcells & Hcount).
  exists (Z.of_nat (length cells)). split; [by exists cells|]. split.
  - assert (Hs : target p d ∈ cells) by (apply Hcells; by constructor).
    destruct cells; [by apply elem_of_nil in Hs|]. simpl. lia.
  - unfold score, Flood.floodScore. rewrite Hcount.
    pose proof (bias_mdist a (target p d) (free_in_grid a w _ Hf)) as Hb.
    unfold target at 1 2 in Hb. cbn [fst snd] in Hb. rewrite Hb. reflexivity.
Qed.

Lemma score_is_proper a w p d :
  open (cols a) (rows a) w p d = true ->
  proper (score (cols a) (rows a) w p (dir p) d) = true.
Proof.
  intros Hf%open_free. destruct (score_formula a w p d Hf) as (n & _ & Hn & ->).
  apply score_proper; [by apply mdist_range, (free_in_grid a w)|].
  assert (1 <= cols a * rows a) by (destruct a; simpl; lia). lia.
Qed.

Section Pick.
Variables (a : arena_t) (w : list Z) (p : player).
#[local] Abbreviation C := (cols a).
#[local] Abbreviation R := (rows a).
#[local] Abbreviation sc := (score (cols a) (rows a) w p (dir p)).
#[local] Abbreviation ok := (open (cols a) (rows a) w p).

Lemma consider_open acc d :
  ok d = true ->
  consider C R w p (dir p) acc d = if (snd acc <? sc d)%float then (d, sc d) else acc.
Proof.
  unfold open, consider. intros [H1 H2]%andb_true_iff. apply negb_true_iff in H2.
  by rewrite H1, H2.
Qed.

Lemma consider_step seen acc d :
  none_yet C R w p seen acc \/ leads C R w p seen acc ->
  let acc' := consider C R w p (dir p) acc d in
  none_yet C R w p (seen ++ [d]) acc' \/ leads C R w p (seen ++ [d]) acc'.
Proof.
  intros H acc'. subst acc'. destruct (ok d) eqn:Hd.
  - right. rewrite (consider_open acc d Hd).
    pose proof (score_is_proper a w p d Hd) as Hp. unfold proper in Hp.
    apply andb_true_iff in Hp as [Hlow Hnan].
    destruct (snd acc <? sc d)%float eqn:Hlt.
    + split; [apply in_or_app; right; by left|]. split; [done|]. split; [done|]. simpl.
      intros d' [Hd'|[<-|[]]]%in_app_or Ho; [|apply ltb_irrefl].
      destruct H as [[_ Hn]|(_ & _ & _ & Hl)]; [rewrite (Hn d' Hd') in Ho; discriminate|].
      destruct (sc d <? sc d')%float eqn:E; [|done].
      rewrite <- (Hl d' Hd' Ho). symmetry. by apply (ltb_trans _ (sc d)).
    + destruct H as [[Hn _]|(Hin & Hok & Hsc & Hl)]; [rewrite Hn in Hlt; congruence|].
      split; [apply in_or_app; by left|]. split; [done|]. split; [done|].
      intros d' [Hd'|[<-|[]]]%in_app_or Ho; [by apply Hl|done].
  - rewrite consider_closed by done. destruct H as [[Hn Hall]|(Hin & Hok & Hsc & Hl)].
    + left. split; [done|]. intros d' [Hd'|[<-|[]]]%in_app_or; [by apply Hall|done].
    + right. split; [apply in_or_app; by left|]. split; [done|]. split; [done|].
      intros d' [Hd'|[<-|[]]]%in_app_or Ho; [by apply Hl|congruence].
Qed.

Lemma fold_consider l : forall seen acc,
  none_yet C R w p seen acc \/ leads C R w p seen acc ->
  let r := fold_left (consider C R w p (dir p)) l acc in
  none_yet C R w p (seen ++ l) r \/ leads C R w p (seen ++ l) r.
Proof.
  induction l as [|d l IH]; intros seen acc H; simpl.
  - by rewrite app_nil_r.
  - replace (seen ++ d :: l) with ((seen ++ [d]) ++ l) by (by rewrite <- app_assoc).
    apply IH. by apply consider_step.
Qed.

(** The pick among the candidates. *)
Lemma pick_best d :
  In d (opts (dir p)) -> ok d = true ->
  let b := aiHeading C R w p in
  In b (opts (dir p)) /\ ok b = true /\ (sc d <=? sc b)%float = true.
Proof.
  intros Hd Ho b. subst b. unfold aiHeading.
  pose proof (fold_consider (opts (dir p)) [] (dir p, neg_infinity)) as H.
  cbv zeta in H. rewrite app_nil_l in H.
  destruct (fold_left _ _ _) as [best bs].
  destruct H as [[_ Hn]|(Hin & Hok & Hsc & Hl)].
  - left. split; [done|]. by intros ? [].
  - rewrite (Hn d Hd) in Ho. discriminate.
  - simpl in *. pose proof (score_is_proper a w p best Hok) as Hp.
    pose proof (score_is_proper a w p d Ho) as Hp'. unfold proper in Hp, Hp'.
    apply andb_true_iff in Hp as [Hlow Hnan]. apply andb_true_iff in Hp' as [_ Hnan'].
    rewrite Hsc. rewrite (ltb_not_eqb _ _ Hlow).
    split; [done|]. split; [done|]. apply not_ltb_leb; [done..|]. rewrite <- Hsc. by apply Hl.
Qed.
End Pick.

(** C6.  [aiChoose] weighs the candidates straight, right and left.  An
    open candidate scores the number of free cells connected to its cell,
    capped at min(cols*rows, 600), times 1/(1 + d*0.2) with [d] the
    Manhattan distance of its cell from the centre of the grid, times 1.05
    if it is the straight one; and the heading picked is an open candidate
    whose score no open candidate exceeds. *)
Theorem aiChoose_scores_and_picks a w p d :
  let C := cols a in
  let R := rows a in
  In d (opts (dir p)) -> free C R w (target p d) ->
  opts (dir p) = [dir p; (snd (dir p), - fst (dir p)); (- snd (dir p), fst (dir p))] /\
  (exists n, area C R w (target p d) n /\
     score C R w p (dir p) d =
       (Z2F (Z.min (Z.min (C * R) 600) n)
        * (1 / (1 + Z2F (mdist a (target p d)) * 0.2))
        * (if vec_eqb d (dir p) then 1.05 else 1))%float) /\
  let b := aiHeading C R w p in
  dir (aiChoose C R w p) = b /\
  In b (opts (dir p)) /\ free C R w (target p b) /\
  (score C R w p (dir p) d <=? score C R w p (dir p) b)%float = true.
Proof.
  intros C R Hd Hf. split; [reflexivity|]. split.
  - destruct (score_formula a w p d Hf) as (n & Ha & _ & Hs). by exists n.
  - intros b. split; [reflexivity|].
    destruct (pick_best a w p d Hd (proj2 (open_free C R w p d) Hf)) as (H1 & H2 & H3).
    split; [exact H1|]. split; [by apply open_free | exact H3].
Qed.

Lemma aiChoose_scores_and_picks_witness :
  let a := ArenaS in
  let w := world head_on in
  let p := p2 head_on in
  let d : vec := (-1, 0) in
  let C := cols a in
  let R := rows a in
  opts (dir p) = [dir p; (snd (dir p), - fst (dir p)); (- snd (dir p), fst (dir p))] /\
  (exists n, area C R w (target p d) n /\
     score C R w p (dir p) d =
       (Z2F (Z.min (Z.min (C * R) 600) n)
        * (1 / (1 + Z2F (mdist a (target p d)) * 0.2))
        * (if vec_eqb d (dir p) then 1.05 else 1))%float) /\
  let b := aiHeading C R w p in
  dir (aiChoose C R w p) = b /\
  In b (opts (dir p)) /\ free C R w (target p b) /\
  (score C R w p (dir p) d <=? score C R w p (dir p) b)%float = true.
Proof.
  apply (aiChoose_scores_and_picks ArenaS (world head_on) (p2 head_on) (-1, 0)).
  - simpl. tauto.
  - split; [simpl; lia | vm_compute; reflexivity].
Defined.

(** * Further properties of the game *)

(** ** The grid stays well formed *)

Lemma forallb_insert {A} (f : A -> bool) (l : list A) i v :
  forallb f l = true -> f v = true -> forallb f (<[i:=v]> l) = true.
Proof.
  revert i. induction l as [|a l IH]; intros i; simpl; [done|].
  intros [Ha Hl]%andb_true_iff Hv. destruct i; simpl.
  - by rewrite Hv, Hl.
  - by rewrite Ha, IH.
Qed.

Lemma forallb_set_u8 (f : Z -> bool) w k v :
  forallb f w = true -> f (v mod 256) = true -> forallb f (TA.set_u8 w k v) = true.
Proof.
  intros Hw Hv. unfold TA.set_u8. destruct (k <? 0); [done|]. by apply forallb_insert.
Qed.

Lemma stepOnce_wf s : wf_world s = true -> wf_world (stepOnce s) = true.
Proof.
  unfold wf_world. intros [Hl Hf]%andb_true_iff.
  destruct (blocked s (next1 s) || blocked s (next2 s) || vec_eqb (next1 s) (next2 s)) eqn:Hc.
  - rewrite (stepOnce_crash s Hc). simpl. by rewrite Hl, Hf.
  - apply orb_false_iff in Hc as [Hc He]. apply orb_false_iff in Hc as [H1 H2].
    rewrite stepOnce_arena, (stepOnce_commit_world s H1 H2 He), !length_set_u8, Hl.
    simpl. by apply forallb_set_u8; [apply forallb_set_u8|].
Qed.

Lemma build_wf a s : wf_world (build a s) = true.
Proof. destruct a; vm_compute; reflexivity. Qed.

Lemma reset_wf s : wf_world (reset s) = true.
Proof. unfold wf_world, reset. simpl. destruct (arena s); vm_compute; reflexivity. Qed.

Lemma steer_wf d s : wf_world s = true -> wf_world (steer d s) = true.
Proof. unfold steer. by destruct (negb _). Qed.

(** X1.  In every state the component can reach, the grid has exactly
    [cols*rows] entries and each of them is 0 (empty), 1 (the human's
    trail) or 2 (the computer's trail). *)
Theorem reachable_grid_wellformed s : reachable s -> wf_world s = true.
Proof.
  revert s. apply (reachable_invariant (fun s => wf_world s = true)); try done.
  - apply build_wf.
  - apply reset_wf.
  - apply stepOnce_wf.
  - intros d s0 _. apply steer_wf.
Qed.

Lemma reachable_grid_wellformed_witness : wf_world wreck = true.
Proof. apply (reachable_grid_wellformed wreck), wreck_reachable. Defined.

(** ** The heads never meet *)

(** X2.  In every reachable state the two heads are on different cells,
    and so are the cells they are about to enter: the sum of the four
    head coordinates is odd at the start and changes by an even number in
    every committed step.  The same-cell rule of [stepOnce] therefore never
    decides a game that started from a layout of the component. *)
Theorem heads_never_meet s :
  reachable s -> pos (p1 s) <> pos (p2 s) /\ next1 s <> next2 s.
Proof.
  intros Hs. pose proof (reachable_apart s Hs) as [[k Hp] [H1 H2]]. split.
  - unfold pos. intros [= Ex Ey]. lia.
  - destruct (aiHeading_cardinal (cols (arena s)) (rows (arena s)) (world s) (p2 s) H2) as [A _].
    unfold next1, next2. intros [= Ex Ey].
    pose proof (cardinal_sum _ H1). pose proof (cardinal_sum _ A). lia.
Qed.

Lemma heads_never_meet_witness :
  pos (p1 facing) <> pos (p2 facing) /\ next1 facing <> next2 facing.
Proof. apply (heads_never_meet facing), facing_reachable. Defined.

(** ** Every match ends *)

Lemma trail_insert (l : list Z) i v :
  l !! i = Some 0 -> v <> 0 -> trail (<[i:=v]> l) = trail l + 1.
Proof.
  unfold trail. revert i. induction l as [|a l IH]; intros i; [done|].
  destruct i; simpl.
  - intros [= ->] Hv. simpl. destruct (v =? 0) eqn:E; [apply Z.eqb_eq in E; done|].
    simpl. lia.
  - intros Hi Hv. specialize (IH i Hi Hv). destruct (negb (a =? 0)); simpl; lia.
Qed.

Lemma trail_set_u8 w k v :
  TA.get w k = Some 0 -> v mod 256 <> 0 -> trail (TA.set_u8 w k v) = trail w + 1.
Proof.
  unfold TA.get, TA.set_u8. destruct (k <? 0); [done|]. apply trail_insert.
Qed.

Lemma trail_le_length w : trail w <= Z.of_nat (length w).
Proof.
  unfold trail. induction w as [|a w IH]; simpl; [lia|].
  destruct (negb (a =? 0)); simpl; lia.
Qed.

Lemma stepOnce_length s : length (world (stepOnce s)) = length (world s).
Proof.
  destruct (blocked s (next1 s) || blocked s (next2 s) || vec_eqb (next1 s) (next2 s)) eqn:Hc.
  - by rewrite (stepOnce_crash s Hc).
  - apply orb_false_iff in Hc as [Hc He]. apply orb_false_iff in Hc as [H1 H2].
    by rewrite (stepOnce_commit_world s H1 H2 He), !length_set_u8.
Qed.

Lemma commit_trail s : commits s = true -> trail (world (stepOnce s)) = trail (world s) + 2.
Proof.
  intros Hc. pose proof Hc as (H1 & H2 & Hne)%commits_true.
  assert (He : vec_eqb (next1 s) (next2 s) = false).
  { destruct (vec_eqb _ _) eqn:E; [|done]. by apply vec_eqb_eq in E. }
  rewrite (stepOnce_commit_world s H1 H2 He).
  apply blocked_false in H1 as [G1 Z1]. apply blocked_false in H2 as [G2 Z2].
  unfold cell in Z1, Z2. apply in_grid_inb in G1, G2.
  assert (Hi : idx (cols (arena s)) (fst (next1 s)) (snd (next1 s))
               <> idx (cols (arena s)) (fst (next2 s)) (snd (next2 s))).
  { intros E. destruct (idx_inj _ _ _ _ _ _ G1 G2 E) as [Ex Ey].
    apply Hne. destruct (next1 s), (next2 s). simpl in *. congruence. }
  rewrite trail_set_u8; [|by rewrite get_set_u8_ne|done].
  rewrite trail_set_u8; [lia|done|done].
Qed.

Lemma commits_accum a s : commits (set_accum a s) = commits s.
Proof. reflexivity. Qed.

Lemma crash_world s : commits s = false -> world (stepOnce s) = world s.
Proof.
  unfold commits. intros Hc%negb_false_iff. by rewrite (stepOnce_crash s Hc).
Qed.

(** A step adds two trail cells when it is committed and none when not. *)
Lemma stepOnce_trail s :
  trail (world (stepOnce s)) = trail (world s) + 2 * Z.of_nat (if commits s then 1 else 0).
Proof.
  destruct (commits s) eqn:Hc.
  - rewrite (commit_trail s Hc). lia.
  - rewrite (crash_world s Hc). lia.
Qed.

Lemma drain_trail fuel st : forall s s',
  drain fuel st s = Some s' ->
  trail (world s') = trail (world s) + 2 * Z.of_nat (drain_moves fuel st s) /\
  length (world s') = length (world s).
Proof.
  induction fuel as [|fuel IH]; intros s s'; simpl.
  - destruct (st <=? accum s)%float; [discriminate|]. intros [= <-]. split; [lia|done].
  - destruct (st <=? accum s)%float; [|intros [= <-]; split; [lia|done]].
    intros H. destruct (IH _ _ H) as [E1 E2].
    rewrite E1, E2, stepOnce_trail, stepOnce_length, commits_accum. simpl. split; [lia|done].
Qed.

Lemma loop_trail fuel t s s' :
  loop fuel t s = Some s' ->
  trail (world s') = trail (world s) + 2 * Z.of_nat (loop_moves fuel t s) /\
  length (world s') = length (world s).
Proof.
  unfold loop, loop_moves. cbv zeta. destruct (_ && _).
  - intros H. by destruct (drain_trail _ _ _ _ H) as [-> ->].
  - intros [= <-]. simpl. split; [lia|done].
Qed.

Lemma handle_trail e s s' :
  rebuilds e = false -> handle e s = Some s' ->
  trail (world s') = trail (world s) + 2 * Z.of_nat (moves_of e s) /\
  length (world s') = length (world s).
Proof.
  destruct e as [k| | |a|n| | | |fuel t]; simpl; try discriminate.
  - intros Hr [= <-]. unfold onKey. destruct (negb (active s)); [split; [lia|done]|].
    destruct k; try discriminate; unfold steer; try destruct (negb _);
      simpl; (split; [lia|done]).
  - intros _ [= <-]. simpl. split; [lia|done].
  - intros _. destruct (_ && _); [|discriminate]. intros [= <-]. simpl. split; [lia|done].
  - intros _ [= <-]. simpl. split; [lia|done].
  - intros _ [= <-]. simpl. split; [lia|done].
  - intros _ [= <-]. simpl. split; [lia|done].
  - intros _. apply loop_trail.
Qed.

(** X3.  A match cannot go on for ever.  Through any run of events that
    does not rebuild the grid (key presses other than Enter, the
    Start/Pause button, the pointer, the slider, and frames, each making
    as many steps as its clock allows) the number of trail cells grows by
    exactly two for every committed step of the run and stays as it is
    otherwise; and as a grid has no more trail cells than entries, the
    committed steps of a match are at most half the number of the cells
    that were empty when it began.  In the medium arena (936 cells, two of
    them taken at the start) that is at most 467 steps. *)
Theorem match_length_bounded es : forall s s',
  Forall (fun e => rebuilds e = false) es -> play es s = Some s' ->
  trail (world s') = trail (world s) + 2 * Z.of_nat (moves es s) /\
  trail (world s) + 2 * Z.of_nat (moves es s) <= Z.of_nat (length (world s)).
Proof.
  assert (E : forall s s',
    Forall (fun e => rebuilds e = false) es -> play es s = Some s' ->
    trail (world s') = trail (world s) + 2 * Z.of_nat (moves es s) /\
    length (world s') = length (world s)).
  { induction es as [|e es IH]; intros s s' Hes; simpl.
    - intros [= <-]. split; [lia|done].
    - apply Forall_cons in Hes as [He Hes].
      destruct (handle e s) as [s1|] eqn:Hh; [|discriminate]. intros Hp.
      destruct (handle_trail e s s1 He Hh) as [T1 L1].
      destruct (IH s1 s' Hes Hp) as [T2 L2]. rewrite T2, T1, L2, L1. split; [lia|done]. }
  intros s s' Hes Hp. destruct (E s s' Hes Hp) as [E1 E2]. split; [done|].
  rewrite <- E1, <- E2. apply trail_le_length.
Qed.

Lemma match_length_bounded_witness :
  let es := [KeyDown ArrowUp; Frame 0 16; KeyDown ArrowRight; Frame 1 216] in
  moves es kickoff = 1%nat /\
  exists s',
    play es kickoff = Some s' /\
    trail (world s') = trail (world kickoff) + 2 * Z.of_nat (moves es kickoff) /\
    trail (world kickoff) + 2 * Z.of_nat (moves es kickoff)
      <= Z.of_nat (length (world kickoff)).
Proof.
  intros es. split; [vm_compute; reflexivity|].
  eexists. split; [vm_compute; reflexivity|].
  apply (match_length_bounded es kickoff); [|vm_compute; reflexivity].
  repeat constructor.
Defined.

(** ** The computer crashes only when it is boxed in *)

Lemma opts_heading (d : vec) : In d (opts d).
Proof. by left. Qed.

(** X4.  The cell the computer heads for after [aiChoose] is closed
    (outside the grid or taken) exactly when all three of its candidates,
    straight, right and left, are closed: with a free cell beside or ahead
    the computer never steers into a wall, and the emergency scan finds
    nothing the three candidates did not offer. *)
Theorem computer_crashes_only_boxed_in a w p :
  cardinal (dir p) ->
  open (cols a) (rows a) w p (aiHeading (cols a) (rows a) w p) = false <->
  boxed_in (cols a) (rows a) w p.
Proof.
  intros Hc. split.
  - intros Hb d Hd. destruct (open (cols a) (rows a) w p d) eqn:Ho; [|done].
    destruct (pick_best a w p d Hd Ho) as (_ & Hok & _). congruence.
  - intros Hall.
    rewrite aiHeading_all_closed by exact Hall.
    rewrite all_closed_keeps_heading by done. apply Hall, opts_heading.
Qed.

Lemma computer_crashes_only_boxed_in_witness :
  open 28 20 (world facing) (p2 facing) (aiHeading 28 20 (world facing) (p2 facing)) = false <->
  boxed_in 28 20 (world facing) (p2 facing).
Proof.
  apply (computer_crashes_only_boxed_in ArenaS (world facing) (p2 facing)).
  right. left. reflexivity.
Defined.

(** ** The frame loop reads the state of the render that installed it *)

Lemma idle_handle e s s' :
  selects e = false -> handle e s = Some s' ->
  loop_running s = false /\ untouched s ->
  (loop_running s' = false /\ untouched s') /\ arena s' = arena s.
Proof.
  intros He Hh (Hl & Hw & Hp & Hq & Hn).
  destruct e as [k| | |a|n| | | |fuel t]; simpl in Hh; try discriminate He.
  - injection Hh as <-. unfold onKey. destruct (negb (active s)); [done|].
    destruct k; try done;
      try (unfold steer; destruct (negb _); done).
  - by injection Hh as <-.
  - by injection Hh as <-.
  - destruct (_ && _); [|discriminate]. by injection Hh as <-.
  - by injection Hh as <-.
  - by injection Hh as <-.
  - by injection Hh as <-.
  - unfold loop in Hh. simpl in Hh. rewrite Hl in Hh. simpl in Hh. by injection Hh as <-.
Qed.

Lemma idle_play es : forall s s',
  forallb (fun e => negb (selects e)) es = true -> play es s = Some s' ->
  loop_running s = false /\ untouched s ->
  (loop_running s' = false /\ untouched s') /\ arena s' = arena s.
Proof.
  induction es as [|e es IH]; intros s s'; simpl.
  - by intros _ [= <-].
  - intros [He Hes]%andb_true_iff. apply negb_true_iff in He.
    destruct (handle e s) as [s1|] eqn:Hh; [|discriminate]. intros Hp Hs.
    destruct (idle_handle e s s1 He Hh Hs) as [Hs1 Ha].
    destruct (IH s1 s' Hes Hp Hs1) as [Hs' Ha']. split; [done|congruence].
Qed.

(** X5.  The frame loop is installed by the effect on [[cols, rows]] and
    reads [running] and [winner] of the render in which that effect ran.
    After mounting that render has [running = false], so as long as the
    arena selector is not used no frame ever runs a step, whatever is
    pressed: the grid and both positions stay the start layout of the
    medium arena and no outcome is set. *)
Theorem no_step_before_arena_change es s :
  forallb (fun e => negb (selects e)) es = true -> play es mount = Some s ->
  arena s = ArenaM /\ world s = start_world ArenaM /\
  pos (p1 s) = (2, 13) /\ pos (p2 s) = (33, 13) /\ winner s = None.
Proof.
  intros Hes Hp.
  destruct (idle_play es mount s Hes Hp) as [[_ (Hw & H1 & H2 & Hn)] Ha].
  { repeat split. }
  change (arena mount) with ArenaM in Ha. rewrite Ha in *.
  repeat split; try done. by rewrite H2.
Qed.

Lemma no_step_before_arena_change_witness :
  exists s,
    play [PointerEnter; ClickStartPause; KeyDown ArrowUp; Frame 0 16; Frame 0 5016] mount
      = Some s /\
    running s = true /\
    arena s = ArenaM /\ world s = start_world ArenaM /\
    pos (p1 s) = (2, 13) /\ pos (p2 s) = (33, 13) /\ winner s = None.
Proof.
  eexists. split; [vm_compute; reflexivity|]. split; [reflexivity|].
  eapply (no_step_before_arena_change
            [PointerEnter; ClickStartPause; KeyDown ArrowUp; Frame 0 16; Frame 0 5016]).
  - reflexivity.
  - vm_compute. reflexivity.
Defined.

(** ** The speed slider *)

Lemma pace_table : forallb pace_col (range 12) = true.
Proof. vm_compute. reflexivity. Qed.

(** X6.  Over the positions 1..12 of the speed slider the time of a step
    falls strictly as the speed rises, from exactly 0.24 s at speed 1 to
    exactly 0.06 s at speed 12 (in binary64, as JavaScript computes it). *)
Theorem stepTime_of_slider a b :
  1 <= a -> a < b -> b <= 12 ->
  (stepTime b <? stepTime a)%float = true /\
  (0.06 <=? stepTime a)%float = true /\ (stepTime a <=? 0.24)%float = true /\
  stepTime 1 = 0.24%float /\ stepTime 12 = 0.06%float.
Proof.
  intros Ha Hab Hb.
  pose proof (forallb_range _ 12 (a - 1) pace_table ltac:(lia)) as Hcol.
  pose proof (forallb_range _ 12 (b - 1) Hcol ltac:(lia)) as Hrow.
  unfold pace_row in Hrow. replace (a - 1 + 1) with a in Hrow by lia.
  replace (b - 1 + 1) with b in Hrow by lia.
  apply andb_true_iff in Hrow as [[H1 H2]%andb_true_iff H3].
  replace (a - 1 <? b - 1) with true in H3 by (symmetry; apply Z.ltb_lt; lia).
  simpl in H3. repeat split; try done.
Qed.

Lemma stepTime_of_slider_witness :
  (stepTime 8 <? stepTime 3)%float = true /\
  (0.06 <=? stepTime 3)%float = true /\ (stepTime 3 <=? 0.24)%float = true /\
  stepTime 1 = 0.24%float /\ stepTime 12 = 0.06%float.
Proof. apply (stepTime_of_slider 3 8); lia. Defined.

(** ** The outcome of a step in play (C1) *)

(** C1.  In every state the component can reach in which no outcome is
    set: the test [stepOnce] makes on a candidate cell (position plus
    heading, the computer's heading being the one [aiChoose] has just
    picked) is true exactly when the cell lies outside the grid or holds a
    trail, of either player; and the step's outcome follows the table: both
    collide, Draw; only the computer, the human wins; only the human, the
    computer wins; neither, no outcome is set and both moves are committed,
    each candidate cell marked with its owner and each head on its
    candidate cell.  The guard of [stepOnce] for one shared candidate cell
    never fires in play, where the two candidate cells always differ. *)
Theorem outcome_table_in_play s :
  reachable s -> winner s = None ->
  (blocked s (next1 s) = true <-> collides s (next1 s)) /\
  (blocked s (next2 s) = true <-> collides s (next2 s)) /\
  outcome_table s.
Proof.
  intros Hs Hw.
  assert (Hwf : wf_world s = true).
  { clear Hw. revert s Hs. apply (reachable_invariant (fun s => wf_world s = true)); try done.
    - apply build_wf.
    - apply reset_wf.
    - apply stepOnce_wf.
    - intros d s0 _. apply steer_wf. }
  pose proof (reachable_candidates_differ s Hs) as Hne.
  destruct (stepOnce_outcome s Hwf Hw) as (T1 & T2 & T3 & T4 & _).
  split; [by apply blocked_collides|]. split; [by apply blocked_collides|].
  unfold outcome_table. cbv zeta. split; [exact T1|]. split; [exact T2|]. split; [exact T3|].
  intros [H1 H2]. by apply T4.
Qed.

Lemma outcome_table_in_play_witness :
  (blocked facing (next1 facing) = true <-> collides facing (next1 facing)) /\
  (blocked facing (next2 facing) = true <-> collides facing (next2 facing)) /\
  outcome_table facing.
Proof. apply (outcome_table_in_play facing facing_reachable). reflexivity. Defined.

(** * Properties of the desktop's windows *)

Section Desktop.
Import OS.

Lemma has_id_true i w : has_id i w = true <-> id w = i.
Proof. unfold has_id. apply String.eqb_eq. Qed.

Lemma has_id_false i w : has_id i w = false <-> id w <> i.
Proof. unfold has_id. apply String.eqb_neq. Qed.

Lemma find_none_absent i l : find (has_id i) l = None <-> i ∉ map id l.
Proof.
  induction l as [|w l IH]; simpl.
  - split; [intros _; apply not_elem_of_nil | done].
  - destruct (has_id i w) eqn:E.
    + apply has_id_true in E. split; [done|]. intros H. exfalso. apply H. rewrite E. left.
    + apply has_id_false in E. rewrite IH, not_elem_of_cons. split; [by split | by intros [_ ?]].
Qed.

Lemma isOpen_find i d : isOpen i d = bool_decide (is_Some (find (has_id i) (windows d))).
Proof.
  unfold isOpen. induction (windows d) as [|w l IH]; simpl; [done|].
  by destruct (has_id i w).
Qed.

(** The re-labelling [map]s of the handlers keep the list of ids. *)
Lemma map_ids (g : win -> win) l :
  (forall w, id (g w) = id w) -> map id (map g l) = map id l.
Proof. intros H. rewrite map_map. apply map_ext. exact H. Qed.

Lemma map_absent i (g : win -> win) l :
  i ∉ map id l -> map (fun w => if has_id i w then g w else w) l = l.
Proof.
  induction l as [|w l IH]; simpl; [done|]. intros [Hw Hl]%not_elem_of_cons.
  rewrite IH by done. destruct (has_id i w) eqn:E; [|done]. apply has_id_true in E. congruence.
Qed.

Lemma ids_open i d :
  map id (windows (openApp i d)) =
    if isOpen i d then map id (windows d) else map id (windows d) ++ [i].
Proof.
  rewrite isOpen_find. unfold openApp. simpl. destruct (find (has_id i) (windows d)) eqn:E.
  - rewrite bool_decide_eq_true_2 by done. apply map_ids. intros x. by destruct (has_id i x).
  - rewrite bool_decide_eq_false_2 by (by intros [? ?]). by rewrite map_app.
Qed.

Lemma ids_filter (f : win -> bool) l : NoDup (map id l) -> NoDup (map id (List.filter f l)).
Proof.
  induction l as [|w l IH]; simpl; [done|]. intros [Hw Hl]%NoDup_cons.
  destruct (f w); simpl; [|by apply IH]. apply NoDup_cons. split; [|by apply IH].
  intros H. apply Hw. apply list_elem_of_In, in_map_iff in H as (w' & E & Hin).
  apply filter_In in Hin as [Hin _]. apply list_elem_of_In, in_map_iff. by exists w'.
Qed.

Lemma handle_ids e d : NoDup (map id (windows d)) -> NoDup (map id (windows (handle e d))).
Proof.
  intros H. destruct e as [i|i|i|i|i]; cbn [handle];
    [|unfold closeApp|unfold minimizeApp|unfold focusApp|unfold toggleTask];
    cbn [windows].
  - rewrite ids_open. destruct (isOpen i d) eqn:E; [done|].
    rewrite isOpen_find in E. apply bool_decide_eq_false in E.
    apply NoDup_app. split; [done|]. split; [|apply NoDup_singleton].
    intros x Hx ->%list_elem_of_singleton. apply E.
    destruct (find (has_id i) (windows d)) eqn:F; [done|]. by apply find_none_absent in F.
  - by apply ids_filter.
  - rewrite map_ids; [done|]. intros w. by destruct (has_id i w).
  - rewrite map_ids; [done|]. intros w. by destruct (has_id i w).
  - rewrite map_ids; [done|]. intros w. by destruct (has_id i w).
Qed.

Lemma reachable_ids d : reachable d -> NoDup (map id (windows d)).
Proof. induction 1 as [|e d _ IH]; [apply NoDup_nil_2 | by apply handle_ids]. Qed.

(** X7.  An app never has two windows.  In every desk a run of events
    leads to, the windows carry distinct ids; and opening an app keeps the
    task bar as it is when the app has a window already (the window is
    reused) and puts one new button at its end when it has none. *)
Theorem one_window_per_app d i :
  reachable d ->
  NoDup (map id (windows d)) /\
  map id (windows (openApp i d)) =
    (if isOpen i d then map id (windows d) else map id (windows d) ++ [i]).
Proof. intros H. split; [by apply reachable_ids | apply ids_open]. Qed.

Lemma one_window_per_app_witness :
  let d := handle (Open "mines"%string) (handle (Open "about"%string) boot) in
  NoDup (map id (windows d)) /\
  map id (windows (openApp "about"%string d)) =
    (if isOpen "about"%string d then map id (windows d) else map id (windows d) ++ ["about"%string]).
Proof.
  apply (one_window_per_app (handle (Open "mines"%string) (handle (Open "about"%string) boot)) "about"%string).
  do 2 apply reach_event. apply reach_boot.
Defined.

(** ** Stacking *)

Lemma inc_bounds n : n <= 2 ^ 53 -> n <= inc n <= 2 ^ 53 /\ (10 <= n -> 10 < inc n).
Proof.
  assert (10 < 2 ^ 53) by reflexivity.
  unfold inc. destruct (n <? 2 ^ 53) eqn:E; [apply Z.ltb_lt in E|apply Z.ltb_ge in E]; lia.
Qed.

Lemma inc_below n : inc n < 2 ^ 53 -> inc n = n + 1.
Proof.
  unfold inc. destruct (n <? 2 ^ 53) eqn:E; [done|]. apply Z.ltb_ge in E. lia.
Qed.

Lemma inc_fresh n : n < 2 ^ 53 -> inc n = n + 1.
Proof. unfold inc. intros H. apply Z.ltb_lt in H. by rewrite H. Qed.

Lemma raise_bounds i top (g : win -> win) l lo :
  (forall w, z (g w) = top) -> 10 < top -> lo <= top ->
  Forall (fun w => 10 < z w <= lo) l ->
  Forall (fun w => 10 < z w <= top) (map (fun w => if has_id i w then g w else w) l).
Proof.
  intros Hg H10 Hlo H. induction H as [|w l Hw Hl IH]; simpl; constructor; [|done].
  destruct (has_id i w); [rewrite Hg|]; lia.
Qed.

Lemma raise_nodup i top (g : win -> win) l :
  (forall w, z (g w) = top) ->
  NoDup (map id l) -> NoDup (map z l) -> Forall (fun w => z w < top) l ->
  NoDup (map z (map (fun w => if has_id i w then g w else w) l)).
Proof.
  intros Hg. induction l as [|w l IH]; simpl; [done|].
  intros [Hi Hil]%NoDup_cons [Hz Hzl]%NoDup_cons Hlt.
  apply Forall_cons in Hlt as [Hw Hlt]. apply NoDup_cons.
  destruct (has_id i w) eqn:E.
  - apply has_id_true in E. subst i. rewrite map_absent by done. split; [|done].
    rewrite Hg. intros Hin. apply list_elem_of_In, in_map_iff in Hin as (w' & Ew & Hin).
    rewrite Forall_forall in Hlt. apply list_elem_of_In in Hin. specialize (Hlt w' Hin). lia.
  - split; [|by apply IH]. intros Hin.
    apply list_elem_of_In, in_map_iff in Hin as (w1 & Ew & Hin).
    apply in_map_iff in Hin as (w2 & <- & Hin).
    destruct (has_id i w2).
    + rewrite Hg in Ew. lia.
    + apply Hz. apply list_elem_of_In, in_map_iff. by exists w2.
Qed.

Lemma Forall_filter_keep {A} (P : A -> Prop) (f : A -> bool) l :
  Forall P l -> Forall P (List.filter f l).
Proof.
  induction 1 as [|a l Ha Hl IH]; simpl; [done|]. destruct (f a); [by constructor|done].
Qed.

Lemma zs_filter (f : win -> bool) l : NoDup (map z l) -> NoDup (map z (List.filter f l)).
Proof.
  induction l as [|w l IH]; simpl; [done|]. intros [Hw Hl]%NoDup_cons.
  destruct (f w); simpl; [|by apply IH]. apply NoDup_cons. split; [|by apply IH].
  intros H. apply Hw. apply list_elem_of_In, in_map_iff in H as (w' & E & Hin).
  apply filter_In in Hin as [Hin _]. apply list_elem_of_In, in_map_iff. by exists w'.
Qed.

Lemma below_lt top lo l :
  lo < top -> Forall (fun w => 10 < z w <= lo) l -> Forall (fun w => z w < top) l.
Proof. intros H Hl. eapply Forall_impl; [exact Hl|]. intros w. simpl. lia. Qed.

Lemma relabel_zs i (g : win -> win) l :
  (forall w, z (g w) = z w) ->
  map z (map (fun w => if has_id i w then g w else w) l) = map z l.
Proof.
  intros H. rewrite map_map. apply map_ext. intros w. destruct (has_id i w); [apply H|done].
Qed.

Lemma bounds_by_zs t l l' :
  map z l' = map z l ->
  Forall (fun w => 10 < z w <= t) l -> Forall (fun w => 10 < z w <= t) l'.
Proof.
  intros E H. apply (List.Forall_map z (fun n => 10 < n <= t)). rewrite E.
  by apply (List.Forall_map z (fun n => 10 < n <= t)).
Qed.

Lemma handle_stacked e d :
  NoDup (map id (windows d)) -> stacked d -> stacked (handle e d).
Proof.
  intros Hid ([H10 H53] & Hle & Hnd).
  pose proof (inc_bounds (zTop d) H53) as [Hinc Hinc'].
  destruct e as [i|i|i|i|i]; unfold stacked, handle;
    [unfold openApp|unfold closeApp|unfold minimizeApp|unfold focusApp|unfold toggleTask];
    cbn [zTop windows]; (split; [lia|]).
  - destruct (find (has_id i) (windows d)) eqn:F.
    + split; [apply (raise_bounds _ _ _ _ (zTop d)); [done|lia|lia|done]|].
      intros Hb. pose proof (inc_below _ Hb) as E.
      apply (raise_nodup i (inc (zTop d)) (fun w => mkWin (id w) false (inc (zTop d))));
        [done|done|apply Hnd; lia|].
      apply (below_lt _ (zTop d)); [lia|done].
    + split.
      * apply Forall_app. split.
        -- eapply Forall_impl; [exact Hle|]. intros w. simpl. lia.
        -- constructor; [cbn [z]; lia|constructor].
      * intros Hb. pose proof (inc_below _ Hb) as E. rewrite map_app. cbn [map z].
        apply NoDup_app. split; [apply Hnd; lia|]. split; [|apply NoDup_singleton].
        intros x Hx ->%list_elem_of_singleton.
        apply list_elem_of_In, in_map_iff in Hx as (w & Ew & Hin).
        rewrite Forall_forall in Hle. apply list_elem_of_In in Hin. specialize (Hle w Hin). lia.
  - split; [by apply Forall_filter_keep|]. intros Hb. by apply zs_filter, Hnd.
  - pose proof (relabel_zs i (fun x => mkWin (id x) true (z x)) (windows d)
                  ltac:(done)) as E.
    split; [by apply (bounds_by_zs _ (windows d))|]. intros Hb. rewrite E. by apply Hnd.
  - split; [apply (raise_bounds _ _ _ _ (zTop d)); [done|lia|lia|done]|].
    intros Hb. pose proof (inc_below _ Hb) as E.
    apply (raise_nodup i (inc (zTop d)) (fun w => mkWin (id w) (minimized w) (inc (zTop d))));
      [done|done|apply Hnd; lia|].
    apply (below_lt _ (zTop d)); [lia|done].
  - pose proof (relabel_zs i (fun x => mkWin (id x) (negb (minimized x)) (z x)) (windows d)
                  ltac:(done)) as E.
    split; [by apply (bounds_by_zs _ (windows d))|]. intros Hb. rewrite E. by apply Hnd.
Qed.

Lemma reachable_stacked d : reachable d -> stacked d.
Proof.
  induction 1 as [|e d Hd IH].
  - split; [cbn [zTop boot]; lia|]. split; [constructor|]. intros _. apply NoDup_nil_2.
  - apply handle_stacked; [by apply reachable_ids | done].
Qed.

(** X8.  The stacking order is strict.  In every desk a run of events
    leads to, each window lies above 10 and at or below the counter
    [zTop]; and as long as the counter is below 2^53 (each open and each
    focus raises it by one, from 10) no two windows share a z-index. *)
Theorem stacking_is_strict d :
  reachable d ->
  10 <= zTop d /\
  Forall (fun w => 10 < z w <= zTop d) (windows d) /\
  (zTop d < 2 ^ 53 -> NoDup (map z (windows d))).
Proof. intros ([H _] & H2 & H3)%reachable_stacked. done. Qed.

Lemma stacking_is_strict_witness :
  let d := handle (Focus "about"%string) (handle (Open "mines"%string) (handle (Open "about"%string) boot)) in
  10 <= zTop d /\
  Forall (fun w => 10 < z w <= zTop d) (windows d) /\
  (zTop d < 2 ^ 53 -> NoDup (map z (windows d))).
Proof.
  apply (stacking_is_strict
           (handle (Focus "about"%string) (handle (Open "mines"%string) (handle (Open "about"%string) boot)))).
  do 3 apply reach_event. apply reach_boot.
Defined.

Lemma raised_in_front i top (g : win -> win) l w0 :
  (forall w, id (g w) = id w) -> (forall w, z (g w) = top) ->
  w0 ∈ l -> id w0 = i -> Forall (fun w => z w < top) l ->
  let l' := map (fun w => if has_id i w then g w else w) l in
  g w0 ∈ l' /\ forall w', w' ∈ l' -> id w' <> i -> z w' < top.
Proof.
  intros Hid Hz Hin Hi Hlt l'. split.
  - apply list_elem_of_In, in_map_iff. exists w0.
    split; [|by apply list_elem_of_In]. apply has_id_true in Hi. by rewrite Hi.
  - intros w' Hw' Hne. apply list_elem_of_In, in_map_iff in Hw' as (w & <- & Hw).
    destruct (has_id i w) eqn:E.
    + apply has_id_true in E. rewrite Hid in Hne. done.
    + rewrite Forall_forall in Hlt. apply Hlt. by apply list_elem_of_In.
Qed.

(** X9.  Opening an app brings it to the front: its window is shown (not
    minimized) and lies strictly above the window of every other app,
    whether it was opened for the first time, was open already, or was
    minimized.  Focusing an open app raises its window in the same way and
    leaves everything else of it as it was: the window keeps its minimized
    flag, so a minimized window that is focused stays minimized, and no
    window is added or removed.  (The counter is below 2^53.) *)
Theorem open_brings_to_front d i :
  reachable d -> zTop d < 2 ^ 53 ->
  (exists w, in_front i w (openApp i d) /\ minimized w = false) /\
  (forall w0, w0 ∈ windows d -> id w0 = i ->
     in_front i (mkWin i (minimized w0) (inc (zTop d))) (focusApp i d) /\
     map id (windows (focusApp i d)) = map id (windows d) /\
     map minimized (windows (focusApp i d)) = map minimized (windows d)) /\
  (isOpen i d = true -> exists w0, w0 ∈ windows d /\ id w0 = i).
Proof.
  intros Hd Hb. destruct (reachable_stacked d Hd) as ([H10 H53] & Hle & Hnd).
  pose proof (inc_fresh _ Hb) as E.
  assert (Hlt : Forall (fun w => z w < inc (zTop d)) (windows d)).
  { apply (below_lt _ (zTop d)); [lia|done]. }
  split; [|split].
  - unfold openApp, in_front. simpl. destruct (find (has_id i) (windows d)) as [w0|] eqn:F.
    + apply find_some in F as [Hin Hi%has_id_true]. apply list_elem_of_In in Hin.
      destruct (raised_in_front i (inc (zTop d)) (fun w => mkWin (id w) false (inc (zTop d)))
                  (windows d) w0) as [H1 H2]; try done.
      exists (mkWin (id w0) false (inc (zTop d))). simpl. repeat split; try done.
    + exists (mkWin i false (inc (zTop d))). simpl. repeat split; try done.
      * apply elem_of_app. right. by apply list_elem_of_singleton.
      * intros w' [Hw'| ->%list_elem_of_singleton]%elem_of_app Hne; [|done].
        rewrite Forall_forall in Hlt. by apply Hlt.
  - intros w0 Hin Hi.
    destruct (raised_in_front i (inc (zTop d))
                (fun w => mkWin (id w) (minimized w) (inc (zTop d)))
                (windows d) w0) as [H1 H2]; try done.
    rewrite Hi in H1. split; [|split].
    + unfold in_front. simpl. repeat split; try done.
    + unfold focusApp. simpl. rewrite map_map. apply map_ext. intros x. by destruct (has_id i x).
    + unfold focusApp. simpl. rewrite map_map. apply map_ext. intros x. by destruct (has_id i x).
  - intros Ho. rewrite isOpen_find in Ho. apply bool_decide_eq_true in Ho as [w0 F].
    apply find_some in F as [Hin Hi%has_id_true]. apply list_elem_of_In in Hin. by exists w0.
Qed.

Lemma open_brings_to_front_witness :
  let d := handle (Minimize "about"%string) (handle (Open "mines"%string) (handle (Open "about"%string) boot)) in
  (exists w, in_front "about"%string w (openApp "about"%string d) /\ minimized w = false) /\
  (forall w0, w0 ∈ windows d -> id w0 = "about"%string ->
     in_front "about"%string (mkWin "about"%string (minimized w0) (inc (zTop d)))
       (focusApp "about"%string d) /\
     map id (windows (focusApp "about"%string d)) = map id (windows d) /\
     map minimized (windows (focusApp "about"%string d)) = map minimized (windows d)) /\
  (isOpen "about"%string d = true -> exists w0, w0 ∈ windows d /\ id w0 = "about"%string).
Proof.
  apply (open_brings_to_front
           (handle (Minimize "about"%string) (handle (Open "mines"%string) (handle (Open "about"%string) boot)))
           "about"%string).
  - do 3 apply reach_event. apply reach_boot.
  - vm_compute. reflexivity.
Defined.

(** X10.  The task-bar button is a switch: pressing it twice gives back
    the desk exactly, and one press changes nothing but the minimized flag
    of that app's window (the list of ids, every z-index and the counter
    are as before). *)
Theorem task_button_twice d i :
  toggleTask i (toggleTask i d) = d /\
  map id (windows (toggleTask i d)) = map id (windows d) /\
  map z (windows (toggleTask i d)) = map z (windows d) /\
  zTop (toggleTask i d) = zTop d.
Proof.
  split; [|split; [|split]]; [| | |done].
  - destruct d as [t l]. unfold toggleTask. simpl. f_equal.
    rewrite map_map. rewrite <- (map_id l) at 2. apply map_ext. intros w.
    destruct (has_id i w) eqn:E; [|by rewrite E]. unfold has_id in *. simpl. rewrite E.
    destruct w as [a b c]. simpl. by rewrite negb_involutive.
  - unfold toggleTask. simpl. rewrite map_map. apply map_ext. intros w. by destruct (has_id i w).
  - unfold toggleTask. simpl. rewrite map_map. apply map_ext. intros w. by destruct (has_id i w).
Qed.

End Desktop.

(** * Properties of Mines *)

Section MinesFacts.
Import Mines.

(** ** Reading and writing cells *)

Lemma at_Some (b : list cell) i c :
  at_ b i = Some c <-> 0 <= i /\ b !! Z.to_nat i = Some c.
Proof.
  unfold at_. destruct (i <? 0) eqn:E.
  - apply Z.ltb_lt in E. split; [done|]. intros [? _]. lia.
  - apply Z.ltb_ge in E. tauto.
Qed.

Lemma at_range (b : list cell) i c : at_ b i = Some c -> 0 <= i < Z.of_nat (length b).
Proof. intros [H1 H2%lookup_lt_Some]%at_Some. lia. Qed.

Lemma at_defined (b : list cell) i : 0 <= i < Z.of_nat (length b) -> is_Some (at_ b i).
Proof.
  intros H. destruct (lookup_lt_is_Some_2 b (Z.to_nat i)) as [c Hc]; [lia|].
  exists c. apply at_Some. split; [lia|done].
Qed.

Lemma at_insert_eq (b : list cell) i c c0 :
  at_ b i = Some c0 -> at_ (<[Z.to_nat i := c]> b) i = Some c.
Proof.
  intros [H1 H2]%at_Some. apply at_Some. split; [done|].
  apply list_lookup_insert_eq. by apply lookup_lt_Some in H2.
Qed.

Lemma at_insert_ne (b : list cell) i j c :
  0 <= i -> i <> j -> at_ (<[Z.to_nat i := c]> b) j = at_ b j.
Proof.
  intros Hi Hne. unfold at_. destruct (j <? 0) eqn:E; [done|]. apply Z.ltb_ge in E.
  apply list_lookup_insert_ne. lia.
Qed.

(** ** The neighbours of a cell *)

Section Neighbours.
Variables (W H : Z).
Hypothesis (HW : 0 < W) (HH : 0 < H).

Lemma cell_inb cx cy : inb W H cx cy = true <-> 0 <= cx < W /\ 0 <= cy < H.
Proof.
  unfold inb. rewrite !andb_true_iff, !Z.leb_le, !Z.ltb_lt. lia.
Qed.

Lemma idx_split cx cy : 0 <= cx < W -> col W (idx W cx cy) = cx /\ row W (idx W cx cy) = cy.
Proof.
  intros Hc. unfold col, row, idx. split.
  - rewrite Z.add_comm, Z.mod_add by lia. apply Z.mod_small. lia.
  - rewrite Z.add_comm, Z.div_add by lia. rewrite Z.div_small by lia. lia.
Qed.

Lemma cell_idx_range cx cy : inb W H cx cy = true -> 0 <= idx W cx cy < W * H.
Proof. intros [? ?]%cell_inb. unfold idx. nia. Qed.

Lemma cell_split i : 0 <= i < W * H ->
  i = idx W (col W i) (row W i) /\ 0 <= col W i < W /\ 0 <= row W i < H.
Proof.
  intros Hi. unfold idx, col, row.
  pose proof (Z.div_mod i W ltac:(lia)). pose proof (Z.mod_pos_bound i W HW).
  split; [lia|]. split; [done|]. split; [apply Z.div_pos; lia|].
  apply Z.div_lt_upper_bound; lia.
Qed.

Lemma flat_map_cond {A B} (c : A -> bool) (g : A -> B) l :
  flat_map (fun p => if c p then [g p] else []) l = map g (List.filter c l).
Proof. induction l as [|a l IH]; simpl; [done|]. destruct (c a); simpl; by rewrite IH. Qed.

Lemma nbors_around i :
  nbors W H i =
    map (fun p => idx W (fst p) (snd p))
      (List.filter (fun p => inb W H (fst p) (snd p)) (around (Z.rem i W) (i / W))).
Proof.
  rewrite <- flat_map_cond. unfold nbors, around. cbn.
  rewrite ?app_nil_r, <- ?app_assoc. reflexivity.
Qed.

Lemma around_spec cx cy p :
  In p (around cx cy) <->
  Z.abs (fst p - cx) <= 1 /\ Z.abs (snd p - cy) <= 1 /\ p <> (cx, cy).
Proof.
  destruct p as [a b]. unfold around. cbn [In fst snd]. split.
  - intros Hin. repeat (destruct Hin as [E|Hin]; [injection E as <- <-; split; [lia|split; [lia|intros [=]; lia]]|]). done.
  - intros (Ha & Hb & Hne).
    assert (Ha' : a = cx + -1 \/ a = cx + 0 \/ a = cx + 1) by lia.
    assert (Hb' : b = cy + -1 \/ b = cy + 0 \/ b = cy + 1) by lia.
    destruct Ha' as [->|[->| ->]], Hb' as [->|[->| ->]]; try tauto.
    exfalso. apply Hne. f_equal; lia.
Qed.

Lemma around_NoDup cx cy : NoDup (around cx cy).
Proof.
  unfold around. repeat (apply NoDup_cons; split;
    [rewrite ?not_elem_of_cons; repeat split; try apply not_elem_of_nil; intros [=]; lia|]).
  apply NoDup_nil_2.
Qed.

Lemma nbors_In i j :
  0 <= i < W * H -> In j (nbors W H i) <-> touching W H i j.
Proof.
  intros Hi. destruct (cell_split i Hi) as (Ei & Hc & Hr).
  rewrite nbors_around, Z.rem_mod_nonneg by lia. fold (col W i) (row W i).
  rewrite in_map_iff. split.
  - intros ([a b] & <- & [Hin Hb]%filter_In). cbn [fst snd] in *.
    apply around_spec in Hin as (Ha & Hb' & Hne). cbn [fst snd] in *.
    pose proof (cell_idx_range a b Hb). apply cell_inb in Hb as [Hx Hy].
    destruct (idx_split a b Hx) as [Ea Eb]. unfold touching. rewrite Ea, Eb.
    split; [done|]. split; [|done]. intros E. apply Hne.
    rewrite <- E, Ea, Eb. done.
  - intros (Hj & Hne & Hx & Hy). destruct (cell_split j Hj) as (Ej & Hcj & Hrj).
    exists (col W j, row W j). cbn [fst snd]. split; [done|]. apply filter_In.
    split; [|apply cell_inb; cbn [fst snd]; lia].
    apply around_spec. cbn [fst snd]. split; [done|]. split; [done|].
    intros [= E1 E2]. apply Hne. rewrite Ei, Ej, E1, E2. done.
Qed.

Lemma nbors_NoDup i : NoDup (nbors W H i).
Proof.
  rewrite nbors_around. apply (NoDup_fmap_2_strong (fun p => idx W (fst p) (snd p))).
  - intros [a b] [c d] [_ Hab]%list_elem_of_In%filter_In [_ Hcd]%list_elem_of_In%filter_In E.
    cbn [fst snd] in *. apply cell_inb in Hab as [Ha _], Hcd as [Hc _].
    destruct (idx_split a b Ha) as [Ea Eb]. destruct (idx_split c d Hc) as [Ec Ed].
    rewrite E in Ea, Eb. congruence.
  - apply NoDup_ListNoDup, List.NoDup_filter, NoDup_ListNoDup, around_NoDup.
Qed.

Lemma nbors_length i : (length (nbors W H i) <= 8)%nat.
Proof.
  rewrite nbors_around, length_map.
  etrans; [apply List.filter_length_le|]. done.
Qed.

Lemma nbors_range i j : In j (nbors W H i) -> 0 <= j < W * H.
Proof.
  rewrite nbors_around, in_map_iff. intros ([a b] & <- & [_ Hb]%filter_In).
  by apply cell_idx_range.
Qed.

End Neighbours.

(** X11.  [nbors(i)] lists, each once, exactly the cells of the board
    other than [i] whose column and row differ from those of [i] by one at
    most: at most eight cells, fewer at an edge. *)
Theorem nbors_are_the_touching_cells W H i :
  0 < W -> 0 < H -> 0 <= i < W * H ->
  (forall j, In j (nbors W H i) <-> touching W H i j) /\
  NoDup (nbors W H i) /\ (length (nbors W H i) <= 8)%nat.
Proof.
  intros HW HH Hi. split; [intros j; by apply nbors_In|].
  split; [by apply nbors_NoDup | apply nbors_length].
Qed.

Lemma nbors_are_the_touching_cells_witness :
  (forall j, In j (nbors 9 9 8) <-> touching 9 9 8 j) /\
  NoDup (nbors 9 9 8) /\ (length (nbors 9 9 8) <= 8)%nat.
Proof. apply (nbors_are_the_touching_cells 9 9 8); lia. Defined.

(** ** Counting cells *)

(** Counting by the cells is counting by their indices. *)
Lemma filter_by_index {A} (p : A -> bool) (q : nat -> bool) (l : list A) : forall s,
  (forall k c, l !! k = Some c -> p c = q (s + k)%nat) ->
  length (List.filter p l) = length (List.filter q (seq s (length l))).
Proof.
  induction l as [|a l IH]; intros s Hq; [done|]. cbn [List.filter length seq].
  rewrite (Hq 0%nat a eq_refl), Nat.add_0_r.
  assert (E : length (List.filter p l) = length (List.filter q (seq (S s) (length l)))).
  { apply IH. intros k c Hk. rewrite (Hq (S k) c Hk). f_equal. lia. }
  destruct (q s); cbn [length]; by rewrite E.
Qed.

Lemma count_ext (p : cell -> bool) (b b' : list cell) :
  Forall2 (fun c c' => p c' = p c) b b' -> count p b' = count p b.
Proof.
  unfold count. induction 1 as [|c c' b b' Hc Hb IH]; [done|].
  cbn [List.filter]. rewrite Hc. destruct (p c); cbn [length]; lia.
Qed.

Lemma count_zero (p : cell -> bool) (b : list cell) :
  count p b = 0 <-> Forall (fun c => p c = false) b.
Proof.
  unfold count. induction b as [|c b IH]; cbn [List.filter]; [by split; [constructor|]|].
  destruct (p c) eqn:E; cbn [length].
  - split; [lia|]. intros Hf. apply Forall_cons in Hf as [? _]. congruence.
  - rewrite IH. split; [by constructor|]. by intros [_ ?]%Forall_cons.
Qed.

Lemma count_insert (p : cell -> bool) (b : list cell) k c c' :
  b !! k = Some c ->
  count p (<[k := c']> b) =
    count p b + (if p c' then 1 else 0) - (if p c then 1 else 0).
Proof.
  unfold count. revert k. induction b as [|a b IH]; intros k; [done|]. destruct k.
  - intros [= ->]. change (<[0%nat:=c']> (c :: b)) with (c' :: b). cbn [List.filter].
    destruct (p c), (p c'); cbn [length]; lia.
  - intros Hk. specialize (IH k Hk).
    change (<[S k:=c']> (a :: b)) with (a :: <[k:=c']> b). cbn [List.filter].
    destruct (p a), (p c), (p c'); cbn [length] in *; lia.
Qed.

(** ** [placeMines] *)

Lemma existsb_eqb x (l : list Z) : existsb (Z.eqb x) l = true <-> x ∈ l.
Proof.
  rewrite existsb_exists, list_elem_of_In. split.
  - by intros (y & Hy & ->%Z.eqb_eq).
  - intros Hx. exists x. split; [done|apply Z.eqb_refl].
Qed.

Lemma existsb_eqb_false x (l : list Z) : existsb (Z.eqb x) l = false <-> x ∉ l.
Proof. rewrite <- existsb_eqb. by destruct (existsb _ _). Qed.

Lemma draw_spec M safe rs : forall acc ms,
  draw M safe rs acc = Some ms ->
  NoDup acc -> (safe ∉ acc) -> Z.of_nat (length acc) <= Z.max 0 M ->
  NoDup ms /\ (safe ∉ ms) /\ Z.of_nat (length ms) = Z.max 0 M /\
  (forall x, x ∈ ms -> x ∈ acc \/ In x rs).
Proof.
  induction rs as [|r0 rs IH]; intros acc ms; cbn [draw].
  - destruct (_ <? M) eqn:E; [done|]. apply Z.ltb_ge in E. intros [= <-] Hnd Hs Hl.
    repeat split; try done; [lia|tauto].
  - destruct (_ <? M) eqn:E.
    + apply Z.ltb_lt in E. intros Hd Hnd Hs Hl.
      destruct (negb (r0 =? safe) && negb (existsb (Z.eqb r0) acc)) eqn:Hc.
      * apply andb_true_iff in Hc as [H1%negb_true_iff%Z.eqb_neq H2%negb_true_iff%existsb_eqb_false].
        destruct (IH _ _ Hd) as (I1 & I2 & I3 & I4).
        -- apply NoDup_app. split; [done|]. split; [|apply NoDup_singleton].
           by intros x Hx ->%list_elem_of_singleton.
        -- rewrite not_elem_of_app, not_elem_of_cons. split; [done|].
           split; [congruence|apply not_elem_of_nil].
        -- rewrite length_app. cbn [length]. lia.
        -- repeat split; try done. intros x Hx.
           destruct (I4 x Hx) as [[?| ->%list_elem_of_singleton]%elem_of_app|?];
             [by left|right; by left|right; by right].
      * destruct (IH _ _ Hd Hnd Hs Hl) as (I1 & I2 & I3 & I4).
        repeat split; try done. intros x Hx. destruct (I4 x Hx); [by left|right; by right].
    + apply Z.ltb_ge in E. intros [= <-] Hnd Hs Hl. repeat split; try done; [lia|tauto].
Qed.

Lemma lay_lookup ms (b : list cell) k c :
  b !! k = Some c ->
  lay ms b !! k = Some (mkCell (r c) (f c) (existsb (Z.eqb (Z.of_nat k)) ms) (adj c)).
Proof. intros Hk. unfold lay. by rewrite list_lookup_imap, Hk. Qed.

Lemma lay_length ms (b : list cell) : length (lay ms b) = length b.
Proof. apply length_imap. Qed.

Lemma lay_lookup_inv ms (b : list cell) k c' :
  lay ms b !! k = Some c' ->
  exists c, b !! k = Some c /\
    c' = mkCell (r c) (f c) (existsb (Z.eqb (Z.of_nat k)) ms) (adj c).
Proof.
  intros Hk. destruct (b !! k) as [c|] eqn:E.
  - exists c. split; [done|]. rewrite (lay_lookup ms b k c E) in Hk. congruence.
  - apply lookup_ge_None in E. apply lookup_lt_Some in Hk. rewrite lay_length in Hk. lia.
Qed.

(** The mines laid are as many as were drawn. *)
Lemma lay_count ms (b : list cell) :
  NoDup ms -> Forall (fun x => 0 <= x < Z.of_nat (length b)) ms ->
  count mine (lay ms b) = Z.of_nat (length ms).
Proof.
  intros Hnd Hr. unfold count. f_equal.
  rewrite (filter_by_index mine (fun k => existsb (Z.eqb (Z.of_nat k)) ms) (lay ms b) 0).
  - rewrite lay_length. symmetry. rewrite <- (length_fmap Z.of_nat (List.filter _ _)).
    apply Permutation_length, NoDup_Permutation; [done| |].
    + apply NoDup_fmap_2; [apply Nat2Z.inj'|].
      apply NoDup_ListNoDup, List.NoDup_filter, seq_NoDup.
    + intros x. rewrite list_elem_of_fmap. split.
      * intros Hx. rewrite Forall_forall in Hr. specialize (Hr x Hx).
        exists (Z.to_nat x). split; [lia|]. apply list_elem_of_In, filter_In. split.
        -- apply in_seq. lia.
        -- apply existsb_eqb. by rewrite Z2Nat.id by lia.
      * intros (k & -> & [_ Hk%existsb_eqb]%list_elem_of_In%filter_In). done.
  - intros k c' (c & _ & ->)%lay_lookup_inv. done.
Qed.

Section Numbers.
Variables (W H : Z).
Hypothesis (HW : 0 < W) (HH : 0 < H).

Lemma minedAmong_cons b j js :
  minedAmong b (j :: js) =
    (match at_ b j with Some c => if mine c then 1 else 0 | None => 0 end) + minedAmong b js.
Proof.
  unfold minedAmong. cbn [List.filter]. destruct (at_ b j) as [c|]; [|lia].
  destruct (mine c); cbn [length]; lia.
Qed.

Lemma adj_fold next js : forall n,
  (forall j, In j js -> is_Some (at_ next j)) ->
  fold_left
    (fun a j =>
       match a, at_ next j with
       | Some n, Some c => Some (n + (if mine c then 1 else 0))
       | _, _ => None
       end) js (Some n) = Some (n + minedAmong next js).
Proof.
  induction js as [|j js IH]; intros n Hjs; cbn [fold_left].
  - unfold minedAmong. cbn. f_equal. lia.
  - destruct (Hjs j ltac:(by left)) as [c Hc]. rewrite Hc, IH by (intros; apply Hjs; by right).
    rewrite minedAmong_cons, Hc. f_equal. lia.
Qed.

Lemma adjAt_Some next i :
  Z.of_nat (length next) = W * H ->
  adjAt W H next i = Some (minedAmong next (nbors W H i)).
Proof.
  intros Hl. unfold adjAt. rewrite adj_fold; [done|].
  intros j Hj. eapply nbors_range in Hj; [|done..]. apply at_defined. lia.
Qed.

Lemma setAdj_spec next : forall cs k,
  Z.of_nat (length next) = W * H ->
  exists out, setAdj W H next k cs = Some out /\
    Forall2 (fun c c' => r c' = r c /\ f c' = f c /\ mine c' = mine c) cs out /\
    forall n c', out !! n = Some c' ->
      adj c' = minedAmong next (nbors W H (Z.of_nat (k + n))).
Proof.
  induction cs as [|c cs IH]; intros k Hl; cbn [setAdj].
  - exists []. split; [done|]. split; [constructor|]. by intros n c'.
  - rewrite adjAt_Some by done. destruct (IH (S k) Hl) as (out & -> & HF & Hadj).
    eexists. split; [done|]. split; [by constructor|].
    intros [|n] c'; cbn.
    + intros [= <-]. cbn. by rewrite Nat.add_0_r.
    + intros Hn. rewrite (Hadj n c' Hn). by replace (S k + n)%nat with (k + S n)%nat by lia.
Qed.

Lemma minedAmong_ext b b' js :
  Forall2 (fun c c' => mine c' = mine c) b b' -> minedAmong b' js = minedAmong b js.
Proof.
  intros HF. unfold minedAmong. f_equal. f_equal. apply filter_ext. intros j.
  unfold at_. destruct (j <? 0); [done|].
  destruct (b !! Z.to_nat j) as [c|] eqn:E.
  - destruct (Forall2_lookup_l _ _ _ _ _ HF E) as (c' & -> & Hc). done.
  - destruct (b' !! Z.to_nat j) as [c'|] eqn:E'; [|done].
    destruct (Forall2_lookup_r _ _ _ _ _ HF E') as (c & Hc & _). congruence.
Qed.

End Numbers.

(** What [placeMines] does whatever is drawn. *)
Lemma placeMines_frame rs safe g :
  sized g ->
  (placeMines rs safe g = None <-> draw (m (dim g)) safe rs [] = None) /\
  forall g', placeMines rs safe g = Some g' ->
    (exists ms, draw (m (dim g)) safe rs [] = Some ms /\
       Forall2 (fun c c' => mine c' = mine c) (lay ms (board g)) (board g')) /\
    (forall c, at_ (board g') safe = Some c -> mine c = false) /\
    numbered (w (dim g)) (h (dim g)) (board g') /\
    Forall2 (fun c c' => r c' = r c /\ f c' = f c) (board g) (board g') /\
    placed g' = true /\ dim g' = dim g /\ level g' = level g /\
    flags g' = flags g /\ lost g' = lost g /\ won g' = won g.
Proof.
  intros [Hd Hl]. unfold placeMines.
  destruct (draw (m (dim g)) safe rs []) as [ms|] eqn:Ed; [|split; [done|discriminate]].
  destruct (draw_spec _ _ _ _ _ Ed) as (Hnd & Hs & Hlen & Hin).
  { apply NoDup_nil_2. } { apply not_elem_of_nil. } { cbn. lia. }
  assert (HW : 0 < w (dim g)) by (rewrite Hd; destruct (level g); cbn; lia).
  assert (HH : 0 < h (dim g)) by (rewrite Hd; destruct (level g); cbn; lia).
  cbn zeta.
  destruct (setAdj_spec (w (dim g)) (h (dim g)) HW (lay ms (board g)) (lay ms (board g)) 0)
    as (out & -> & HF & Hadj); [by rewrite lay_length|].
  split; [split; discriminate|]. intros g' [= <-]. cbn.
  assert (Hm : Forall2 (fun c c' => mine c' = mine c) (lay ms (board g)) out).
  { eapply Forall2_impl; [exact HF|]. cbn. tauto. }
  split; [|split; [|split; [|split]]]; [| | | |done].
  - by exists ms.
  - intros c [H0 Hc]%at_Some.
    destruct (Forall2_lookup_r _ _ _ _ _ HF Hc) as (c1 & Hc1 & _ & _ & ->).
    apply lay_lookup_inv in Hc1 as (c0 & _ & ->). cbn.
    apply existsb_eqb_false. by rewrite Z2Nat.id by lia.
  - intros i c [H0 Hc]%at_Some. rewrite (Hadj _ _ Hc). cbn [Nat.add].
    rewrite Z2Nat.id by lia. symmetry. by apply minedAmong_ext.
  - apply Forall2_same_length_lookup. split; [by rewrite <- (Forall2_length _ _ _ HF), lay_length|].
    intros k c c' Hc Hc'.
    destruct (Forall2_lookup_r _ _ _ _ _ HF Hc') as (c1 & Hc1 & -> & -> & _).
    rewrite (lay_lookup ms _ _ _ Hc) in Hc1. injection Hc1 as <-. done.
Qed.

(** With draws that are cell indices the mines laid are [m]. *)
Lemma placeMines_count rs safe g g' :
  sized g -> Forall (fun x => 0 <= x < w (dim g) * h (dim g)) rs ->
  placeMines rs safe g = Some g' -> count mine (board g') = m (dim g).
Proof.
  intros Hs Hrs Hp. destruct (placeMines_frame rs safe g Hs) as [_ Hf].
  destruct (Hf g' Hp) as ((ms & Ed & Hm) & _). destruct Hs as [Hd Hl].
  destruct (draw_spec _ _ _ _ _ Ed) as (Hnd & _ & Hlen & Hin).
  { apply NoDup_nil_2. } { apply not_elem_of_nil. } { cbn. lia. }
  rewrite (count_ext mine _ _ Hm), lay_count; [|done|].
  - rewrite Hlen. rewrite Hd. destruct (level g); cbn; lia.
  - apply Forall_forall. intros x Hx. destruct (Hin x Hx) as [Hx'|Hx'].
    + by apply elem_of_nil in Hx'.
    + rewrite Forall_forall in Hrs. rewrite Hl. apply Hrs. by apply list_elem_of_In.
Qed.

(** X12.  [placeMines]: when the draws are cell indices and the loop has
    had enough of them, the board it sets has exactly [m] mined cells, the
    cell clicked is not one of them, every cell carries the number of its
    mined neighbours, what was revealed or flagged is as before, and
    [placed] is set.  It never throws: it fails to return only while the
    loop waits for another draw. *)
Theorem placeMines_lays_the_mines rs safe g :
  sized g -> Forall (fun x => 0 <= x < w (dim g) * h (dim g)) rs ->
  (placeMines rs safe g = None <-> draw (m (dim g)) safe rs [] = None) /\
  forall g', placeMines rs safe g = Some g' ->
    count mine (board g') = m (dim g) /\
    (forall c, at_ (board g') safe = Some c -> mine c = false) /\
    numbered (w (dim g)) (h (dim g)) (board g') /\
    Forall2 (fun c c' => r c' = r c /\ f c' = f c) (board g) (board g') /\
    placed g' = true /\ dim g' = dim g /\ level g' = level g /\
    flags g' = flags g /\ lost g' = lost g /\ won g' = won g.
Proof.
  intros Hs Hrs. destruct (placeMines_frame rs safe g Hs) as [Hn Hf]. split; [done|].
  intros g' Hp. split; [by apply (placeMines_count rs safe)|].
  by destruct (Hf g' Hp) as (_ & ?).
Qed.

Lemma placeMines_lays_the_mines_witness :
  (placeMines sample_draws 0 mount = None <-> draw (m (dim mount)) 0 sample_draws [] = None) /\
  forall g', placeMines sample_draws 0 mount = Some g' ->
    count mine (board g') = m (dim mount) /\
    (forall c, at_ (board g') 0 = Some c -> mine c = false) /\
    numbered (w (dim mount)) (h (dim mount)) (board g') /\
    Forall2 (fun c c' => r c' = r c /\ f c' = f c) (board mount) (board g') /\
    placed g' = true /\ dim g' = dim mount /\ level g' = level mount /\
    flags g' = flags mount /\ lost g' = lost mount /\ won g' = won mount.
Proof.
  apply (placeMines_lays_the_mines sample_draws 0 mount).
  - split; [reflexivity | vm_compute; reflexivity].
  - repeat constructor; cbn; lia.
Defined.

Lemma laid_placed : placeMines sample_draws 0 mount = Some laid.
Proof. vm_compute. reflexivity. Qed.

Lemma mount_sized : sized mount.
Proof. split; [reflexivity | vm_compute; reflexivity]. Qed.

Lemma laid_numbered : numbered 9 9 (board laid).
Proof.
  destruct (placeMines_frame sample_draws 0 mount mount_sized) as [_ Hf].
  by destruct (Hf laid laid_placed) as (_ & _ & ? & _).
Qed.

(** ** [flood] *)

Lemma Forall2_insert_right {A B} (P : A -> B -> Prop) (l : list A) (k : list B) i x y :
  Forall2 P l k -> l !! i = Some x -> P x y -> Forall2 P l (<[i:=y]> k).
Proof.
  intros HF Hl HP. rewrite <- (list_insert_id l i x Hl). by apply Forall2_insert.
Qed.

Lemma grown_refl (b : list cell) : Forall2 grown b b.
Proof. induction b; constructor; [by repeat split|done]. Qed.

Lemma grown_reveal (b0 b : list cell) i c :
  Forall2 grown b0 b -> at_ b i = Some c -> f c = false ->
  Forall2 grown b0 (<[Z.to_nat i := reveal c]> b).
Proof.
  intros HF [Hi Hc]%at_Some Hf.
  destruct (Forall2_lookup_r _ _ _ _ _ HF Hc) as (c0 & Hc0 & G1 & G2 & G3 & G4 & G5).
  apply (Forall2_insert_right _ _ _ _ c0); [done|done|].
  repeat split; cbn; try done. intros E. congruence.
Qed.

Lemma grown_trans (a b c : list cell) :
  Forall2 grown a b -> Forall2 grown b c -> Forall2 grown a c.
Proof.
  intros H1 H2. apply Forall2_same_length_lookup.
  split; [by rewrite (Forall2_length _ _ _ H1), (Forall2_length _ _ _ H2)|].
  intros k x z Hx Hz. destruct (Forall2_lookup_l _ _ _ _ _ H1 Hx) as (y & Hy & A1 & A2 & A3 & A4 & A5).
  destruct (Forall2_lookup_lr _ _ _ _ _ _ H2 Hy Hz) as (B1 & B2 & B3 & B4 & B5).
  repeat split; try congruence; [tauto|]. intros E. rewrite B5, A5; [done|done|congruence].
Qed.

Lemma hidden_true b j :
  hidden b j = true <-> exists c, at_ b j = Some c /\ r c = false /\ f c = false.
Proof.
  unfold hidden. destruct (at_ b j) as [c|].
  - rewrite andb_true_iff, !negb_true_iff. split; [intros [? ?]; by exists c|].
    by intros (c' & [= <-] & ? & ?).
  - split; [done|]. by intros (c & ? & _).
Qed.

Lemma pushAll_spec next : forall js st,
  (forall j, In j js -> is_Some (at_ next j)) ->
  exists st', pushAll next js st = Some st' /\
    (length st' <= length st + length js)%nat /\
    forall x, In x st' <-> In x st \/ (In x js /\ hidden next x = true).
Proof.
  induction js as [|j js IH]; intros st Hjs; cbn [pushAll].
  - exists st. split; [done|]. split; [lia|]. intros x. cbn. tauto.
  - destruct (Hjs j ltac:(by left)) as [c Hc]. rewrite Hc.
    destruct (IH (if negb (r c) && negb (f c) then j :: st else st)) as (st' & -> & Hl & Hin).
    { intros; apply Hjs; by right. }
    exists st'. split; [done|]. split.
    + destruct (negb (r c) && negb (f c)); cbn [length] in *; lia.
    + intros x. rewrite Hin. assert (Hh : hidden next j = negb (r c) && negb (f c))
        by (unfold hidden; by rewrite Hc).
      destruct (negb (r c) && negb (f c)); cbn [In]; split.
      * intros [[<-|?]|[? ?]]; [right; split; [by left|done]|by left|right; split; [by right|done]].
      * intros [?|[[<-|?] ?]]; [left; by right|left; by left|right; by split].
      * intros [?|[? ?]]; [by left|right; split; [by right|done]].
      * intros [?|[[<-|?] ?]]; [by left|congruence|right; by split].
Qed.

(** The loop keeps what its three kinds of round keep. *)
Section FloodRule.
Variables (W H : Z) (I : list cell -> list Z -> Prop).
Hypothesis I_skip : forall b i st c,
  I b (i :: st) -> at_ b i = Some c -> r c || f c = true -> I b st.
Hypothesis I_spread : forall b i st c st',
  I b (i :: st) -> at_ b i = Some c -> r c = false -> f c = false ->
  adj c = 0 -> mine c = false ->
  pushAll (<[Z.to_nat i := reveal c]> b) (nbors W H i) st = Some st' ->
  I (<[Z.to_nat i := reveal c]> b) st'.
Hypothesis I_reveal : forall b i st c,
  I b (i :: st) -> at_ b i = Some c -> r c = false -> f c = false ->
  (adj c =? 0) && negb (mine c) = false ->
  I (<[Z.to_nat i := reveal c]> b) st.

Lemma floodLoop_rule fuel : forall b st b',
  floodLoop W H fuel b st = Some b' -> I b st -> I b' [].
Proof.
  induction fuel as [|fuel IH]; intros b st b'; destruct st as [|i st]; cbn [floodLoop];
    try (by intros [= <-]).
  destruct (at_ b i) as [c|] eqn:Hc; [|done].
  destruct (r c || f c) eqn:Hrf; [intros Hl Hi; apply (IH _ _ _ Hl); by eapply I_skip|].
  apply orb_false_iff in Hrf as [Hr Hf].
  destruct ((adj c =? 0) && negb (mine c)) eqn:Hz.
  - apply andb_true_iff in Hz as [Ha%Z.eqb_eq Hm%negb_true_iff].
    destruct (pushAll _ _ _) as [st'|] eqn:Hp; [|done].
    intros Hl Hi. apply (IH _ _ _ Hl). by eapply I_spread.
  - intros Hl Hi. apply (IH _ _ _ Hl). by eapply I_reveal.
Qed.
End FloodRule.

Section Flood.
Variables (W H : Z).
Hypothesis (HW : 0 < W) (HH : 0 < H).

Lemma nbors_defined (b : list cell) i j :
  Z.of_nat (length b) = W * H -> In j (nbors W H i) -> is_Some (at_ b j).
Proof. intros Hl Hj. eapply nbors_range in Hj; [|done..]. apply at_defined. lia. Qed.

(** Enough fuel: a pop that reveals takes nine from the measure and gives
    back eight at most, a pop that drops takes one. *)
Lemma floodLoop_total fuel : forall b st,
  Z.of_nat (length b) = W * H -> (forall x, In x st -> 0 <= x < W * H) ->
  9 * count (fun c => negb (r c)) b + Z.of_nat (length st) <= Z.of_nat fuel ->
  is_Some (floodLoop W H fuel b st).
Proof.
  induction fuel as [|fuel IH]; intros b st Hl Hst Hm; destruct st as [|i st];
    cbn [floodLoop]; try done.
  - exfalso. unfold count in Hm. cbn [length] in Hm. lia.
  - destruct (at_defined b i) as [c Hc]; [rewrite Hl; apply Hst; by left|]. rewrite Hc.
    assert (Hst' : forall x, In x st -> 0 <= x < W * H) by (intros; apply Hst; by right).
    cbn [length] in Hm. destruct (r c || f c) eqn:Hrf; [apply IH; [done|done|lia]|].
    apply orb_false_iff in Hrf as [Hr Hf]. pose proof Hc as [Hi Hc']%at_Some.
    pose proof (count_insert (fun c => negb (r c)) b _ c (reveal c) Hc') as Hcount.
    cbn in Hcount. rewrite Hr in Hcount. cbn in Hcount.
    destruct ((adj c =? 0) && negb (mine c)).
    + destruct (pushAll_spec (<[Z.to_nat i := reveal c]> b) (nbors W H i) st)
        as (st' & -> & Hlen & Hin).
      { intros j Hj. apply (nbors_defined _ i); [by rewrite length_insert|done]. }
      pose proof (nbors_length W H i). apply IH; [by rewrite length_insert| |lia].
      intros x [?|[Hx _]]%Hin; [by apply Hst'|]. exact (nbors_range W H HW i x Hx).
    + apply IH; [by rewrite length_insert|done|lia].
Qed.

Lemma flood_total b start :
  Z.of_nat (length b) = W * H -> 0 <= start < W * H -> is_Some (flood W H b start).
Proof.
  intros Hl Hs. apply floodLoop_total; [done|by intros x [<-|[]]|].
  pose proof (List.filter_length_le (fun c => negb (r c)) b). unfold count. cbn [length]. lia.
Qed.

(** Revealing is all the loop does to a board. *)
Lemma floodLoop_grown b0 fuel b st b' :
  floodLoop W H fuel b st = Some b' -> Forall2 grown b0 b -> Forall2 grown b0 b'.
Proof.
  apply (floodLoop_rule W H (fun b _ => Forall2 grown b0 b)).
  - done.
  - intros b1 i st1 c st' Hg Hc _ Hf _ _ _. by apply grown_reveal.
  - intros b1 i st1 c Hg Hc _ Hf _. by apply grown_reveal.
Qed.

Lemma grown_length b b' : Forall2 grown b b' -> length b' = length b.
Proof. intros Hg. symmetry. by eapply Forall2_length. Qed.

Lemma minedAmong_zero b js j c :
  minedAmong b js = 0 -> In j js -> at_ b j = Some c -> mine c = false.
Proof.
  unfold minedAmong. intros Hz Hj Hc. destruct (mine c) eqn:E; [|done]. exfalso.
  assert (Hin : In j (List.filter
    (fun j => match at_ b j with Some c => mine c | None => false end) js)).
  { apply filter_In. split; [done|]. by rewrite Hc. }
  destruct (List.filter _ js); [done|]. cbn [length] in Hz. lia.
Qed.

Lemma floodLoop_sparing b0 fuel b st b' :
  Z.of_nat (length b0) = W * H -> numbered W H b0 ->
  floodLoop W H fuel b st = Some b' ->
  Forall2 grown b0 b /\ sparing b0 b st -> Forall2 grown b0 b' /\ sparing b0 b' [].
Proof.
  intros Hl0 Hnum.
  apply (floodLoop_rule W H (fun b st => Forall2 grown b0 b /\ sparing b0 b st)).
  - intros b1 i st1 c [Hg [Hst HF]] Hc _. split; [done|]. split; [|done].
    intros x c0 Hx. apply Hst. by right.
  - intros b1 i st1 c st' [Hg [Hst HF]] Hc Hr Hf Ha Hm Hp.
    pose proof Hc as [Hi Hc']%at_Some.
    destruct (Forall2_lookup_r _ _ _ _ _ Hg Hc') as (c0 & Hc0 & G1 & G2 & G3 & G4 & G5).
    split; [by apply grown_reveal|]. split.
    + destruct (pushAll_spec (<[Z.to_nat i := reveal c]> b1) (nbors W H i) st1)
        as (st2 & Hp2 & _ & Hin).
      { intros j Hj. apply (nbors_defined _ i); [|done].
        by rewrite length_insert, (grown_length _ _ Hg). }
      rewrite Hp in Hp2. injection Hp2 as <-.
      intros x cx [Hx|[Hx _]]%Hin Hcx; [apply (Hst x); [by right|done]|].
      assert (Hz : minedAmong b0 (nbors W H i) = 0).
      { rewrite <- (Hnum i c0); [congruence|]. by apply at_Some. }
      by apply (minedAmong_zero b0 _ x cx Hz).
    + apply (Forall2_insert_right _ _ _ _ c0); [done|done|]. cbn. intros E.
      rewrite (Hst i c0) in E; [done|by left|by apply at_Some].
  - intros b1 i st1 c [Hg [Hst HF]] Hc Hr Hf _.
    pose proof Hc as [Hi Hc']%at_Some.
    destruct (Forall2_lookup_r _ _ _ _ _ Hg Hc') as (c0 & Hc0 & _).
    split; [by apply grown_reveal|]. split; [intros x c0' Hx; apply Hst; by right|].
    apply (Forall2_insert_right _ _ _ _ c0); [done|done|]. cbn. intros E.
    rewrite (Hst i c0) in E; [done|by left|by apply at_Some].
Qed.

Lemma opened_before b0 (b : list cell) i c i' :
  0 <= i -> i' <> i -> opened b0 (<[Z.to_nat i := reveal c]> b) i' -> opened b0 b i'.
Proof.
  intros Hi Hne (c0 & c' & H0 & H1 & Hrest). exists c0, c'.
  rewrite at_insert_ne in H1 by done. done.
Qed.

Lemma floodLoop_spreading b0 fuel b st b' :
  Z.of_nat (length b0) = W * H ->
  floodLoop W H fuel b st = Some b' ->
  Forall2 grown b0 b /\ spreading W H b0 b st ->
  Forall2 grown b0 b' /\ spreading W H b0 b' [].
Proof.
  intros Hl0.
  apply (floodLoop_rule W H (fun b st => Forall2 grown b0 b /\ spreading W H b0 b st)).
  - intros b1 i st1 c [Hg Hs] Hc Hrf. split; [done|]. intros i' j cj Ho Hj Hcj.
    destruct (Hs i' j cj Ho Hj Hcj) as [?|[?|[<-|?]]]; try tauto.
    rewrite Hc in Hcj. injection Hcj as <-. apply orb_true_iff in Hrf. tauto.
  - intros b1 i st1 c st' [Hg Hs] Hc Hr Hf Ha Hm Hp.
    pose proof Hc as [Hi Hc']%at_Some. split; [by apply grown_reveal|].
    destruct (pushAll_spec (<[Z.to_nat i := reveal c]> b1) (nbors W H i) st1)
      as (st2 & Hp2 & _ & Hin).
    { intros j Hj. apply (nbors_defined _ i); [|done].
      by rewrite length_insert, (grown_length _ _ Hg). }
    rewrite Hp in Hp2. injection Hp2 as <-.
    intros i' j cj Ho Hj Hcj. destruct (Z.eq_dec i' i) as [->|Hne].
    + destruct (hidden (<[Z.to_nat i := reveal c]> b1) j) eqn:Hh.
      * right. right. apply Hin. right. by split.
      * unfold hidden in Hh. rewrite Hcj in Hh. apply andb_false_iff in Hh.
        destruct Hh as [E%negb_false_iff|E%negb_false_iff]; tauto.
    + apply opened_before in Ho; [|done..]. destruct (Z.eq_dec j i) as [->|Hji].
      * rewrite (at_insert_eq _ _ _ _ Hc) in Hcj. injection Hcj as <-. by left.
      * rewrite at_insert_ne in Hcj by done.
        destruct (Hs i' j cj Ho Hj Hcj) as [?|[?|[?|?]]]; try tauto; [congruence|].
        right. right. apply Hin. by left.
  - intros b1 i st1 c [Hg Hs] Hc Hr Hf Hz.
    pose proof Hc as [Hi Hc']%at_Some. split; [by apply grown_reveal|].
    intros i' j cj Ho Hj Hcj. destruct (Z.eq_dec i' i) as [->|Hne].
    + exfalso. destruct Ho as (c0 & c' & _ & Hc1 & _ & _ & Ha & Hm).
      rewrite (at_insert_eq _ _ _ _ Hc) in Hc1. injection Hc1 as <-. cbn in Ha, Hm.
      rewrite Ha, Hm in Hz. done.
    + apply opened_before in Ho; [|done..]. destruct (Z.eq_dec j i) as [->|Hji].
      * rewrite (at_insert_eq _ _ _ _ Hc) in Hcj. injection Hcj as <-. by left.
      * rewrite at_insert_ne in Hcj by done.
        destruct (Hs i' j cj Ho Hj Hcj) as [?|[?|[?|?]]]; try tauto. congruence.
Qed.

Lemma spreading_start b st : spreading W H b b st.
Proof. intros i j cj (c & c' & H0 & H1 & Hr & Hr' & _). congruence. Qed.

Lemma flood_start b start b' c' :
  flood W H b start = Some b' -> at_ b' start = Some c' -> r c' = true \/ f c' = true.
Proof.
  unfold flood. rewrite Nat.add_1_r. cbn [floodLoop].
  destruct (at_ b start) as [c|] eqn:Hc; [|done].
  destruct (r c || f c) eqn:Hrf.
  - destruct (9 * length b)%nat; cbn [floodLoop]; intros [= <-]; rewrite Hc;
      intros [= <-]; apply orb_true_iff in Hrf; tauto.
  - apply orb_false_iff in Hrf as [Hr Hf]. intros Hl Hc'. left.
    assert (Hg : Forall2 grown (<[Z.to_nat start := reveal c]> b) b').
    { destruct ((adj c =? 0) && negb (mine c)).
      - destruct (pushAll _ _ _); [|done]. eapply floodLoop_grown; [exact Hl|apply grown_refl].
      - eapply floodLoop_grown; [exact Hl|apply grown_refl]. }
    pose proof Hc' as [Hi Hc2]%at_Some.
    destruct (Forall2_lookup_r _ _ _ _ _ Hg Hc2) as (c1 & Hc1 & _ & _ & _ & G & _).
    apply G. pose proof (at_insert_eq b start (reveal c) c Hc) as [_ E]%at_Some.
    rewrite E in Hc1. by injection Hc1 as <-.
Qed.

End Flood.

(** X13.  [flood] always returns, on a board of [w*h] cells and from a
    cell of it, and all it does is reveal: the board it returns has the
    same flags, mines and numbers, every cell revealed before is still
    revealed, no flagged cell was revealed, and the start cell is revealed
    unless it is flagged. *)
Theorem flood_only_reveals W H b start :
  0 < W -> 0 < H -> Z.of_nat (length b) = W * H -> 0 <= start < W * H ->
  exists b', flood W H b start = Some b' /\ Forall2 grown b b' /\
    forall c', at_ b' start = Some c' -> r c' = true \/ f c' = true.
Proof.
  intros HW HH Hl Hs. destruct (flood_total W H HW b start Hl Hs) as [b' Hb'].
  exists b'. split; [done|]. split.
  - eapply (floodLoop_grown W H); [exact Hb'|apply grown_refl].
  - intros c'. by apply (flood_start W H b).
Qed.

Lemma flood_only_reveals_witness :
  exists b', flood 9 9 (board mount) 40 = Some b' /\ Forall2 grown (board mount) b' /\
    forall c', at_ b' 40 = Some c' -> r c' = true \/ f c' = true.
Proof. apply (flood_only_reveals 9 9 (board mount) 40); [lia|lia|reflexivity|lia]. Defined.

Lemma Forall2_diag {A} (P : A -> A -> Prop) (l : list A) :
  (forall a, P a a) -> Forall2 P l l.
Proof. intros HP. induction l; constructor; [apply HP|done]. Qed.

(** X14.  On a board whose numbers are right, a [flood] from a cell that
    is not mined never reveals a mine: the cells it walks over are the
    neighbours of cells with number 0. *)
Theorem flood_spares_mines W H b start c b' :
  0 < W -> 0 < H -> Z.of_nat (length b) = W * H -> numbered W H b ->
  at_ b start = Some c -> mine c = false ->
  flood W H b start = Some b' ->
  Forall2 (fun c0 c' => mine c0 = true -> r c' = r c0) b b'.
Proof.
  intros HW HH Hl Hnum Hc Hm Hf.
  destruct (floodLoop_sparing W H HW b _ _ _ _ Hl Hnum Hf) as [_ [_ HF]]; [|done].
  split; [apply grown_refl|]. split.
  - intros x c0 [<-|[]] Hx. congruence.
  - by apply Forall2_diag.
Qed.

Lemma flood_spares_mines_witness :
  Forall2 (fun c0 c' => mine c0 = true -> r c' = r c0) (board laid) laid_flooded.
Proof.
  apply (flood_spares_mines 9 9 (board laid) 0 (mkCell false false false 0) laid_flooded);
    [lia|lia|reflexivity|apply laid_numbered|reflexivity|reflexivity|vm_compute; reflexivity].
Defined.

(** X15.  [flood] leaves no gap: when it is done, every neighbour of a
    cell it has opened (revealed, with number 0 and no mine) is revealed
    too, or is flagged. *)
Theorem flood_leaves_no_gap W H b start b' i j cj :
  0 < W -> 0 < H -> Z.of_nat (length b) = W * H ->
  flood W H b start = Some b' ->
  opened b b' i -> In j (nbors W H i) -> at_ b' j = Some cj ->
  r cj = true \/ f cj = true.
Proof.
  intros HW HH Hl Hf Ho Hj Hcj.
  destruct (floodLoop_spreading W H HW b _ _ _ _ Hl Hf) as [_ Hs].
  { split; [apply grown_refl|apply spreading_start]. }
  destruct (Hs i j cj Ho Hj Hcj) as [?|[?|[]]]; tauto.
Qed.

Lemma flood_leaves_no_gap_witness :
  exists cj, at_ laid_flooded 10 = Some cj /\ (r cj = true \/ f cj = true).
Proof.
  eexists. split; [reflexivity|].
  apply (flood_leaves_no_gap 9 9 (board laid) 0 laid_flooded 0 10);
    [lia|lia|reflexivity|vm_compute; reflexivity| |vm_compute; tauto|reflexivity].
  eexists. eexists. repeat split; reflexivity.
Defined.

(** ** The game *)

Lemma fresh_steady l : steady (fresh l).
Proof.
  assert (Hb : Forall (fun c => c = blank) (board (fresh l))).
  { apply Forall_forall. intros c. unfold fresh. cbn [board].
    by intros [-> _]%elem_of_replicate. }
  split; [split; [done|by destruct l]|]. split; [|split; [|split]].
  - symmetry. apply count_zero. eapply Forall_impl; [exact Hb|]. by intros c ->.
  - intros _. split; [|done]. eapply Forall_impl; [exact Hb|]. by intros c ->.
  - done.
  - done.
Qed.

Lemma checkWin_fields b g :
  board (checkWin b g) = board g /\ flags (checkWin b g) = flags g /\
  placed (checkWin b g) = placed g /\ lost (checkWin b g) = lost g /\
  dim (checkWin b g) = dim g /\ level (checkWin b g) = level g /\
  won (checkWin b g) = (if safeRevealed b then true else won g).
Proof. unfold checkWin. by destruct (safeRevealed b). Qed.

Lemma Forall2_map_right {A B C} (P : A -> C -> Prop) (g : B -> C) l k :
  Forall2 (fun x y => P x (g y)) l k -> Forall2 P l (map g k).
Proof. induction 1; by constructor. Qed.

(** The ways of a left click. *)
Lemma leftClick_cases rs i g g' :
  leftClick rs i g = Some g' ->
  (lost g || won g = true /\ g' = g) \/
  (lost g || won g = false /\
   exists g1 c,
     (if placed g then Some g else placeMines rs i g) = Some g1 /\
     at_ (board g1) i = Some c /\
     ((f c || r c = true /\ g' = g1) \/
      (f c || r c = false /\ mine c = true /\
       g' = revealAllMines
              (set_lost true (set_board (<[Z.to_nat i := reveal c]> (board g1)) g1))) \/
      (f c || r c = false /\ mine c = false /\ adj c = 0 /\
       exists next, flood (w (dim g)) (h (dim g)) (board g) i = Some next /\
         g' = checkWin next (set_board next g1)) \/
      (f c || r c = false /\ mine c = false /\ adj c <> 0 /\
       g' = checkWin (<[Z.to_nat i := reveal c]> (board g1))
              (set_board (<[Z.to_nat i := reveal c]> (board g1)) g1)))).
Proof.
  unfold leftClick. destruct (lost g || won g); [intros [= <-]; by left|].
  destruct (if placed g then Some g else placeMines rs i g) as [g1|]; [|done].
  destruct (at_ (board g1) i) as [c|] eqn:Hc; [|done].
  intros Hg. right. split; [done|]. exists g1, c. split; [done|]. split; [done|].
  destruct (f c || r c); [injection Hg as <-; by left|]. right.
  destruct (mine c); [injection Hg as <-; by left|]. right.
  destruct (adj c =? 0) eqn:Ha.
  - apply Z.eqb_eq in Ha. destruct (flood _ _ _ _) as [next|]; [|done].
    injection Hg as <-. left. repeat split; try done. by exists next.
  - apply Z.eqb_neq in Ha. injection Hg as <-. right. by repeat split.
Qed.

(** The state in which the functional update of a left click runs. *)
Lemma placing_steady rs i g g1 :
  steady g -> lost g || won g = false ->
  (if placed g then Some g else placeMines rs i g) = Some g1 ->
  steady g1 /\ placed g1 = true /\ dim g1 = dim g /\ level g1 = level g /\
  lost g1 = false /\ won g1 = false /\ flags g1 = flags g /\
  Forall2 (fun c c' => r c' = r c /\ f c' = f c) (board g) (board g1) /\
  (placed g = false -> forall c, at_ (board g1) i = Some c -> mine c = false).
Proof.
  intros Hs Hlw Hg1. apply orb_false_iff in Hlw as [Hlost Hwon].
  destruct (placed g) eqn:Hp.
  - injection Hg1 as <-. split; [done|]. do 6 (split; [done|]).
    split; [by apply Forall2_diag|congruence].
  - destruct Hs as (Hsz & Hfl & _).
    destruct (placeMines_frame rs i g Hsz) as [_ Hf].
    destruct (Hf g1 Hg1) as (_ & Hsafe & _ & HF & Hpl & Hd & Hlv & Hflags & Hl & Hw).
    split; [|repeat split; try done; congruence].
    split; [|split; [|split; [|split]]].
    + destruct Hsz as [H1 H2]. split; [congruence|].
      rewrite <- (Forall2_length _ _ _ HF), Hd. done.
    + rewrite Hflags, Hfl. symmetry. apply count_ext.
      eapply Forall2_impl; [exact HF|]. cbn. tauto.
    + congruence.
    + congruence.
    + congruence.
Qed.

Lemma sized_board b g :
  sized g -> length b = length (board g) -> sized (set_board b g).
Proof. intros [H1 H2] Hl. split; [done|]. cbn. by rewrite Hl. Qed.

Lemma revealed_steady next g1 :
  steady g1 -> placed g1 = true -> lost g1 = false -> won g1 = false ->
  length next = length (board g1) ->
  Forall2 (fun c c' => f c' = f c) (board g1) next ->
  steady (checkWin next (set_board next g1)).
Proof.
  intros (Hsz & Hfl & _) Hp Hl Hw Hlen HF.
  destruct (checkWin_fields next (set_board next g1)) as (E1 & E2 & E3 & E4 & E5 & E6 & E7).
  unfold steady, sized. rewrite E1, E2, E3, E4, E5, E6, E7.
  cbn [board flags placed lost dim level won set_board].
  split; [destruct Hsz as [H1 H2]; split; [done|by rewrite Hlen]|]. split; [|split; [|split]].
  - rewrite Hfl. symmetry. by apply count_ext.
  - congruence.
  - destruct (safeRevealed next); [done|congruence].
  - congruence.
Qed.

Lemma leftClick_steady rs i g g' : steady g -> leftClick rs i g = Some g' -> steady g'.
Proof.
  intros Hs [[_ ->]|(Hlw & g1 & c & Hg1 & Hc & Hcases)]%leftClick_cases; [done|].
  destruct (placing_steady rs i g g1 Hs Hlw Hg1)
    as (Hs1 & Hp1 & Hd1 & Hlv1 & Hl1 & Hw1 & Hf1 & HF & _).
  pose proof Hc as [Hi Hc']%at_Some.
  assert (Hrev : Forall2 (fun c c' => f c' = f c) (board g1)
                   (<[Z.to_nat i := reveal c]> (board g1))).
  { apply (Forall2_insert_right _ _ _ _ c); [by apply Forall2_diag|done|done]. }
  destruct Hcases as [[_ ->]|[(_ & Hm & ->)|[(_ & _ & _ & next & Hn & ->)|(_ & _ & _ & ->)]]].
  - done.
  - destruct Hs1 as (Hsz & Hfl & _). unfold revealAllMines. cbn.
    split; [|split; [|split; [|split]]]; cbn.
    + destruct Hsz as [H1 H2]. split; [done|]. cbn. by rewrite length_map, length_insert.
    + rewrite Hfl. symmetry. apply count_ext, Forall2_map_right.
      eapply Forall2_impl; [exact Hrev|]. intros x y <-. by destruct (mine y).
    + congruence.
    + congruence.
    + intros _. exists (reveal c). split; [|done].
      apply list_elem_of_In, in_map_iff. exists (reveal c). cbn. rewrite Hm.
      split; [done|]. apply list_elem_of_In, (list_elem_of_lookup_2 _ (Z.to_nat i)).
      apply list_lookup_insert_eq. by apply lookup_lt_Some in Hc'.
  - destruct Hs as (Hsz & _).
    assert (HW : 0 < w (dim g)) by (destruct Hsz as [-> _]; destruct (level g); cbn; lia).
    assert (HH : 0 < h (dim g)) by (destruct Hsz as [-> _]; destruct (level g); cbn; lia).
    pose proof (floodLoop_grown _ _ (board g) _ _ _ _ Hn (grown_refl _)) as Hg.
    apply revealed_steady; try done.
    + by rewrite (grown_length _ _ Hg), (Forall2_length _ _ _ HF).
    + apply Forall2_same_length_lookup.
      split; [by rewrite (grown_length _ _ Hg), (Forall2_length _ _ _ HF)|].
      intros k x y Hx Hy.
      destruct (Forall2_lookup_r _ _ _ _ _ HF Hx) as (x0 & Hx0 & _ & E).
      destruct (Forall2_lookup_lr _ _ _ _ _ _ Hg Hx0 Hy) as (E' & _). congruence.
  - apply revealed_steady; try done. by rewrite length_insert.
Qed.

Lemma rightClick_steady i g g' : steady g -> rightClick i g = Some g' -> steady g'.
Proof.
  intros Hs. unfold rightClick. destruct (lost g || won g) eqn:Hlw; [by intros [= <-]|].
  apply orb_false_iff in Hlw as [Hl Hw].
  destruct (at_ (board g) i) as [c|] eqn:Hc; [|done].
  destruct (r c) eqn:Hr; [by intros [= <-]|]. intros [= <-].
  destruct Hs as ([Hd Hlen] & Hfl & Hun & _). pose proof Hc as [Hi Hc']%at_Some.
  split; [|split; [|split; [|split]]]; cbn.
  - split; [done|]. cbn. by rewrite length_insert.
  - rewrite (count_insert f _ _ c _ Hc'), Hfl. cbn. destruct (f c); cbn; lia.
  - intros Hp. destruct (Hun Hp) as (Hu & _ & _). split; [|done].
    unfold unplaced in *. apply Forall_insert; [done|]. cbn. rewrite Forall_forall in Hu.
    destruct (Hu c) as (? & ? & ?); [by eapply list_elem_of_lookup_2|]. done.
  - congruence.
  - congruence.
Qed.

(** The effect does not run for the level in force, whose preset is the
    [w], [h], [m] of the state, and runs for each of the other two. *)
Lemma reset_same g : dim g = presets (level g) -> reset (level g) g = g.
Proof. destruct g as [l d b p n lo wo]. cbn. intros ->. by destruct l. Qed.

Lemma reset_other l g : dim g = presets (level g) -> l <> level g -> reset l g = fresh l.
Proof.
  destruct g as [l0 d b p n lo wo]. cbn. intros -> Hne. by destruct l, l0.
Qed.

Lemma level_eqb_eq a b : level_eqb a b = true <-> a = b.
Proof. destruct a, b; cbn; split; congruence. Qed.

Lemma reset_steady l g : steady g -> steady (reset l g).
Proof.
  intros Hs. pose proof Hs as ([Hd _] & _).
  destruct (level_eqb l (level g)) eqn:E.
  - apply level_eqb_eq in E. subst l. by rewrite reset_same.
  - rewrite reset_other; [apply fresh_steady|done|].
    intros Hl. apply level_eqb_eq in Hl. congruence.
Qed.

Lemma handle_steady e g g' : steady g -> handle e g = Some g' -> steady g'.
Proof.
  intros Hs. destruct e as [rs i|i|l|]; cbn [handle].
  - by apply leftClick_steady.
  - by apply rightClick_steady.
  - intros [= <-]. by apply reset_steady.
  - intros [= <-]. by apply reset_steady.
Qed.

Lemma reachable_steady g : reachable g -> steady g.
Proof.
  induction 1 as [|e g g' _ IH He]; [apply fresh_steady | by apply (handle_steady e g)].
Qed.

(** The board with the mines and nothing revealed is reached by a first
    click on a flagged cell. *)
Lemma laid_reachable : reachable laid.
Proof.
  apply (reach_event (RightClick 0) (set_flags 1 (set_board
           (<[0%nat := mkCell false true false 0]> (board laid)) laid))); [|reflexivity].
  apply (reach_event (LeftClick sample_draws 0) (set_flags 1 (set_board
           (<[0%nat := mkCell false true false 0]> (board mount)) mount)));
    [|vm_compute; reflexivity].
  apply (reach_event (RightClick 0) mount); [apply reach_mount|reflexivity].
Qed.

(** X16.  The counter behind "Mines: m - flags" is right: in every state
    the game can reach, [flags] is the number of flagged cells of the
    board, and the board has the [w*h] cells of its level. *)
Theorem flags_counts_the_flagged g :
  reachable g ->
  flags g = count f (board g) /\
  dim g = presets (level g) /\
  Z.of_nat (length (board g)) = w (dim g) * h (dim g).
Proof. intros Hs%reachable_steady. by destruct Hs as ([? ?] & ? & _). Qed.

Lemma flags_counts_the_flagged_witness :
  exists g, handle (RightClick 3) laid = Some g /\
    flags g = count f (board g) /\
    dim g = presets (level g) /\
    Z.of_nat (length (board g)) = w (dim g) * h (dim g).
Proof.
  eexists. split; [vm_compute; reflexivity|].
  apply flags_counts_the_flagged.
  apply (reach_event (RightClick 3) laid); [apply laid_reachable|].
  vm_compute. reflexivity.
Defined.

(** X17.  What the two banners mean.  In every state the game can reach:
    a game won has every cell without a mine revealed and is not lost; a
    game lost has a revealed mine on the board; and before the mines are
    placed nothing is revealed and the game is neither won nor lost. *)
Theorem banners_are_earned g :
  reachable g ->
  (won g = true -> safeRevealed (board g) = true /\ lost g = false) /\
  (lost g = true -> exists c, c ∈ board g /\ mine c = true /\ r c = true) /\
  (placed g = false -> unplaced (board g) /\ lost g = false /\ won g = false).
Proof. intros (_ & _ & ? & ? & ?)%reachable_steady. done. Qed.

Lemma banners_are_earned_witness :
  (won laid = true -> safeRevealed (board laid) = true /\ lost laid = false) /\
  (lost laid = true -> exists c, c ∈ board laid /\ mine c = true /\ r c = true) /\
  (placed laid = false -> unplaced (board laid) /\ lost laid = false /\ won laid = false).
Proof. apply (banners_are_earned laid), laid_reachable. Defined.

(** X18.  The first click is always safe: whatever is drawn, the left
    click that places the mines does not lose the game. *)
Theorem first_click_is_safe rs i g g' :
  reachable g -> placed g = false -> leftClick rs i g = Some g' ->
  lost g' = false /\ placed g' = true.
Proof.
  intros Hs%reachable_steady Hp Hl.
  destruct Hs as (Hsz & Hfl & Hun & Hrest). destruct (Hun Hp) as (_ & Hlost & Hwon).
  apply leftClick_cases in Hl as [[Hlw _]|(Hlw & g1 & c & Hg1 & Hc & Hcases)].
  { rewrite Hlost, Hwon in Hlw. done. }
  destruct (placing_steady rs i g g1) as (_ & Hp1 & _ & _ & Hl1 & _ & _ & _ & Hsafe);
    [done|done|done|].
  specialize (Hsafe Hp c Hc).
  destruct Hcases as [[_ ->]|[(_ & Hm & _)|[(_ & _ & _ & next & _ & ->)|(_ & _ & _ & ->)]]].
  - done.
  - congruence.
  - destruct (checkWin_fields next (set_board next g1)) as (_ & _ & -> & -> & _). done.
  - destruct (checkWin_fields (<[Z.to_nat i := reveal c]> (board g1))
                (set_board (<[Z.to_nat i := reveal c]> (board g1)) g1))
      as (_ & _ & -> & -> & _). done.
Qed.

Lemma first_click_is_safe_witness : lost clicked = false /\ placed clicked = true.
Proof.
  apply (first_click_is_safe sample_draws 0 mount clicked);
    [apply reach_mount | reflexivity | vm_compute; reflexivity].
Defined.

(** A finished game answers every event that does not choose another
    level by staying as it is. *)
Lemma finished_stays e g :
  dim g = presets (level g) -> lost g || won g = true -> leaves (level g) e = false ->
  handle e g = Some g.
Proof.
  intros Hd Hlw He. destruct e as [rs i|i|l|]; cbn [handle].
  - unfold leftClick. by rewrite Hlw.
  - unfold rightClick. by rewrite Hlw.
  - cbn in He. apply negb_false_iff, level_eqb_eq in He. subst l. by rewrite reset_same.
  - by rewrite reset_same.
Qed.

Lemma blown_reachable : reachable blown.
Proof.
  apply (reach_event (LeftClick [] 80) laid); [apply laid_reachable|].
  vm_compute. reflexivity.
Qed.

(** X19.  The button "New Game" does not start a new game.  It calls
    [reset] with the level in force, which sets [level] and the dimensions
    to what they are; the board is rebuilt by the effect on [[w, h, m]],
    and in every state the game can reach the three are the numbers of the
    level's preset, so none of them changes and the effect does not run:
    the state after "New Game" is the state before.  Choosing another
    level does change them and gives the blank board of that level.  So
    a game that is lost or won stays as it is, the board and the banner
    included, through every run of clicks, of "New Game" and of choosing
    the level in force again: only another level ends it. *)
Theorem new_game_changes_nothing g :
  reachable g ->
  handle NewGame g = Some g /\
  (forall l, l <> level g -> handle (SelectLevel l) g = Some (fresh l)) /\
  (lost g || won g = true ->
   forall es, Forall (fun e => leaves (level g) e = false) es -> play es g = Some g).
Proof.
  intros ([Hd _] & _)%reachable_steady.
  split; [cbn; by rewrite reset_same|]. split.
  - intros l Hne. cbn. by rewrite reset_other.
  - intros Hlw es Hes. induction es as [|e es IH]; [done|].
    apply Forall_cons in Hes as [He Hes]. cbn [play].
    rewrite (finished_stays e g Hd Hlw He). by apply IH.
Qed.

Lemma new_game_changes_nothing_witness :
  lost blown = true /\
  handle NewGame blown = Some blown /\
  (forall l, l <> level blown -> handle (SelectLevel l) blown = Some (fresh l)) /\
  (lost blown || won blown = true ->
   forall es, Forall (fun e => leaves (level blown) e = false) es ->
     play es blown = Some blown).
Proof.
  split; [reflexivity|]. apply (new_game_changes_nothing blown), blown_reachable.
Defined.

(** ** The first click *)

Section Clear.
Variables (W H : Z).
Hypothesis (HW : 0 < W) (HH : 0 < H).
Variables (b b' : list cell) (start : Z).
Hypothesis Hl : Z.of_nat (length b) = W * H.
Hypothesis Hs : 0 <= start < W * H.
Hypothesis Hb : clear b.
Hypothesis Hf : flood W H b start = Some b'.

Lemma clear_grown : Forall2 grown b b'.
Proof. eapply (floodLoop_grown W H); [exact Hf|apply grown_refl]. Qed.

Lemma clear_cell i c' :
  at_ b' i = Some c' ->
  f c' = false /\ mine c' = false /\ adj c' = 0 /\
  exists c, at_ b i = Some c /\ r c = false.
Proof.
  intros [Hi Hc']%at_Some.
  destruct (Forall2_lookup_r _ _ _ _ _ clear_grown Hc') as (c & Hc & G1 & G2 & G3 & _).
  unfold clear in Hb. rewrite Forall_forall in Hb.
  destruct (Hb c) as (B1 & B2 & B3 & B4); [by eapply list_elem_of_lookup_2|].
  repeat split; try congruence. exists c. split; [by apply at_Some|done].
Qed.

Lemma clear_defined i : 0 <= i < W * H -> is_Some (at_ b' i).
Proof. intros Hi. apply at_defined. rewrite (grown_length _ _ clear_grown). lia. Qed.

Lemma shown_start : shown b' start.
Proof.
  destruct (clear_defined start Hs) as [c' Hc']. exists c'. split; [done|].
  destruct (flood_start W H b start b' c' Hf Hc') as [?|E]; [done|].
  destruct (clear_cell start c' Hc') as (E' & _). congruence.
Qed.

Lemma shown_next i j : shown b' i -> In j (nbors W H i) -> shown b' j.
Proof.
  intros (c' & Hc' & Hr) Hj.
  destruct (clear_defined j) as [cj Hcj]; [by eapply nbors_range|].
  exists cj. split; [done|].
  destruct (clear_cell i c' Hc') as (_ & Hm & Ha & c & Hc & Hrc).
  destruct (clear_cell j cj Hcj) as (Hfj & _).
  destruct (flood_leaves_no_gap W H b start b' i j cj HW HH Hl Hf) as [?|?];
    [by exists c, c'|done|done|done|congruence].
Qed.

Lemma shown_near n : forall cx cy,
  inb W H cx cy = true ->
  Z.abs (cx - col W start) + Z.abs (cy - row W start) <= Z.of_nat n ->
  shown b' (idx W cx cy).
Proof.
  destruct (cell_split W H HW start Hs) as (Es & Hsx & Hsy).
  induction n as [|n IH]; intros cx cy Hin Hd.
  - assert (cx = col W start /\ cy = row W start) as [-> ->] by lia.
    rewrite <- Es. apply shown_start.
  - apply (cell_inb W H) in Hin as [Hx Hy].
    destruct (Z.eq_dec cx (col W start)) as [Ex|Nx].
    + destruct (Z.eq_dec cy (row W start)) as [Ey|Ny].
      { apply IH; [apply cell_inb; lia|lia]. }
      set (cy' := if cy <? row W start then cy + 1 else cy - 1).
      assert (Hy' : 0 <= cy' < H /\ Z.abs (cy - cy') = 1 /\
                    Z.abs (cy' - row W start) = Z.abs (cy - row W start) - 1).
      { unfold cy'. destruct (cy <? row W start) eqn:E;
          [apply Z.ltb_lt in E|apply Z.ltb_ge in E]; lia. }
      apply (shown_next (idx W cx cy')); [apply IH; [apply cell_inb; lia|lia]|].
      apply (nbors_In W H HW); [apply (cell_idx_range W H HW), cell_inb; lia|].
      destruct (idx_split W HW cx cy Hx) as [C1 R1].
      destruct (idx_split W HW cx cy' Hx) as [C2 R2].
      unfold touching. rewrite C1, R1, C2, R2.
      split; [apply (cell_idx_range W H HW), cell_inb; lia|].
      split; [intros E; rewrite E in R1; lia|lia].
    + set (cx' := if cx <? col W start then cx + 1 else cx - 1).
      assert (Hx' : 0 <= cx' < W /\ Z.abs (cx - cx') = 1 /\
                    Z.abs (cx' - col W start) = Z.abs (cx - col W start) - 1).
      { unfold cx'. destruct (cx <? col W start) eqn:E;
          [apply Z.ltb_lt in E|apply Z.ltb_ge in E]; lia. }
      apply (shown_next (idx W cx' cy)); [apply IH; [apply cell_inb; lia|lia]|].
      apply (nbors_In W H HW); [apply (cell_idx_range W H HW), cell_inb; lia|].
      destruct (idx_split W HW cx cy Hx) as [C1 R1].
      destruct (idx_split W HW cx' cy ltac:(lia)) as [C2 R2].
      unfold touching. rewrite C1, R1, C2, R2.
      split; [apply (cell_idx_range W H HW), cell_inb; lia|].
      split; [intros E; rewrite E in C1; lia|lia].
Qed.

(** On a clear board the flood reaches every cell. *)
Lemma clear_flooded : Forall (fun c => r c = true) b'.
Proof.
  apply Forall_forall. intros c' [k Hk]%list_elem_of_lookup_1.
  assert (Hi : 0 <= Z.of_nat k < W * H).
  { apply lookup_lt_Some in Hk. rewrite (grown_length _ _ clear_grown) in Hk. lia. }
  destruct (cell_split W H HW _ Hi) as (Ei & Hx & Hy).
  destruct (cell_split W H HW start Hs) as (_ & Hsx & Hsy).
  destruct (shown_near (Z.to_nat (W + H)) (col W (Z.of_nat k)) (row W (Z.of_nat k)))
    as (c & [_ Hc]%at_Some & Hr); [apply cell_inb; lia|lia|].
  rewrite <- Ei, Nat2Z.id in Hc. congruence.
Qed.

End Clear.

Lemma safeRevealed_all b :
  Forall (fun c => r c = true) b -> safeRevealed b = true.
Proof.
  intros HF. unfold safeRevealed. apply forallb_forall. intros c Hc%list_elem_of_In.
  rewrite Forall_forall in HF. rewrite (HF c Hc). by destruct (mine c).
Qed.

(** X20.  The first click on a cell without a mined neighbour wins the
    game at once.  The click places the mines, but the [flood] it
    schedules is the closure of the render in which it was handled and
    works on the board of that render, from before the mines: on it no
    cell has a number, so the flood walks over every cell it can reach,
    and its board, without a mine on it, replaces the one with the mines.
    With no cell flagged every cell ends revealed and [won] is set. *)
Theorem first_click_on_a_zero_clears_the_board rs i g g1 c :
  reachable g -> placed g = false ->
  placeMines rs i g = Some g1 -> at_ (board g1) i = Some c ->
  f c = false -> adj c = 0 ->
  exists g', leftClick rs i g = Some g' /\ placed g' = true /\
    Forall (fun c' => mine c' = false /\ adj c' = 0) (board g') /\
    (flags g = 0 -> Forall (fun c' => r c' = true) (board g') /\ won g' = true).
Proof.
  intros Hs%reachable_steady Hp Hg1 Hc Hfc Ha.
  pose proof Hs as ([Hd Hlen] & Hfl & Hun & _). destruct (Hun Hp) as (Hu & Hlost & Hwon).
  assert (HW : 0 < w (dim g)) by (rewrite Hd; destruct (level g); cbn; lia).
  assert (HH : 0 < h (dim g)) by (rewrite Hd; destruct (level g); cbn; lia).
  destruct (placing_steady rs i g g1 Hs) as (_ & Hp1 & _ & _ & _ & Hw1 & _ & HF & Hsafe);
    [by rewrite Hlost, Hwon|by rewrite Hp|].
  pose proof Hc as [Hi Hc']%at_Some.
  destruct (Forall2_lookup_r _ _ _ _ _ HF Hc') as (c0 & Hc0 & Hr0 & Hf0).
  assert (Hrc : r c = false).
  { unfold unplaced in Hu. rewrite Forall_forall in Hu.
    destruct (Hu c0) as (? & _); [by eapply list_elem_of_lookup_2|]. congruence. }
  assert (Hrange : 0 <= i < w (dim g) * h (dim g)).
  { apply lookup_lt_Some in Hc0. lia. }
  destruct (flood_total _ _ HW (board g) i Hlen Hrange) as [next Hn].
  pose proof (floodLoop_grown _ _ (board g) _ _ _ _ Hn (grown_refl _)) as Hg.
  exists (checkWin next (set_board next g1)).
  destruct (checkWin_fields next (set_board next g1)) as (E1 & _ & E3 & _ & _ & _ & E7).
  rewrite E1, E3, E7. cbn [board placed won set_board].
  split; [|split; [done|split]].
  - unfold leftClick. rewrite Hlost, Hwon, Hp, Hg1, Hc, Hfc, Hrc, (Hsafe Hp c Hc), Ha, Hn.
    done.
  - apply Forall_forall. intros c' [k Hk]%list_elem_of_lookup_1.
    destruct (Forall2_lookup_r _ _ _ _ _ Hg Hk) as (c1 & Hc1 & _ & G2 & G3 & _).
    unfold unplaced in Hu. rewrite Forall_forall in Hu.
    destruct (Hu c1) as (_ & ? & ?); [by eapply list_elem_of_lookup_2|]. split; congruence.
  - intros Hz. rewrite Hfl in Hz. apply count_zero in Hz.
    assert (Hclear : clear (board g)).
    { unfold clear, unplaced in *. rewrite Forall_forall in *. intros x Hx.
      destruct (Hu x Hx) as (? & ? & ?). by rewrite (Hz x Hx). }
    pose proof (clear_flooded _ _ HW HH _ _ _ Hlen Hrange Hclear Hn) as Hall.
    split; [done|]. by rewrite (safeRevealed_all _ Hall).
Qed.

Lemma first_click_on_a_zero_clears_the_board_witness :
  exists g', leftClick sample_draws 0 mount = Some g' /\ placed g' = true /\
    Forall (fun c' => mine c' = false /\ adj c' = 0) (board g') /\
    (flags mount = 0 -> Forall (fun c' => r c' = true) (board g') /\ won g' = true).
Proof.
  apply (first_click_on_a_zero_clears_the_board sample_draws 0 mount laid
           (mkCell false false false 0));
    [apply reach_mount|reflexivity|vm_compute; reflexivity|reflexivity|reflexivity|reflexivity].
Defined.
End MinesFacts.

(** * Properties of the terminal *)

Section Terminal.
Import Term.

Lemma str_eqb_eq a b : str_eqb a b = true <-> a = b.
Proof.
  revert b. induction a as [|x a IH]; intros [|y b]; cbn; try (split; congruence).
  rewrite andb_true_iff, Z.eqb_eq, IH. split; [intros [-> ->]; done|by intros [= -> ->]].
Qed.

Lemma find_key {B} (l : list (str * B)) k p :
  find (fun q => str_eqb (fst q) k) l = Some p -> In k (map fst l).
Proof.
  intros [Hin Hk%str_eqb_eq]%find_some. apply in_map_iff. by exists p.
Qed.

Lemma get_names k e : get k = Some e -> In k names.
Proof.
  unfold get, names. rewrite in_app_iff.
  destruct (find _ commands) as [p|] eqn:E1; [intros _; left; by eapply find_key|].
  destruct (find _ inherited) as [p|] eqn:E2; [intros _; right; by eapply find_key|done].
Qed.

(** ** [split] and [join] *)

Lemma split_nonempty s : split s <> [].
Proof. destruct s as [|c s]; cbn; [done|]. destruct (c =? 32); [done|]. by destruct (split s). Qed.

Lemma join_cons c p ps : join ((c :: p) :: ps) = c :: join (p :: ps).
Proof. by destruct ps. Qed.

Lemma join_split s : join (split s) = s.
Proof.
  induction s as [|c s IH]; [done|]. cbn [split]. destruct (c =? 32) eqn:E.
  - apply Z.eqb_eq in E as ->. pose proof (split_nonempty s).
    destruct (split s) as [|p ps] eqn:Es; [done|].
    change (join ([] :: p :: ps)) with (32 :: join (p :: ps)). f_equal. exact IH.
  - pose proof (split_nonempty s). destruct (split s) as [|p ps] eqn:Es; [done|].
    rewrite join_cons. f_equal. exact IH.
Qed.

Lemma split_pieces s : Forall (fun p => ~ In 32 p) (split s).
Proof.
  induction s as [|c s IH]; cbn [split]; [constructor; [by intros []|constructor]|].
  destruct (c =? 32) eqn:E; [constructor; [by intros []|done]|]. apply Z.eqb_neq in E.
  destruct (split s) as [|p ps]; [constructor; [by intros [?|[]]|constructor]|].
  apply Forall_cons in IH as [Hp Hps]. constructor; [|done]. by intros [?|?].
Qed.

Lemma split_word w s : ~ In 32 w -> split (w ++ 32 :: s) = w :: split s.
Proof.
  induction w as [|c w IH]; intros Hw; [done|]. cbn [app split].
  destruct (c =? 32) eqn:E; [apply Z.eqb_eq in E; exfalso; apply Hw; by left|].
  rewrite IH; [done|]. intros ?. apply Hw. by right.
Qed.

Lemma word_first s : ~ In 32 (word s) /\ exists args, split s = word s :: args.
Proof.
  unfold word. pose proof (split_pieces s) as HF. pose proof (split_nonempty s).
  destruct (split s) as [|w args]; [done|]. apply Forall_cons in HF as [Hw _].
  split; [done|by exists args].
Qed.

(** ** Command lines *)

(** Every name but ["rm -rf /"] has a first word that is a name. *)
Lemma first_word_named k :
  In k names -> k <> lit "rm -rf /" -> get (word k) <> None.
Proof.
  intros Hk Hne. vm_compute in Hk.
  repeat (destruct Hk as [<-|Hk];
    [first [vm_compute; discriminate | exfalso; apply Hne; reflexivity]|]).
  done.
Qed.

Lemma multi_unnamed w a0 :
  ~ In 32 w -> ~ In 32 a0 -> get w = None -> get (w ++ 32 :: a0) = None.
Proof.
  intros Hw Ha Hg. destruct (get (w ++ 32 :: a0)) as [e|] eqn:E; [|done]. exfalso.
  assert (Hword : word (w ++ 32 :: a0) = w) by (unfold word; by rewrite split_word).
  destruct (list_eq_dec (w ++ 32 :: a0) (lit "rm -rf /")) as [Er|Nr].
  - assert (Ew : w = lit "rm") by (rewrite <- Hword, Er; reflexivity).
    subst w. vm_compute in Er. injection Er as ->. apply Ha.
    do 3 right. by left.
  - apply (first_word_named _ (get_names _ _ E) Nr). by rewrite Hword.
Qed.

(** X21.  A command line whose first word is not a name of the table
    [commands] (a command, or one of the twelve names every object
    inherits) is answered with "command not found" and that word, except
    for the line ["rm -rf /"], which is a command as a whole. *)
Theorem unknown_command_is_not_found c :
  get (word c) = None -> c <> lit "rm -rf /" -> resolve c = NotFound (word c).
Proof.
  intros Hw Hne. unfold resolve.
  destruct (get c) as [e|] eqn:E.
  { exfalso. by apply (first_word_named c (get_names _ _ E) Hne). }
  destruct (word_first c) as [Hnw [args Hs]]. rewrite Hs.
  pose proof (split_pieces c) as HF. rewrite Hs in HF. apply Forall_cons in HF as [_ HF].
  rewrite multi_unnamed, Hw; [done|done| |done].
  destruct args as [|a0 args]; [by intros []|]. by apply Forall_cons in HF as [? _].
Qed.

Lemma unknown_command_is_not_found_witness :
  resolve (lit "rm -rf / now") = NotFound (word (lit "rm -rf / now")).
Proof.
  apply (unknown_command_is_not_found (lit "rm -rf / now")); [reflexivity|].
  vm_compute. discriminate.
Defined.

(** The line "echo", a space and any text runs [echo] on the pieces of the
    text, and what [echo] prints of them is the text. *)
Lemma resolve_echo rest :
  resolve (lit "echo " ++ rest) = Run Echo (split rest) /\
  say Echo (split rest) = Some [rest].
Proof.
  split; [|cbn; by rewrite join_split].
  unfold resolve.
  assert (E1 : get (lit "echo " ++ rest) = None).
  { destruct (get _) as [e|] eqn:E; [|done]. apply get_names in E. exfalso.
    vm_compute in E.
    repeat (destruct E as [E|E]; [discriminate E|]). done. }
  rewrite E1. change (lit "echo " ++ rest) with (lit "echo" ++ 32 :: rest).
  rewrite split_word by (vm_compute; intuition discriminate).
  pose proof (split_nonempty rest). destruct (split rest) as [|a0 args] eqn:Es; [done|].
  assert (E2 : get (lit "echo" ++ 32 :: a0) = None).
  { destruct (get _) as [e|] eqn:E; [|done]. apply get_names in E. exfalso.
    vm_compute in E.
    repeat (destruct E as [E|E]; [discriminate E|]). done. }
  rewrite E2. reflexivity.
Qed.

Lemma trimStart_app a b :
  trimStart (a ++ b) = match trimStart a with [] => trimStart b | _ => trimStart a ++ b end.
Proof.
  induction a as [|c a IH]; [done|]. cbn [app trimStart]. destruct (isSpace c); [exact IH|done].
Qed.

(** [trimStart] takes white space off the front and nothing else. *)
Lemma trimStart_split s :
  exists ws, s = ws ++ trimStart s /\ Forall (fun c => isSpace c = true) ws.
Proof.
  induction s as [|c s (ws & E & Hws)]; [by exists []|]. cbn [trimStart].
  destruct (isSpace c) eqn:Ec; [|by exists []].
  exists (c :: ws). split; [by rewrite <- app_comm_cons, <- E|by constructor].
Qed.

Lemma trimEnd_split s :
  exists ws, s = trimEnd s ++ ws /\ Forall (fun c => isSpace c = true) ws.
Proof.
  destruct (trimStart_split (rev s)) as (ws & E & Hws). exists (rev ws). split.
  - unfold trimEnd. rewrite <- rev_app_distr, <- E. by rewrite rev_involutive.
  - by apply Forall_rev.
Qed.

Lemma trimEnd_keeps s :
  (forall c, last s = Some c -> isSpace c = false) -> trimEnd s = s.
Proof.
  intros H. unfold trimEnd. destruct s as [|c s _] using rev_ind; [done|].
  rewrite rev_app_distr. cbn [rev app trimStart]. rewrite (H c) by apply last_snoc.
  cbn [rev app]. by rewrite rev_involutive.
Qed.

(** What [trim] leaves of "echo", a space and a text. *)
Lemma trim_echo text :
  trim (lit "echo " ++ text) =
    match trimEnd text with [] => lit "echo" | p => lit "echo " ++ p end.
Proof.
  unfold trim, trimEnd. change (trimStart (lit "echo " ++ text)) with (lit "echo " ++ text).
  rewrite rev_app_distr, trimStart_app.
  destruct (trimStart (rev text)) as [|c p]; [reflexivity|].
  rewrite rev_app_distr, rev_involutive.
  destruct (rev (c :: p)) eqn:E; [|reflexivity].
  apply (f_equal length) in E. rewrite length_rev in E. done.
Qed.

Lemma exec_line raw t :
  trim raw <> [] ->
  exec raw t = (mkTerm (input t) (trim raw :: history t) (-1), resolve (trim raw)).
Proof. unfold exec. by destruct (trim raw). Qed.

(** X22.  [echo] prints its text without the white space at its end.
    For the input "echo", a space and any text, [exec] puts the trimmed
    line into the history and calls [echo], and the line [echo] prints,
    its arguments joined with spaces, is the text with the white space at
    its end taken off and nothing else changed, runs of spaces inside the
    text included.  So a text that does not end in white space is printed
    as it was typed. *)
Theorem echo_prints_its_text text t :
  (exists args,
     exec (lit "echo " ++ text) t =
       (mkTerm (input t) (trim (lit "echo " ++ text) :: history t) (-1), Run Echo args) /\
     say Echo args = Some [trimEnd text]) /\
  (exists ws, text = trimEnd text ++ ws /\ Forall (fun c => isSpace c = true) ws) /\
  ((forall c, last text = Some c -> isSpace c = false) -> trimEnd text = text).
Proof.
  split; [|split; [apply trimEnd_split|apply trimEnd_keeps]].
  assert (Hne : trim (lit "echo " ++ text) <> []).
  { rewrite trim_echo. destruct (trimEnd text); discriminate. }
  rewrite (exec_line _ t Hne), trim_echo. destruct (trimEnd text) as [|c p] eqn:E.
  - exists []. split; reflexivity.
  - exists (split (c :: p)). destruct (resolve_echo (c :: p)) as [-> ->]. done.
Qed.

(** ** History *)

Lemma exec_history raw t :
  fst (exec raw t) = t \/
  (trim raw <> [] /\
   fst (exec raw t) = mkTerm (input t) (trim raw :: history t) (-1)).
Proof. unfold exec. destruct (trim raw) as [|c s]; [by left|by right]. Qed.

(** The index into the history is -1 or the index of an entry, and no
    entry is the empty string. *)
Lemma handle_history e t :
  -1 <= hIndex t <= Z.of_nat (length (history t)) - 1 /\
    Forall (fun s => s <> []) (history t) ->
  -1 <= hIndex (handle e t) <= Z.of_nat (length (history (handle e t))) - 1 /\
    Forall (fun s => s <> []) (history (handle e t)).
Proof.
  intros [Hi Hh]. destruct e; cbn [handle].
  - done.
  - unfold onSubmit. destruct (exec (input t) t) as [t' a] eqn:E.
    assert (Ht' : -1 <= hIndex t' <= Z.of_nat (length (history t')) - 1 /\
                  Forall (fun s => s <> []) (history t')).
    { destruct (exec_history (input t) t) as [E'|[Hne E']]; rewrite E in E'; cbn in E'.
      - by subst t'.
      - subst t'. cbn [hIndex history length]. split; [lia|by constructor]. }
    destruct a as [| | [|] |]; done.
  - unfold arrowUp. cbn [hIndex history]. split; [lia|done].
  - unfold arrowDown. cbn [hIndex history]. split; [lia|done].
  - unfold tab. by destruct (completion (input t)).
Qed.

(** X23.  The history index never leaves the history: in every state of
    the terminal it is -1 (no entry selected) or the index of an entry,
    whatever is typed, submitted or pressed; and the history holds no
    empty line. *)
Theorem history_index_in_range t :
  reachable t ->
  -1 <= hIndex t <= Z.of_nat (length (history t)) - 1 /\
  Forall (fun s => s <> []) (history t).
Proof.
  induction 1 as [|e t _ IH]; [by split; [cbn; lia|constructor]|by apply handle_history].
Qed.

Lemma history_index_in_range_witness :
  let t := handle Up (handle Up (handle Submit (handle (Type_ (lit " ls ")) start))) in
  -1 <= hIndex t <= Z.of_nat (length (history t)) - 1 /\
  Forall (fun s => s <> []) (history t).
Proof.
  apply (history_index_in_range
           (handle Up (handle Up (handle Submit (handle (Type_ (lit " ls ")) start))))).
  do 4 apply reach_event. apply reach_start.
Defined.

(** X24.  Recalling a command.  After a line that is not blank has been
    run, the up arrow puts that line, trimmed, into the input field and
    selects entry 0; and the down arrow from entry 0, or with no entry
    selected, empties the input field, whatever had been typed. *)
Theorem arrows_recall_the_last_line raw t :
  trim raw <> [] ->
  let t1 := arrowUp (fst (exec raw t)) in
  input t1 = trim raw /\ hIndex t1 = 0 /\
  (forall t0, hIndex t0 <= 0 -> input (arrowDown t0) = [] /\ hIndex (arrowDown t0) = -1).
Proof.
  intros Hne t1. subst t1. unfold exec. destruct (trim raw) as [|c s]; [done|].
  cbn [fst]. unfold arrowUp. cbn [history hIndex input length].
  replace (Z.min (Z.of_nat (S (length (history t))) - 1) (-1 + 1)) with 0 by lia.
  split; [done|]. split; [done|].
  intros t0 H0. unfold arrowDown. cbn [input hIndex].
  replace (Z.max (-1) (hIndex t0 - 1)) with (-1) by lia. done.
Qed.

Lemma arrows_recall_the_last_line_witness :
  let t1 := arrowUp (fst (exec (lit "  echo hi ") start)) in
  input t1 = trim (lit "  echo hi ") /\ hIndex t1 = 0 /\
  (forall t0, hIndex t0 <= 0 -> input (arrowDown t0) = [] /\ hIndex (arrowDown t0) = -1).
Proof.
  apply (arrows_recall_the_last_line (lit "  echo hi ") start). vm_compute. discriminate.
Defined.

(** ** Completion *)

Lemma startsWith_refl c : startsWith c c = true.
Proof. induction c as [|x c IH]; cbn; [done|]. by rewrite Z.eqb_refl, IH. Qed.

Lemma startsWith_trans c m s :
  startsWith c m = true -> startsWith m s = true -> startsWith c s = true.
Proof.
  revert c m. induction s as [|z s IH]; intros c m; [by destruct c|].
  destruct m as [|y m]; [done|]. destruct c as [|x c]; [done|]. cbn.
  rewrite !andb_true_iff, !Z.eqb_eq. intros [-> H1] [-> H2]. split; [done|by eapply IH].
Qed.

Lemma find_again (l : list str) s m :
  find (fun c => startsWith c s) l = Some m -> find (fun c => startsWith c m) l = Some m.
Proof.
  induction l as [|k l IH]; cbn; [done|]. destruct (startsWith k s) eqn:Es.
  - intros [= ->]. by rewrite startsWith_refl.
  - intros Hm. destruct (startsWith k m) eqn:Em; [|by apply IH].
    apply find_some in Hm as [_ Hm]. by rewrite (startsWith_trans k m s Em Hm) in Es.
Qed.

(** X25.  What the Tab key puts into the input field is the first
    command name, in the order of the table, that starts with what was
    typed; and it is a fixed point: Tab pressed again leaves it. *)
Theorem tab_completes_once t m :
  completion (input t) = Some m ->
  input (tab t) = m /\ startsWith m (input t) = true /\
  In m (map fst commands) /\ tab (tab t) = tab t.
Proof.
  intros Hm. pose proof Hm as [Hin Hs]%find_some.
  assert (E : tab t = mkTerm m (history t) (hIndex t)) by (unfold tab; by rewrite Hm).
  rewrite E. cbn [input]. split; [done|]. split; [done|]. split; [done|].
  unfold tab at 1. cbn [input history hIndex]. unfold completion in *.
  by rewrite (find_again _ _ _ Hm).
Qed.

Lemma tab_completes_once_witness :
  let t := mkTerm (lit "un") [] (-1) in
  input (tab t) = lit "uname -a" /\ startsWith (lit "uname -a") (input t) = true /\
  In (lit "uname -a") (map fst commands) /\ tab (tab t) = tab t.
Proof. apply (tab_completes_once (mkTerm (lit "un") [] (-1)) (lit "uname -a")). reflexivity. Defined.

End Terminal.
